(** * ZOON codec (zoon-go): a shallow embedding of the encoder and the decoder

    The development follows the Go sources: [encode.go] (flattening, column
    statistics, alias detection, tabular and inline emission), [decode.go]
    (tabular and inline decoding, the deep-path resolver, primitive coercion)
    and [zoon.go] (the entry points [Marshal] and [Unmarshal]).

    Conventions of the embedding.
    - A Go [string] is a byte sequence: Rocq's [string] (one [ascii] per byte).
    - A Go [int] is a 64-bit integer, modelled in [Z]; the only place where the
      range matters is [strconv.Atoi], whose saturation is written out.
    - Go maps are [gmap]s; where Go iterates over a map in an unspecified
      order, the order is a parameter of the model.
    - A run-time panic of the Go program is the outcome [Panic]; an [error]
      value returned by the program is the outcome [Err]. *)

From Stdlib Require Import ZArith String Ascii List Lia Bool.
From stdpp Require Import gmap strings list sorting.

Local Open Scope Z_scope.

(** ** Outcomes of a Go call *)

Inductive outcome (A : Type) : Type :=
| Ok (a : A)
| Err (msg : string)
| Panic.
Arguments Ok {A} a.
Arguments Err {A} msg.
Arguments Panic {A}.

(** Sequencing: the first error or panic ends the call.  With the instances
    below [x ← c; k] is stdpp's notation for it. *)
#[export] Instance outcome_ret : MRet outcome := fun A a => Ok a.

#[export] Instance outcome_bind : MBind outcome := fun A B f x =>
  match x with
  | Ok a => f a
  | Err m => Err m
  | Panic => Panic
  end.

(** An index or slice expression that may be out of range. *)
Definition orPanic {A} (x : option A) : outcome A :=
  match x with
  | Some a => Ok a
  | None => Panic
  end.

(** ** The string library used by the codec *)

Module GoString.

(** [len(s)] *)
Definition len (s : string) : Z := Z.of_nat (String.length s).

(** The double quote, as a byte and as a one-byte string. *)
Definition dquote : ascii := "034"%char.
Definition quote : string := String dquote EmptyString.

(** [strings.HasPrefix(s, p)] *)
Fixpoint HasPrefix (s p : string) {struct p} : bool :=
  match p with
  | EmptyString => true
  | String a p' =>
      match s with
      | String c s' => Ascii.eqb a c && HasPrefix s' p'
      | EmptyString => false
      end
  end.

Arguments HasPrefix : simpl never.

(** [strings.HasSuffix(s, p)] *)
Definition HasSuffix (s p : string) : bool :=
  HasPrefix (String.rev s) (String.rev p).

(** [strings.ReplaceAll(s, old, new)] for a one-byte [old] *)
Fixpoint ReplaceAll (s : string) (old : ascii) (new : string) : string :=
  match s with
  | EmptyString => EmptyString
  | String c s' =>
      (if Ascii.eqb c old then new else String c EmptyString)
        +:+ ReplaceAll s' old new
  end.

(** [strings.Split(s, sep)] for a one-byte [sep]: never empty, [Split "" = [""]] *)
Fixpoint Split (s : string) (sep : ascii) : list string :=
  match s with
  | EmptyString => [EmptyString]
  | String c s' =>
      if Ascii.eqb c sep then EmptyString :: Split s' sep
      else match Split s' sep with
           | [] => [String c EmptyString]
           | p :: ps => String c p :: ps
           end
  end.

(** [strings.Join(l, sep)] *)
Fixpoint Join (l : list string) (sep : string) : string :=
  match l with
  | [] => EmptyString
  | [x] => x
  | x :: rest => x +:+ sep +:+ Join rest sep
  end.

(** [strings.IndexAny(s, chars)]: position of the first byte of [s] that is
    one of [chars]; [None] stands for Go's [-1]. *)
Fixpoint IndexAny (s : string) (chars : list ascii) : option nat :=
  match s with
  | EmptyString => None
  | String c s' =>
      if existsb (Ascii.eqb c) chars then Some O
      else option_map S (IndexAny s' chars)
  end.

(** [strings.Index(s, sep)] for a one-byte [sep] *)
Definition Index (s : string) (sep : ascii) : option nat := IndexAny s [sep].

(** [s[a:]]: panics when [a > len(s)] *)
Fixpoint sliceFrom (s : string) (a : nat) : option string :=
  match a, s with
  | O, _ => Some s
  | S a', String _ s' => sliceFrom s' a'
  | S _, EmptyString => None
  end.

(** [s[:b]]: panics when [b > len(s)] *)
Fixpoint sliceTo (s : string) (b : nat) : option string :=
  match b, s with
  | O, _ => Some EmptyString
  | S b', String c s' => option_map (String c) (sliceTo s' b')
  | S _, EmptyString => None
  end.

(** [s[a:b]]: panics unless [0 <= a <= b <= len(s)] *)
Definition slice (s : string) (a b : Z) : option string :=
  if (0 <=? a) && (a <=? b) && (b <=? len s) then
    match sliceTo s (Z.to_nat b) with
    | Some p => sliceFrom p (Z.to_nat a)
    | None => None
    end
  else None.

(** *** White space ([unicode.IsSpace] on UTF-8 text)

    The white-space runes of Go are the six ASCII ones and U+0085, U+00A0,
    U+1680, U+2000..U+200A, U+2028, U+2029, U+202F, U+205F, U+3000.  Each has
    one UTF-8 encoding, which starts with a lead byte, so that looking for
    these byte sequences is the same as decoding rune by rune. *)

Definition b (n : nat) : ascii := ascii_of_nat n.

Definition bytes (l : list nat) : string := string_of_list_ascii (map b l).

Definition spaceRunes : list string :=
  map bytes
    ([[9]; [10]; [11]; [12]; [13]; [32]; [194; 133]; [194; 160]; [225; 154; 128]]
     ++ map (fun k => [226; 128; k]) (seq 128 11)
     ++ [[226; 128; 168]; [226; 128; 169]; [226; 128; 175]; [226; 129; 159];
         [227; 128; 128]])%nat%list.

(** Width in bytes of the white-space rune at the head of [s], if there is one. *)
Definition spaceWidth (s : string) : option nat :=
  option_map String.length (List.find (HasPrefix s) spaceRunes).

(** The same for the last rune of a string, given the string reversed. *)
Definition spaceWidthRev (s : string) : option nat :=
  option_map String.length
    (List.find (fun r => HasPrefix s (String.rev r)) spaceRunes).

Fixpoint trimWith (width : string -> option nat) (s : string) (skip : nat) : string :=
  match s with
  | EmptyString => EmptyString
  | String _ s' =>
      match skip with
      | S k => trimWith width s' k
      | O => match width s with
             | Some (S k) => trimWith width s' k
             | _ => s
             end
      end
  end.

(** [strings.TrimSpace(s)] and [bytes.TrimSpace(s)] *)
Definition TrimSpace (s : string) : string :=
  String.rev (trimWith spaceWidthRev (String.rev (trimWith spaceWidth s 0)) 0).

Definition flush (cur : string) : list string :=
  match cur with
  | EmptyString => []
  | _ => [cur]
  end.

Fixpoint fieldsGo (s : string) (skip : nat) (cur : string) : list string :=
  match s with
  | EmptyString => flush cur
  | String c s' =>
      match skip with
      | S k => fieldsGo s' k cur
      | O => match spaceWidth s with
             | Some (S k) => (flush cur ++ fieldsGo s' k EmptyString)%list
             | _ => fieldsGo s' 0 (cur +:+ String c EmptyString)
             end
      end
  end.

(** [strings.Fields(s)]: the maximal runs of bytes that are not white space *)
Definition Fields (s : string) : list string := fieldsGo s 0 EmptyString.

(** *** [strconv.Atoi] and [fmt.Sprintf("%d", n)] *)

Definition isDigit (c : ascii) : bool :=
  (48 <=? nat_of_ascii c)%nat && (nat_of_ascii c <=? 57)%nat.

Definition digitVal (c : ascii) : Z := Z.of_nat (nat_of_ascii c) - 48.

(** [strconv.ParseUint(s, 10, 0)] on a 64-bit platform returns a value and an
    error: the number read, a syntax error (with the value 0) or a range
    error (with the value [maxUint64]). *)
Definition maxUint64 : Z := 2 ^ 64 - 1.

Inductive uintResult : Type :=
| UintOk (n : Z)
| SyntaxError
| RangeError.

(** The loop of [ParseUint] over the bytes, [acc] being [n]: a byte that is
    no digit ends it with the syntax error, and a digit that takes the number
    past [maxUint64] ends it with the range error, whatever follows. *)
Fixpoint parseDigits (s : string) (acc : Z) : uintResult :=
  match s with
  | EmptyString => UintOk acc
  | String c s' =>
      if isDigit c then
        if maxUint64 / 10 + 1 <=? acc then RangeError
        else if maxUint64 <? acc * 10 + digitVal c then RangeError
        else parseDigits s' (acc * 10 + digitVal c)
      else SyntaxError
  end.

Definition parseUint (s : string) : uintResult :=
  match s with
  | EmptyString => SyntaxError
  | _ => parseDigits s 0
  end.

Definition maxInt : Z := 2 ^ 63 - 1.
Definition minInt : Z := - 2 ^ 63.

(** [strconv.Atoi(s)] returns a value and an error.  The second component is
    [true] when the error is [nil].  A syntax error comes with the value 0; a
    range error comes with the nearest bound of the 64-bit [int], also when
    [ParseUint] met it before a byte that is no digit.  (The fast path of
    [Atoi] for tokens shorter than 19 bytes gives the same results.) *)
Definition Atoi (s : string) : Z * bool :=
  let '(neg, body) :=
    match s with
    | String "+" r => (false, r)
    | String "-" r => (true, r)
    | _ => (false, s)
    end in
  match parseUint body with
  | SyntaxError => (0, false)
  | RangeError => (if neg then minInt else maxInt, false)
  | UintOk un =>
      if negb neg && (2 ^ 63 <=? un) then (maxInt, false)
      else if neg && (2 ^ 63 <? un) then (minInt, false)
      else (if neg then - un else un, true)
  end.

Fixpoint digitsOf (fuel : nat) (n : Z) (acc : string) : string :=
  match fuel with
  | O => acc
  | S fuel' =>
      let acc' := String (ascii_of_nat (Z.to_nat (48 + n mod 10))) acc in
      if n <? 10 then acc' else digitsOf fuel' (n / 10) acc'
  end.

(** [fmt.Sprintf("%d", n)] *)
Definition formatInt (n : Z) : string :=
  let m := Z.abs n in
  let ds := digitsOf (S (Z.to_nat (Z.log2 m))) m EmptyString in
  if n <? 0 then String "-" ds else ds.

End GoString.

Import GoString.

(** ** Primitive coercion ([parsePrimitive], decode.go) *)

(** The dynamic values [parsePrimitive] returns in an [any]. *)
Inductive prim : Type :=
| PNil
| PInt (n : Z)
| PBool (b : bool)
| PString (s : string).

Definition parsePrimitive (s typ : string) : prim :=
  if String.eqb s "~" then PNil
  else if String.eqb typ "i" || String.eqb typ "i+" then PInt (fst (Atoi s))
  else if String.eqb typ "b" then
    PBool (String.eqb s "1" || String.eqb s "y" || String.eqb s "true")
  else if String.eqb s "y" || String.eqb s "n" then PBool (String.eqb s "y")
  else if snd (Atoi s) then PInt (fst (Atoi s))
  else if String.eqb s "true" || String.eqb s "false" then PBool (String.eqb s "true")
  else PString (ReplaceAll s "_" " ").

(** ** Host values (the fragment of Go's types the development covers)

    Element values are booleans, [int]s, strings, pointers and structs with
    exported fields, nested at will.  Maps, floats, interface-typed fields and
    slices inside an element are outside the fragment, so that the branches of
    the source that test for [reflect.Map] or [reflect.Interface] have no
    counterpart below.  A pointer owns its target (no aliasing). *)

(** A struct field as [reflect.StructField] shows it: the declared name and
    the two tags the codec reads, [f.Tag.Get("zoon")] and [f.Tag.Get("json")]. *)
Set Warnings "-register-all".

Record StructField : Type := mkField {
  Name : string;
  zoonTag : string;
  jsonTag : string
}.

Inductive type : Type :=
| TBool
| TInt
| TString
| TPtr (elem : type)
| TStruct (fields : list (StructField * type)).

Inductive value : Type :=
| VBool (b : bool)
| VInt (n : Z)
| VString (s : string)
| VNil (elem : type)
| VPtr (v : value)
| VStruct (fields : list (StructField * value)).

(** [reflect.Kind], with [Slice] for the top-level value of a tabular document. *)
Inductive Kind : Type := Invalid | Bool | Int | String_ | Ptr | Struct | Slice.

Definition Kind_eqb (a b : Kind) : bool :=
  match a, b with
  | Invalid, Invalid | Bool, Bool | Int, Int | String_, String_
  | Ptr, Ptr | Struct, Struct | Slice, Slice => true
  | _, _ => false
  end.

(** [Kind.String()] *)
Definition kindName (k : Kind) : string :=
  match k with
  | Invalid => "invalid"
  | Bool => "bool"
  | Int => "int"
  | String_ => "string"
  | Ptr => "ptr"
  | Struct => "struct"
  | Slice => "slice"
  end.

Definition kindOf (v : value) : Kind :=
  match v with
  | VBool _ => Bool
  | VInt _ => Int
  | VString _ => String_
  | VNil _ | VPtr _ => Ptr
  | VStruct _ => Struct
  end.

Definition kindOfType (t : type) : Kind :=
  match t with
  | TBool => Bool
  | TInt => Int
  | TString => String_
  | TPtr _ => Ptr
  | TStruct _ => Struct
  end.

(** [reflect.Zero(t)], which is also [reflect.New(t).Elem()] *)
Fixpoint zero (t : type) : value :=
  match t with
  | TBool => VBool false
  | TInt => VInt 0
  | TString => VString EmptyString
  | TPtr e => VNil e
  | TStruct fs => VStruct (map (fun ft => (fst ft, zero (snd ft))) fs)
  end.

(** [v.Type()] *)
Fixpoint typeOf (v : value) : type :=
  match v with
  | VBool _ => TBool
  | VInt _ => TInt
  | VString _ => TString
  | VNil e => TPtr e
  | VPtr v' => TPtr (typeOf v')
  | VStruct fs => TStruct (map (fun fv => (fst fv, typeOf (snd fv))) fs)
  end.

(** ** Field lookup ([findField], decode.go) *)

(** [strings.EqualFold]: equality under Unicode simple case folding.  The
    model folds the ASCII letters and the two other runes whose folding orbit
    meets ASCII (U+212A KELVIN SIGN with k, U+017F LONG S with s), and leaves
    every other byte as it is.  It is the function of Go whenever one of the
    two strings is ASCII; for two strings that both hold other bytes Go also
    folds the letters beyond ASCII, so the statements below that depend on
    which names match take ASCII names (or an ASCII name looked up), or the
    outcome of the lookup itself, as a hypothesis. *)
Definition lowerByte (c : ascii) : ascii :=
  let n := nat_of_ascii c in
  if (65 <=? n)%nat && (n <=? 90)%nat then ascii_of_nat (n + 32) else c.

Fixpoint foldCase (s : string) : string :=
  match s with
  | EmptyString => EmptyString
  | String "226" (String "132" (String "170" r)) => String "k" (foldCase r)
  | String "197" (String "191" r) => String "s" (foldCase r)
  | String c r => String (lowerByte c) (foldCase r)
  end.

Definition EqualFold (s t : string) : bool := String.eqb (foldCase s) (foldCase t).

(** The tag the codec reads for a field: [zoon], else [json]. *)
Definition tagOf (f : StructField) : string :=
  if String.eqb (zoonTag f) "" then jsonTag f else zoonTag f.

(** [parts[0]] of [strings.Split(tag, ",")] *)
Definition tagName (tag : string) : string := hd EmptyString (Split tag ",").

(** One iteration of the loop of [findField]: the tag is compared exactly,
    then the declared name is compared up to case. *)
Definition fieldMatches (f : StructField) (name : string) : bool :=
  (negb (String.eqb (tagOf f) "") && String.eqb (tagName (tagOf f)) name)
  || EqualFold (Name f) name.

(** [findField(strct, name)]: the index of the first field that matches;
    [None] is the invalid [reflect.Value{}]. *)
Fixpoint findField {A} (fs : list (StructField * A)) (name : string) : option nat :=
  match fs with
  | [] => None
  | (f, _) :: rest =>
      if fieldMatches f name then Some O
      else option_map S (findField rest name)
  end.

(** ** Inline grammar ([inlineParser], decode.go) *)

Record inlinePair : Type := mkPair { key : string; sep : string; pvalue : string }.

Definition snoc (s : string) (c : ascii) : string := s +:+ String c EmptyString.

(** The position of [inlineParser.parse] inside its loop body. *)
Inductive parseState : Type :=
| AtPair                                  (* loop head and [skipSpace] *)
| InKey (k : string)                      (* the key loop *)
| AfterSep (k sp : string)                (* [valStart], before the test for '{' *)
| InBraces (k sp : string) (depth : nat) (v : string)
| InValue (k sp v : string).

(** [inlineParser.parse], one byte at a time.  [acc] is [pairs]. *)
Fixpoint parseFrom (input : string) (st : parseState) (acc : list inlinePair)
  : outcome (list inlinePair) :=
  match input with
  | EmptyString =>
      match st with
      | AtPair => Ok acc
      | InKey k => Err ("unexpected end after key " +:+ k)
      | AfterSep k sp => Ok (acc ++ [mkPair k sp EmptyString])
      | InBraces k sp _ v => Ok (acc ++ [mkPair k sp v])
      | InValue k sp v => Ok (acc ++ [mkPair k sp v])
      end
  | String c rest =>
      match st with
      | AtPair =>
          if Ascii.eqb c " " || Ascii.eqb c "010" then parseFrom rest AtPair acc
          else if Ascii.eqb c ":" || Ascii.eqb c "=" then
            parseFrom rest (AfterSep EmptyString (String c EmptyString)) acc
          else parseFrom rest (InKey (String c EmptyString)) acc
      | InKey k =>
          if Ascii.eqb c ":" || Ascii.eqb c "=" || Ascii.eqb c " " then
            parseFrom rest (AfterSep k (String c EmptyString)) acc
          else parseFrom rest (InKey (snoc k c)) acc
      | AfterSep k sp =>
          if Ascii.eqb c "{" then parseFrom rest (InBraces k sp 1 "{") acc
          else if Ascii.eqb c " " then
            parseFrom rest AtPair (acc ++ [mkPair k sp EmptyString])
          else parseFrom rest (InValue k sp (String c EmptyString)) acc
      | InBraces k sp depth v =>
          let depth' :=
            if Ascii.eqb c "{" then S depth
            else if Ascii.eqb c "}" then Nat.pred depth
            else depth in
          match depth' with
          | O => parseFrom rest AtPair (acc ++ [mkPair k sp (snoc v c)])
          | _ => parseFrom rest (InBraces k sp depth' (snoc v c)) acc
          end
      | InValue k sp v =>
          if Ascii.eqb c " " then parseFrom rest AtPair (acc ++ [mkPair k sp v])
          else parseFrom rest (InValue k sp (snoc v c)) acc
      end
  end.

Definition parse (input : string) : outcome (list inlinePair) :=
  parseFrom input AtPair [].

(** ** Row tokenizer ([tokenizeRow], decode.go) *)

Inductive tokState : Type :=
| Between                      (* skipping the spaces before a token *)
| Quoted (tok : string)        (* after an opening double quote *)
| Bracketed (tok : string)     (* after an opening bracket *)
| Plain (tok : string).

(** [line[i+1:end-1]] when the scan of a quoted token reaches the end of the
    line without a closing quote: the last byte is cut, and the slice
    expression panics when nothing follows the opening quote. *)
Definition cutLast (tok : string) : outcome string :=
  match tok with
  | EmptyString => Panic
  | _ => orPanic (sliceTo tok (Nat.pred (String.length tok)))
  end.

Fixpoint tokenizeFrom (line : string) (st : tokState) (acc : list string)
  : outcome (list string) :=
  match line with
  | EmptyString =>
      match st with
      | Between => Ok acc
      | Quoted tok => t ← cutLast tok; Ok (acc ++ [t])
      | Bracketed _ => Panic
      | Plain tok => Ok (acc ++ [tok])
      end
  | String c rest =>
      match st with
      | Between =>
          if Ascii.eqb c " " then tokenizeFrom rest Between acc
          else if Ascii.eqb c dquote then tokenizeFrom rest (Quoted EmptyString) acc
          else if Ascii.eqb c "[" then tokenizeFrom rest (Bracketed "[") acc
          else tokenizeFrom rest (Plain (String c EmptyString)) acc
      | Quoted tok =>
          if Ascii.eqb c "\" then
            match rest with
            | String c2 rest2 => tokenizeFrom rest2 (Quoted (snoc (snoc tok c) c2)) acc
            | EmptyString => tokenizeFrom rest (Quoted (snoc tok c)) acc
            end
          else if Ascii.eqb c dquote then tokenizeFrom rest Between (acc ++ [tok])
          else tokenizeFrom rest (Quoted (snoc tok c)) acc
      | Bracketed tok =>
          if Ascii.eqb c "]" then tokenizeFrom rest Between (acc ++ [snoc tok c])
          else tokenizeFrom rest (Bracketed (snoc tok c)) acc
      | Plain tok =>
          if Ascii.eqb c " " then tokenizeFrom rest Between (acc ++ [tok])
          else tokenizeFrom rest (Plain (snoc tok c)) acc
      end
  end.

Definition tokenizeRow (line : string) : outcome (list string) :=
  tokenizeFrom line Between [].

(** ** Deep-path resolver ([deref], [setField], [setDeepField], decode.go)

    The Go code mutates the target through [reflect]; the model returns the
    updated target together with the status of the call. *)

Inductive status : Type :=
| Done                       (* [return nil] *)
| Failed (msg : string)      (* [return fmt.Errorf(...)] *)
| Panicked                   (* run-time panic *)
| Exhausted.                 (* the model ran out of fuel; never with [setDeepField] *)

(** [deref(v)] followed by work on the result: a nil pointer is first set to
    a freshly allocated zero value, and one pointer level is followed. *)
Definition derefWith (v : value) (k : value -> value * status) : value * status :=
  match v with
  | VNil t => let '(c, r) := k (zero t) in (VPtr c, r)
  | VPtr c => let '(c', r) := k c in (VPtr c', r)
  | _ => k v
  end.

(** UTF-8 encoding of a rune; [string(rune(n))] of the conversion from an
    integer to a string, U+FFFD for what is no valid code point. *)
Definition runeString (n : Z) : string :=
  let byte (z : Z) := ascii_of_nat (Z.to_nat z) in
  let cont (z : Z) := byte (128 + z mod 64) in
  if (n <? 0) || (1114111 <? n) || ((55296 <=? n) && (n <=? 57343)) then
    String (byte 239) (String (byte 191) (String (byte 189) EmptyString))
  else if n <=? 127 then String (byte n) EmptyString
  else if n <=? 2047 then String (byte (192 + n / 64)) (String (cont n) EmptyString)
  else if n <=? 65535 then
    String (byte (224 + n / 4096)) (String (cont (n / 64)) (String (cont n) EmptyString))
  else
    String (byte (240 + n / 262144))
      (String (cont (n / 4096)) (String (cont (n / 64)) (String (cont n) EmptyString))).

(** [rVal.Type().ConvertibleTo(t)] and [rVal.Convert(t)] for the dynamic
    values of [parsePrimitive]; [None] when the conversion does not exist. *)
Definition convert (p : prim) (t : type) : option value :=
  match p, t with
  | PInt n, TInt => Some (VInt n)
  | PInt n, TString => Some (VString (runeString n))
  | PBool b, TBool => Some (VBool b)
  | PString s, TString => Some (VString s)
  | _, _ => None
  end.

Section Resolver.

(** The assignment at the last path segment, [setField] at some fuel. *)
Variable assign : value -> string -> string -> string -> value * status.

(** The loop of [setDeepField] over the segments of the path. *)
Fixpoint walk (parts : list string) (current : value) (typ valStr : string)
  : value * status :=
  match parts with
  | [] => (current, Done)
  | part :: rest =>
      derefWith current (fun cur =>
        match rest with
        | [] => assign cur part typ valStr
        | _ =>
            match cur with
            | VStruct fs =>
                match findField fs part with
                | None => (cur, Done)
                | Some i =>
                    match fs !! i with
                    | Some (f, fv) =>
                        let '(fv', r) := walk rest fv typ valStr in
                        (VStruct (<[i := (f, fv')]> fs), r)
                    | None => (cur, Done)
                    end
                end
            | _ =>
                (cur, Failed ("zoon: cannot traverse " +:+ part +:+ " in "
                                +:+ kindName (kindOf cur)))
            end
        end)
  end.

Definition setDeepFieldWith (dest : value) (path typ valStr : string) : value * status :=
  walk (Split path ".") dest typ valStr.

(** The loop over the pairs of a brace-delimited value: errors of the nested
    assignments are dropped, as in the source. *)
Fixpoint assignPairs (pairs : list inlinePair) (sub : value) : value * status :=
  match pairs with
  | [] => (sub, Done)
  | p :: rest =>
      let v := if String.eqb (sep p) "=" then ReplaceAll (pvalue p) "_" " "
               else pvalue p in
      let '(sub', r) := setDeepFieldWith sub (key p) "auto" v in
      match r with
      | Panicked => (sub', Panicked)
      | Exhausted => (sub', Exhausted)
      | _ => assignPairs rest sub'
      end
  end.

End Resolver.

(** [setField(dest, name, typ, valStr)], with fuel for the nesting of the
    brace-delimited values.  On the fragment the branch for [reflect.Map] has
    no counterpart, and every field is exported and addressable, so that
    [Set] does not panic. *)
Fixpoint setFieldFuel (fuel : nat) (dest : value) (name typ valStr : string)
  : value * status :=
  derefWith dest (fun d =>
    match d with
    | VStruct fs =>
        match findField fs name with
        | None => (d, Done)
        | Some i =>
            match fs !! i with
            | None => (d, Done)
            | Some (f, fv) =>
                let set (x : value) := VStruct (<[i := (f, x)]> fs) in
                if HasPrefix valStr "{" then
                  match slice valStr 1 (len valStr - 1) with
                  | None => (d, Panicked)
                  | Some inner =>
                      match fuel with
                      | O => (d, Exhausted)
                      | S fuel' =>
                          let pairs := match parse inner with
                                       | Ok ps => ps
                                       | _ => []
                                       end in
                          let '(sub, r) :=
                            assignPairs (setFieldFuel fuel') pairs (zero (typeOf fv)) in
                          match r with
                          | Done => (set sub, Done)
                          | _ => (d, r)
                          end
                      end
                  end
                else
                  match parsePrimitive valStr typ with
                  | PNil => (set (zero (typeOf fv)), Done)
                  | converted =>
                      match convert converted (typeOf fv) with
                      | Some x => (set x, Done)
                      | None => (d, Done)
                      end
                  end
            end
        end
    | _ => (d, Done)
    end).

(** A nested brace-delimited value is at least two bytes shorter than the
    value around it, so the length of the value bounds the nesting. *)
Definition setField (dest : value) (name typ valStr : string) : value * status :=
  setFieldFuel (String.length valStr) dest name typ valStr.

Definition setDeepField (dest : value) (path typ valStr : string) : value * status :=
  setDeepFieldWith (setFieldFuel (String.length valStr)) dest path typ valStr.

(** ** Tabular decoding ([decodeTabular], decode.go) *)

Record headerField : Type := mkHeaderField {
  hname : string;
  htyp : string;
  hval : string;
  hindexed : bool;
  hoptions : list string
}.

(** [bufio.Scanner] with the default split function [ScanLines]: the lines
    of the input without their end-of-line marker; an empty last line is no
    line.  A line of [MaxScanTokenSize] bytes or more stops the scanner
    ([Scan] returns false with [ErrTooLong], which the decoder never reads). *)
Definition MaxScanTokenSize : Z := 65536.

Definition dropCR (l : string) : string :=
  match String.rev l with
  | String "013" r => String.rev r
  | _ => l
  end.

Definition dropLastEmpty (l : list string) : list string :=
  match List.rev l with
  | EmptyString :: r => List.rev r
  | _ => l
  end.

Fixpoint scannable (l : list string) : list string :=
  match l with
  | [] => []
  | x :: rest =>
      if len x <? MaxScanTokenSize then x :: scannable rest else []
  end.

Definition scanLines (data : string) : list string :=
  map dropCR (scannable (dropLastEmpty (Split data "010"))).

(** The body of the loop over the parts of an alias line. *)
Definition aliasPart (p : string) (aliases : gmap string string)
  : outcome (gmap string string) :=
  match Index p "=" with
  | None => Ok aliases
  | Some idx =>
      alias ← orPanic (slice p 1 (Z.of_nat idx));
      prefix ← orPanic (sliceFrom p (S idx));
      alias' ← (if HasPrefix alias "%" then orPanic (sliceFrom alias 1) else Ok alias);
      Ok (<[alias' := prefix]> aliases)
  end.

Fixpoint aliasParts (parts : list string) (aliases : gmap string string)
  : outcome (gmap string string) :=
  match parts with
  | [] => Ok aliases
  | p :: rest => a ← aliasPart p aliases; aliasParts rest a
  end.

(** The first loop of [decodeTabular]: alias lines up to the header line.
    The result has the alias table, the header line and the lines left in the
    scanner; the header line is empty when the input ends before one. *)
Fixpoint scanHeader (lines : list string) (aliases : gmap string string)
  : outcome (gmap string string * string * list string) :=
  match lines with
  | [] => Ok (aliases, EmptyString, [])
  | l :: rest =>
      let line := TrimSpace l in
      if String.eqb line "" then scanHeader rest aliases
      else if HasPrefix line "%" then
        a ← aliasParts (Fields line) aliases; scanHeader rest a
      else if HasPrefix line "#" then Ok (aliases, line, rest)
      else Err "zoon: invalid format, expected header"
  end.

Record header : Type := mkHeader {
  headers : list headerField;
  constants : list headerField;
  explicitRows : Z
}.

(** The alias expansion of a header name. *)
Definition unalias (aliases : gmap string string) (name : string) : outcome string :=
  if HasPrefix name "%" then
    match Index name "." with
    | Some dotIdx =>
        aName ← orPanic (slice name 1 (Z.of_nat dotIdx));
        suffix ← orPanic (sliceFrom name (S dotIdx));
        match aliases !! aName with
        | Some prefix => Ok (prefix +:+ "." +:+ suffix)
        | None => Ok name
        end
    | None =>
        rest ← orPanic (sliceFrom name 1);
        match aliases !! rest with
        | Some prefix => Ok prefix
        | None => Ok name
        end
    end
  else Ok name.

(** The body of the loop over the parts of the header line. *)
Definition headerPart (aliases : gmap string string) (part : string) (h : header)
  : outcome header :=
  if HasPrefix part "+" then
    num ← orPanic (sliceFrom part 1);
    let '(n, ok) := Atoi num in
    Ok (if ok then mkHeader (headers h) (constants h) n else h)
  else
    let isConst := HasPrefix part "@" in
    part ← (if isConst then orPanic (sliceFrom part 1) else Ok part);
    match IndexAny part [":"; "="; "!"]%char with
    | None => Ok h
    | Some sepIdx =>
        name ← orPanic (sliceTo part sepIdx);
        typVal ← orPanic (sliceFrom part sepIdx);
        name ← unalias aliases name;
        match typVal with
        | EmptyString => Panic
        | String sp suffix =>
            if isConst then
              let hf :=
                if Ascii.eqb sp "=" then
                  mkHeaderField name "s" (ReplaceAll suffix "_" " ") false []
                else mkHeaderField name "inferred" suffix false [] in
              Ok (mkHeader (headers h) (constants h ++ [hf]) (explicitRows h))
            else
              let hf :=
                if Ascii.eqb sp "=" then
                  mkHeaderField name "s" EmptyString false (Split suffix "|")
                else if Ascii.eqb sp "!" then
                  mkHeaderField name "s" EmptyString true (Split suffix "|")
                else mkHeaderField name suffix EmptyString false [] in
              Ok (mkHeader (headers h ++ [hf]) (constants h) (explicitRows h))
        end
    end.

Fixpoint headerParts (aliases : gmap string string) (parts : list string) (h : header)
  : outcome header :=
  match parts with
  | [] => Ok h
  | p :: rest => h' ← headerPart aliases p h; headerParts aliases rest h'
  end.

(** [headerLine[2:]] panics on the one-byte header line. *)
Definition parseHeader (aliases : gmap string string) (headerLine : string)
  : outcome header :=
  body ← orPanic (sliceFrom headerLine 2);
  headerParts aliases (Fields body) (mkHeader [] [] (-1)).

(** The loop over the constants in [processRow]. *)
Fixpoint applyConstants (cs : list headerField) (newElem : value) : value * status :=
  match cs with
  | [] => (newElem, Done)
  | c :: rest =>
      let '(e, r) := setDeepField newElem (hname c) "auto" (hval c) in
      match r with
      | Done => applyConstants rest e
      | _ => (e, r)
      end
  end.

(** The lookup of an indexed-enum token in the option list. *)
Definition indexOption (h : headerField) (valStr : string) : string :=
  if hindexed h && (0 <? Z.of_nat (length (hoptions h))) then
    let '(idx, ok) := Atoi valStr in
    if ok && (0 <=? idx) && (idx <? Z.of_nat (length (hoptions h))) then
      nth (Z.to_nat idx) (hoptions h) valStr
    else valStr
  else valStr.

(** The loop over the columns in [processRow]; [vals] is what is left of the
    row tokens from [valIdx] on, [autoIncID] the counter of the decode call. *)
Fixpoint applyColumns (hs : list headerField) (vals : list string) (autoIncID : Z)
    (newElem : value) : value * Z * status :=
  match hs with
  | [] => (newElem, autoIncID, Done)
  | h :: rest =>
      let '(valStr, vals', autoIncID') :=
        if String.eqb (htyp h) "i+" then (formatInt (autoIncID + 1), vals, autoIncID + 1)
        else match vals with
             | [] => ("~"%string, vals, autoIncID)
             | v :: vs => (v, vs, autoIncID)
             end in
      if String.eqb valStr "~" then applyColumns rest vals' autoIncID' newElem
      else
        let '(e, r) := setDeepField newElem (hname h) (htyp h) (indexOption h valStr) in
        match r with
        | Done => applyColumns rest vals' autoIncID' e
        | _ => (e, autoIncID', r)
        end
  end.

(** The state of the row loop: the output slice and the counter. *)
Record rowState : Type := mkRowState { rows : list value; autoIncID : Z }.

(** [processRow(vals)] *)
Definition processRow (elemType : type) (isPtr : bool) (h : header)
    (vals : list string) (st : rowState) : rowState * status :=
  let '(e, r) := applyConstants (constants h) (zero elemType) in
  match r with
  | Done =>
      let '(e', n, r') := applyColumns (headers h) vals (autoIncID st) e in
      match r' with
      | Done => (mkRowState (rows st ++ [if isPtr then VPtr e' else e']) n, Done)
      | _ => (mkRowState (rows st) n, r')
      end
  | _ => (st, r)
  end.

(** [for i := 0; i < explicitRows; i++ { processRow(nil) }] *)
Fixpoint explicitLoop (n : nat) (elemType : type) (isPtr : bool) (h : header)
    (st : rowState) : rowState * status :=
  match n with
  | O => (st, Done)
  | S n' =>
      let '(st', r) := processRow elemType isPtr h [] st in
      match r with
      | Done => explicitLoop n' elemType isPtr h st'
      | _ => (st', r)
      end
  end.

(** The loop over the data lines. *)
Fixpoint dataLoop (lines : list string) (elemType : type) (isPtr : bool) (h : header)
    (st : rowState) : rowState * status :=
  match lines with
  | [] => (st, Done)
  | l :: rest =>
      let line := TrimSpace l in
      if String.eqb line "" then dataLoop rest elemType isPtr h st
      else
        match tokenizeRow line with
        | Ok vals =>
            let '(st', r) := processRow elemType isPtr h vals st in
            match r with
            | Done => dataLoop rest elemType isPtr h st'
            | _ => (st', r)
            end
        | _ => (st, Panicked)
        end
  end.

(** What the pointer handed to the decoder points to: a slice of elements
    or a single element. *)
Inductive target : Type :=
| SliceOf (elem : type) (items : list value)
| Single (v : value).

Definition statusOf {A} (o : outcome A) : status :=
  match o with
  | Ok _ => Done
  | Err m => Failed m
  | Panic => Panicked
  end.

Definition decodeTabular (data : string) (tgt : target) : target * status :=
  match scanHeader (scanLines data) ∅ with
  | Ok (aliases, headerLine, rest) =>
      if String.eqb headerLine "" then (tgt, Failed "zoon: missing header")
      else
        match parseHeader aliases headerLine with
        | Ok h =>
            match tgt with
            | SliceOf et _ =>
                let '(elemType, isPtr) :=
                  match et with
                  | TPtr e => (e, true)
                  | _ => (et, false)
                  end in
                let '(st, r) :=
                  if 0 <? explicitRows h then
                    explicitLoop (Z.to_nat (explicitRows h)) elemType isPtr h
                      (mkRowState [] 0)
                  else (mkRowState [] 0, Done) in
                match r with
                | Done =>
                    let '(st', r') := dataLoop rest elemType isPtr h st in
                    (SliceOf et (rows st'), r')
                | _ => (SliceOf et (rows st), r)
                end
            | Single v =>
                (tgt, Failed ("zoon: tabular format expects slice, got "
                                +:+ kindName (kindOf v)))
            end
        | o => (tgt, statusOf o)
        end
  | o => (tgt, statusOf o)
  end.

(** ** Inline decoding ([decodeInline], decode.go) *)

Fixpoint inlinePairs (pairs : list inlinePair) (tgt : value) : value * status :=
  match pairs with
  | [] => (tgt, Done)
  | p :: rest =>
      let val := if String.eqb (sep p) "=" then ReplaceAll (pvalue p) "_" " "
                 else pvalue p in
      let '(t, r) := setDeepField tgt (key p) "auto" val in
      match r with
      | Done => inlinePairs rest t
      | _ => (t, r)
      end
  end.

(** On a slice no segment can be assigned: the last segment is ignored and
    any other one is a traversal failure. *)
Fixpoint inlinePairsSlice (pairs : list inlinePair) : status :=
  match pairs with
  | [] => Done
  | p :: rest =>
      match Split (key p) "." with
      | part :: _ :: _ =>
          Failed ("zoon: cannot traverse " +:+ part +:+ " in " +:+ kindName Slice)
      | _ => inlinePairsSlice rest
      end
  end.

Definition decodeInline (data : string) (tgt : target) : target * status :=
  match tgt with
  | Single v =>
      let '(v', r) :=
        derefWith v (fun t =>
          match parse data with
          | Ok pairs => inlinePairs pairs t
          | o => (t, statusOf o)
          end) in
      (Single v', r)
  | SliceOf _ _ =>
      match parse data with
      | Ok pairs => (tgt, inlinePairsSlice pairs)
      | o => (tgt, statusOf o)
      end
  end.

(** ** Entry points of the decoder ([decode], decode.go; [Unmarshal], zoon.go) *)

(** What the caller passes as [v any]: nothing, an element value (a pointer
    to an element is the element value [VPtr]), a slice, or a pointer to a
    slice. *)
Inductive anyArg : Type :=
| UntypedNil
| AValue (v : value)
| ASlice (elem : type) (items : list value)
| APtrSlice (elem : type) (items : list value)
| ANilPtrSlice (elem : type).

Definition decodeTarget (data : string) (t : target) : target * status :=
  let data := TrimSpace data in
  if (String.length data =? 0)%nat then (t, Done)
  else
    match data with
    | String "#" _ | String "%" _ => decodeTabular data t
    | _ => decodeInline data t
    end.

Definition decode (data : string) (v : anyArg) : anyArg * status :=
  match v with
  | UntypedNil => (v, Panicked)
  | AValue (VPtr x) =>
      match decodeTarget data (Single x) with
      | (Single x', r) => (AValue (VPtr x'), r)
      | (SliceOf _ _, r) => (v, r)
      end
  | APtrSlice et items =>
      match decodeTarget data (SliceOf et items) with
      | (SliceOf et' items', r) => (APtrSlice et' items', r)
      | (Single _, r) => (v, r)
      end
  | AValue _ | ASlice _ _ | ANilPtrSlice _ =>
      (v, Failed "zoon: Unmarshal(non-pointer)")
  end.

Definition Unmarshal (data : string) (v : anyArg) : anyArg * status := decode data v.

(** ** Encoding: values to text (encode.go) *)

(** A field is left out of the encoding when its tag is ["-"]. *)
Definition excluded (f : StructField) : bool := String.eqb (tagOf f) "-".

(** The name a field is exposed under: the first part of its tag when that
    is not empty, else its declared name. *)
Definition exposedName (f : StructField) : string :=
  if String.eqb (tagName (tagOf f)) "" then Name f else tagName (tagOf f).

(** [fmt.Sprintf("%t", b)] *)
Definition formatBool (b : bool) : string := if b then "true" else "false".

(** [formatInlinePair(key, v)], given [serializeValue]. *)
Definition formatInlinePairWith (serialize : value -> string) (k : string) (v : value)
  : string :=
  match v with
  | VString _ => k +:+ "=" +:+ ReplaceAll (serialize v) " " "_"
  | VBool true => k +:+ ":y"
  | VBool false => k +:+ ":n"
  | _ => k +:+ ":" +:+ serialize v
  end.

(** [serializeValue(v)] for a valid [reflect.Value]; a struct is written by
    [encodeInline] between braces. *)
Fixpoint serializeValue (v : value) : string :=
  match v with
  | VNil _ => "~"
  | VPtr x => serializeValue x
  | VString s => ReplaceAll s " " "_"
  | VInt n => formatInt n
  | VBool b => formatBool b
  | VStruct fs =>
      "{" +:+ Join (flat_map (fun fv =>
                      if excluded (fst fv) then []
                      else [formatInlinePairWith serializeValue
                              (exposedName (fst fv)) (snd fv)]) fs) " "
          +:+ "}"
  end.

Definition formatInlinePair : string -> value -> string :=
  formatInlinePairWith serializeValue.

(** [encodeInline(val)]: the text written for a struct (a pointer is followed
    first); nothing is written for another kind. *)
Definition encodeInline (val : value) : string :=
  let val := match val with VPtr x => x | _ => val end in
  match val with
  | VStruct fs =>
      Join (flat_map (fun fv =>
              if excluded (fst fv) then []
              else [formatInlinePair (exposedName (fst fv)) (snd fv)]) fs) " "
  | _ => EmptyString
  end.

(** A cell of a flattened row: [None] is the nil interface, the invalid
    [reflect.Value]. *)
Definition cell : Type := option value.

Definition serializeCell (c : cell) : string :=
  match c with
  | None => "~"
  | Some v => serializeValue v
  end.

Definition joinKey (prefix name : string) : string :=
  if String.eqb prefix "" then name else prefix +:+ "." +:+ name.

(** [flattenValue(prefix, v, result)] *)
Fixpoint flattenValue (prefix : string) (v : value) (result : gmap string cell)
  : gmap string cell :=
  let fields :=
    fix fields (fs : list (StructField * value)) (result : gmap string cell) :=
      match fs with
      | [] => result
      | (f, fv) :: rest =>
          if excluded f then fields rest result
          else fields rest (flattenValue (joinKey prefix (exposedName f)) fv result)
      end in
  match v with
  | VNil _ => <[prefix := None]> result
  | VPtr (VStruct fs) => fields fs result
  | VPtr x => <[prefix := Some x]> result
  | VStruct fs => fields fs result
  | _ => <[prefix := Some v]> result
  end.

(** ** Tabular encoding ([encodeTabular] and its helpers, encode.go) *)

(** Go compares strings byte by byte; [sort.Strings] sorts in that order,
    which is [String.le]. *)
Definition sortStrings (l : list string) : list string := merge_sort String.le l.

(** Structural equality of types and values: [reflect.DeepEqual] on the
    fragment (a pointer is compared through its target). *)
Definition field_eqb (f g : StructField) : bool :=
  String.eqb (Name f) (Name g) && String.eqb (zoonTag f) (zoonTag g)
  && String.eqb (jsonTag f) (jsonTag g).

Fixpoint type_eqb (a b : type) : bool :=
  match a, b with
  | TBool, TBool | TInt, TInt | TString, TString => true
  | TPtr x, TPtr y => type_eqb x y
  | TStruct fs, TStruct gs =>
      (fix all (fs gs : list (StructField * type)) : bool :=
         match fs, gs with
         | [], [] => true
         | (f, x) :: fs', (g, y) :: gs' => field_eqb f g && type_eqb x y && all fs' gs'
         | _, _ => false
         end) fs gs
  | _, _ => false
  end.

Fixpoint value_eqb (a b : value) : bool :=
  match a, b with
  | VBool x, VBool y => Bool.eqb x y
  | VInt x, VInt y => x =? y
  | VString x, VString y => String.eqb x y
  | VNil x, VNil y => type_eqb x y
  | VPtr x, VPtr y => value_eqb x y
  | VStruct fs, VStruct gs =>
      (fix all (fs gs : list (StructField * value)) : bool :=
         match fs, gs with
         | [], [] => true
         | (f, x) :: fs', (g, y) :: gs' => field_eqb f g && value_eqb x y && all fs' gs'
         | _, _ => false
         end) fs gs
  | _, _ => false
  end.

(** [val == first] for two cells, with [reflect.DeepEqual] as the fallback. *)
Definition cell_eqb (a b : cell) : bool :=
  match a, b with
  | None, None => true
  | Some x, Some y => value_eqb x y
  | _, _ => false
  end.

(** [row[k]]: a missing key reads as the nil interface. *)
Definition rowGet (row : gmap string cell) (k : string) : cell :=
  default None (row !! k).

Record columnStats : Type := mkStats {
  cname : string;
  ckind : Kind;
  cvalues : list string;
  uniqueVals : gset string;
  isSeq : bool;
  indexed : bool;
  enumKeys : list string;
  isText : bool
}.

(** ** Alias detection ([detectAliases], [applyAlias]) *)

Record saving : Type := mkSaving { sprefix : string; score : Z }.

Definition scoreGe (a b : saving) : Prop := score b <= score a.

#[export] Instance scoreGe_dec a b : Decision (scoreGe a b).
Proof. unfold scoreGe. apply _. Defined.

(** Where the Go code ranges over a map or calls the unstable [sort.Slice],
    the order it meets is not determined by the program.  A schedule fixes
    these orders; [pointerText] is what [fmt.Sprintf("%v", p)] prints for a
    pointer [p]. *)
Record schedule : Type := mkSchedule {
  rangeCounts : gmap string Z -> list (string * Z);
  sortSavings : list saving -> list saving;
  rangeAliases : string -> gmap string string -> list (string * string);
  pointerText : value -> string
}.

Record admissible (σ : schedule) : Prop := mkAdmissible {
  rangeCounts_perm : forall m, rangeCounts σ m ≡ₚ map_to_list m;
  sortSavings_perm : forall l, sortSavings σ l ≡ₚ l;
  sortSavings_sorted : forall l, Sorted scoreGe (sortSavings σ l);
  rangeAliases_perm : forall n m, rangeAliases σ n m ≡ₚ map_to_list m
}.

(** The prefixes [strings.Join(parts[:i], ".")] for [i] from 1 to [len(parts)-1]. *)
Definition prefixesOf (k : string) : list string :=
  let parts := Split k "." in
  map (fun i => Join (take i parts) ".") (seq 1 (length parts - 1)).

Definition bump (counts : gmap string Z) (prefix : string) : gmap string Z :=
  <[prefix := default 0 (counts !! prefix) + 1]> counts.

Definition prefixCounts (keys : list string) : gmap string Z :=
  fold_left (fun counts k => fold_left bump (prefixesOf k) counts) keys ∅.

Definition scoreOf (prefix : string) (count : Z) : Z :=
  (len prefix - 2) * count - (len prefix + 4).

Definition savingsOf (entries : list (string * Z)) : list saving :=
  flat_map (fun pc =>
    let score := scoreOf (fst pc) (snd pc) in
    if 0 <? score then [mkSaving (fst pc) score] else []) entries.

(** [strings.ToLower(string(c))] for a byte [c]: the byte is read as a code
    point of Latin-1 and written in UTF-8. *)
Definition lowerFirst (c : ascii) : string :=
  let n := Z.of_nat (nat_of_ascii c) in
  if ((65 <=? n) && (n <=? 90)) || ((192 <=? n) && (n <=? 222) && negb (n =? 215))
  then runeString (n + 32) else runeString n.

(** [string(rune('a' + aliasIdx))] *)
Definition letter (aliasIdx : Z) : string := runeString (97 + aliasIdx).

(** The inner [for] loop; it ends after at most [26 - aliasIdx] rounds. *)
Fixpoint pickAlias (rounds : nat) (used : gset string) (candidate : string) (aliasIdx : Z)
  : string * Z :=
  if bool_decide (candidate ∉ used) then (candidate, aliasIdx)
  else if (String.length candidate =? 1)%nat then
    if 25 <? aliasIdx + 1 then (EmptyString, aliasIdx + 1)
    else match rounds with
         | O => (EmptyString, aliasIdx + 1)
         | S rounds' => pickAlias rounds' used (letter aliasIdx) (aliasIdx + 1)
         end
  else (EmptyString, aliasIdx).

Record aliasState : Type := mkAliasState {
  aliases : gmap string string;
  usedAliases : gset string;
  aliasIdx : Z
}.

(** The loop over the sorted savings. *)
Fixpoint assignAliases (savings : list saving) (st : aliasState) : outcome aliasState :=
  match savings with
  | [] => Ok st
  | s :: rest =>
      match last (Split (sprefix s) ".") with
      | Some (String c _) =>
          let '(validAlias, idx) :=
            pickAlias (Z.to_nat (26 - aliasIdx st)) (usedAliases st) (lowerFirst c)
              (aliasIdx st) in
          let st' :=
            if String.eqb validAlias "" then
              mkAliasState (aliases st) (usedAliases st) idx
            else
              mkAliasState (<[sprefix s := validAlias]> (aliases st))
                ({[validAlias]} ∪ usedAliases st) idx in
          if 10 <=? Z.of_nat (size (aliases st')) then Ok st'
          else assignAliases rest st'
      | _ => Panic
      end
  end.

Definition detectAliases (σ : schedule) (keys : list string)
  : outcome (gmap string string) :=
  st ← assignAliases (sortSavings σ (savingsOf (rangeCounts σ (prefixCounts keys))))
         (mkAliasState ∅ ∅ 0);
  Ok (aliases st).

(** [name[len(prefix):]] *)
Definition dropPrefix (name prefix : string) : string :=
  String.substring (String.length prefix) (String.length name - String.length prefix) name.

Fixpoint applyAliasIn (entries : list (string * string)) (name : string) : string :=
  match entries with
  | [] => name
  | (prefix, alias) :: rest =>
      if HasPrefix name (prefix +:+ ".") then "%" +:+ alias +:+ dropPrefix name prefix
      else if String.eqb name prefix then "%" +:+ alias
      else applyAliasIn rest name
  end.

Definition applyAlias (σ : schedule) (name : string) (aliases : gmap string string)
  : string :=
  applyAliasIn (rangeAliases σ name aliases) name.

(** A schedule to compute with: maps are met in the order of [map_to_list],
    and the savings are sorted by a stable merge sort. *)
Definition defaultSchedule : schedule :=
  mkSchedule map_to_list (merge_sort scoreGe) (fun _ m => map_to_list m)
    (fun _ => "0xc000010000"%string).

(** *** Steps 1 to 3: flattening, constants, column statistics *)

Definition allKeysOf (flattened : list (gmap string cell)) : list string :=
  sortStrings (elements (⋃ (dom <$> flattened) : gset string)).

(** The test of one key in "Identify Constants". *)
Definition isConstKey (flattened : list (gmap string cell)) (k : string) : bool :=
  let first := rowGet (default ∅ (head flattened)) k in
  forallb (fun row => cell_eqb (rowGet row k) first) flattened
  && match first with Some _ => true | None => false end.

Definition constantsOf (length : Z) (flattened : list (gmap string cell))
    (allKeys : list string) : gmap string cell :=
  if 1 <? length then
    list_to_map (map (fun k => (k, rowGet (default ∅ (head flattened)) k))
                   (filter (fun k => Is_true (isConstKey flattened k)) allKeys))
  else ∅.

Definition activeKeysOf (length : Z) (flattened : list (gmap string cell))
    (allKeys : list string) : list string :=
  if 1 <? length then filter (fun k => Is_true (negb (isConstKey flattened k))) allKeys
  else allKeys.

Definition canBeInt (k : Kind) : bool := Kind_eqb k Int.
Definition isIntKind (k : Kind) : bool := canBeInt k.
Definition isBoolKind (k : Kind) : bool := Kind_eqb k Bool.

(** One round of the loop that detects the kind of a column. *)
Definition kindStep (k : string) (acc : Kind * bool) (row : gmap string cell)
  : Kind * bool :=
  let kind :=
    match rowGet row k with
    | None | Some (VNil _) => fst acc
    | Some x =>
        if Kind_eqb (fst acc) Invalid then kindOf x
        else if Kind_eqb (fst acc) (kindOf x) then fst acc
        else String_
    end in
  (kind, snd acc || (String.eqb k "id" && canBeInt kind)).

(** [stats[k]] after the two loops of step 3. *)
Definition statsOf (flattened : list (gmap string cell)) (k : string) : columnStats :=
  let '(kind, seq) := fold_left (kindStep k) flattened (Invalid, false) in
  let values := map (fun row => serializeCell (rowGet row k)) flattened in
  mkStats k kind values (list_to_set values) seq false [] false.

(** *** Step 5: the type of a column *)

(** [val == fmt.Sprintf("%d", idx+1)] for every [idx]. *)
Fixpoint countsFrom (idx : Z) (values : list string) : bool :=
  match values with
  | [] => true
  | v :: rest => String.eqb v (formatInt (idx + 1)) && countsFrom (idx + 1) rest
  end.

Definition sumLen (l : list string) : Z := fold_left (fun n s => n + len s) l 0.

(** The type code of a column, the statistics as the header loop leaves
    them, and whether the column joins [skipIndices]. *)
Definition decideColumn (length : Z) (st : columnStats) : string * columnStats * bool :=
  if isSeq st then
    if countsFrom 0 (cvalues st) then ("i+"%string, st, true) else ("i"%string, st, false)
  else if isBoolKind (ckind st) then ("b"%string, st, false)
  else if isIntKind (ckind st) then ("i"%string, st, false)
  else
    let n := Z.of_nat (size (uniqueVals st)) in
    if (n <=? 10) && (n <? length) then
      let keys := sortStrings (filter (fun k => k ≠ "~"%string) (elements (uniqueVals st))) in
      let nkeys := Z.of_nat (List.length keys) in
      let withKeys i :=
        mkStats (cname st) (ckind st) (cvalues st) (uniqueVals st) (isSeq st) i keys
          (isText st) in
      if 3 <=? nkeys then
        let avgLen := Z.quot (sumLen keys) nkeys in
        let literalCost := avgLen * length in
        let indexCost := len (Join keys "|") + length * 2 in
        if indexCost <? literalCost then ("!" +:+ Join keys "|", withKeys true, false)
        else ("=" +:+ Join keys "|", withKeys false, false)
      else if 0 <? nkeys then ("=" +:+ Join keys "|", withKeys false, false)
      else ("s"%string, st, false)
    else
      let nvals := Z.of_nat (List.length (cvalues st)) in
      if (0 <? nvals) && (30 <? Z.quot (sumLen (cvalues st)) nvals) then
        ("t"%string,
         mkStats (cname st) (ckind st) (cvalues st) (uniqueVals st) (isSeq st)
           (indexed st) (enumKeys st) true,
         false)
      else ("s"%string, st, false).

(** The header token of a column. *)
Definition columnSpec (aliased typeCode : string) : string :=
  if HasPrefix typeCode "=" || HasPrefix typeCode "!" then aliased +:+ typeCode
  else aliased +:+ ":" +:+ typeCode.

(** The header token of a constant. *)
Definition constantSpec (aliased : string) (val : cell) : string :=
  let sVal :=
    match val with
    | Some (VBool true) => "y"%string
    | Some (VBool false) => "n"%string
    | _ => serializeCell val
    end in
  let typeCode := match val with Some (VString _) => "=" | _ => ":" end in
  "@" +:+ aliased +:+ typeCode +:+ sVal.

(** [skipIndices]: the positions of the [i+] columns among the active keys. *)
Fixpoint skipIndicesFrom (i : nat) (cols : list (string * columnStats * bool)) : list nat :=
  match cols with
  | [] => []
  | (_, _, true) :: rest => i :: skipIndicesFrom (S i) rest
  | (_, _, false) :: rest => skipIndicesFrom (S i) rest
  end.

(** The search of [i] in [skipIndices]. *)
Definition skipped (skipIndices : list nat) (i : nat) : bool :=
  existsb (Nat.eqb i) skipIndices.

(** *** Step 7: the tokens of a row *)

(** The position of the first enum key equal to [sVal], printed; [sVal]
    itself when there is none. *)
Fixpoint enumIndex (idx : Z) (enumKeys : list string) (sVal : string) : string :=
  match enumKeys with
  | [] => sVal
  | e :: rest => if String.eqb sVal e then formatInt idx else enumIndex (idx + 1) rest sVal
  end.

(** [fmt.Sprintf("%v", rawVal)] for a cell that holds no string. *)
Definition formatV (σ : schedule) (c : cell) : string :=
  match c with
  | None => "<nil>"
  | Some (VInt n) => formatInt n
  | Some (VBool b) => formatBool b
  | Some (VString s) => s
  | Some v => pointerText σ v
  end.

Definition rowToken (σ : schedule) (st : columnStats) (rawVal : cell) : string :=
  let sVal := serializeCell rawVal in
  if isBoolKind (ckind st) then
    if String.eqb sVal "true" then "1"
    else if String.eqb sVal "false" then "0"
    else sVal
  else if indexed st && (0 <? Z.of_nat (List.length (enumKeys st))) then
    enumIndex 0 (enumKeys st) sVal
  else if isText st then
    let rawStr := match rawVal with Some (VString s) => s | _ => formatV σ rawVal end in
    quote +:+ ReplaceAll rawStr dquote ("\" +:+ quote) +:+ quote
  else sVal.

Fixpoint outRowFrom (σ : schedule) (i : nat) (skipIndices : list nat)
    (cols : list (string * columnStats)) (row : gmap string cell) : list string :=
  match cols with
  | [] => []
  | (k, st) :: rest =>
      if skipped skipIndices i then outRowFrom σ (S i) skipIndices rest row
      else rowToken σ st (rowGet row k) :: outRowFrom σ (S i) skipIndices rest row
  end.

Definition newline : string := String "010" EmptyString.

(** What steps 1 to 3 compute from the slice. *)
Record table : Type := mkTable {
  tlength : Z;
  flattened : list (gmap string cell);
  tconstants : gmap string cell;
  activeKeys : list string
}.

Definition analyse (items : list value) : table :=
  let length := Z.of_nat (List.length items) in
  let flattened := map (fun item => flattenValue EmptyString item ∅) items in
  let allKeys := allKeysOf flattened in
  mkTable length flattened (constantsOf length flattened allKeys)
    (activeKeysOf length flattened allKeys).

(** The outcome of the header loop for the active keys, in their order. *)
Definition decided (t : table) : list (string * columnStats * bool) :=
  map (fun k => decideColumn (tlength t) (statsOf (flattened t) k)) (activeKeys t).

Definition skipIndices (t : table) : list nat := skipIndicesFrom 0 (decided t).

Definition allSkipped (t : table) : bool :=
  forallb (skipped (skipIndices t)) (seq 0 (List.length (activeKeys t))).

(** The alias-definition line, when there are aliases. *)
Definition aliasLines (aliases : gmap string string) : list string :=
  if 0 <? Z.of_nat (size aliases) then
    [Join (sortStrings (map (fun pa => "%" +:+ snd pa +:+ "=" +:+ fst pa)
                          (map_to_list aliases))) " "]
  else [].

Definition aliasedName (σ : schedule) (aliases : gmap string string) (k : string)
  : string :=
  ReplaceAll (applyAlias σ k aliases) " " "_".

Definition constParts (σ : schedule) (aliases : gmap string string) (t : table)
  : list string :=
  map (fun k => constantSpec (aliasedName σ aliases k)
                  (default None (tconstants t !! k)))
    (sortStrings (elements (dom (tconstants t)))).

Definition colParts (σ : schedule) (aliases : gmap string string) (t : table)
  : list string :=
  map (fun kd => columnSpec (aliasedName σ aliases (fst kd)) (fst (fst (snd kd))))
    (zip (activeKeys t) (decided t)).

Definition rowCountParts (t : table) : list string :=
  if allSkipped t && (0 <? tlength t) then ["+" +:+ formatInt (tlength t)] else [].

Definition headerLineOf (σ : schedule) (aliases : gmap string string) (t : table)
  : string :=
  Join (["#"%string] ++ constParts σ aliases t ++ colParts σ aliases t
          ++ rowCountParts t) " ".

Definition rowLine (σ : schedule) (t : table) (row : gmap string cell) : string :=
  Join (outRowFrom σ 0 (skipIndices t)
          (zip (activeKeys t) (map (fun d => snd (fst d)) (decided t))) row) " ".

(** Steps 5 to 7: the text written once the aliases are known. *)
Definition emit (σ : schedule) (aliases : gmap string string) (t : table) : string :=
  let headerBlock := Join (aliasLines aliases ++ [headerLineOf σ aliases t]) newline in
  if allSkipped t then headerBlock +:+ newline
  else
    headerBlock +:+ newline
      +:+ String.concat EmptyString
            (map (fun row => rowLine σ t row +:+ newline) (flattened t)).

(** [encodeTabular(slice)]: the bytes written to the encoder's writer; the
    only way not to return [nil] is the panic of alias detection. *)
Definition encodeTabular (σ : schedule) (items : list value) : outcome string :=
  if Z.of_nat (List.length items) =? 0 then Ok EmptyString
  else
    let t := analyse items in
    aliases ← detectAliases σ (activeKeys t);
    Ok (emit σ aliases t).

(** ** Entry points of the encoder ([encode], encode.go; [Marshal], zoon.go) *)

Definition encode (σ : schedule) (v : anyArg) : outcome string :=
  match v with
  | ASlice _ items | APtrSlice _ items => encodeTabular σ items
  | AValue (VStruct fs) | AValue (VPtr (VStruct fs)) => Ok (encodeInline (VStruct fs))
  | _ => Err "zoon: invalid format: top level must be object or array"
  end.

(** [Marshal(v)]: the bytes of the buffer, or the error of the encoder. *)
Definition Marshal (σ : schedule) (v : anyArg) : outcome string := encode σ v.

(** * Properties *)

(** ** Primitive coercion *)

(** A decimal numeral as [strconv.Atoi] reads it: an optional sign and at
    least one digit. *)
Definition isNumeral (s : string) : bool :=
  let body :=
    match s with
    | String "+" r | String "-" r => r
    | _ => s
    end in
  negb (String.eqb body "") && forallb isDigit (list_ascii_of_string body).

(** The integer a numeral denotes, read digit by digit from the left. *)
Definition numeralValue (s : string) : Z :=
  let digits (r : string) :=
    fold_left (fun acc c => acc * 10 + digitVal c) (list_ascii_of_string r) 0 in
  match s with
  | String "-" r => - digits r
  | String "+" r => digits r
  | _ => digits s
  end.

(** Saturation at the bounds of the 64-bit [int]. *)
Definition clampInt (n : Z) : Z := Z.max minInt (Z.min maxInt n).

(** What follows the optional sign. *)
Definition unsignedPart (s : string) : string :=
  match s with
  | String "+" r | String "-" r => r
  | _ => s
  end.

(** The digits a text opens with. *)
Fixpoint leadingDigits (s : string) : string :=
  match s with
  | EmptyString => EmptyString
  | String c r => if isDigit c then String c (leadingDigits r) else EmptyString
  end.

(** The number a run of digits denotes, read from the left. *)
Definition digitsValue (r : string) : Z :=
  fold_left (fun acc c => acc * 10 + digitVal c) (list_ascii_of_string r) 0.

(** The digits after the optional sign run past 64 unsigned bits before any
    byte that is no digit: the case in which [ParseUint] reports the range
    error without looking at the rest. *)
Definition overflows (s : string) : bool :=
  maxUint64 <? digitsValue (leadingDigits (unsignedPart s)).

(** The bound that comes with a range error. *)
Definition boundOf (s : string) : Z :=
  match s with
  | String "-" _ => minInt
  | _ => maxInt
  end.

(** The digits of a numeral read without a bound. *)
Fixpoint readDigits (s : string) (acc : Z) : option Z :=
  match s with
  | EmptyString => Some acc
  | String c s' =>
      if isDigit c then readDigits s' (acc * 10 + digitVal c) else None
  end.

Lemma readDigits_spec s acc :
  readDigits s acc =
    if forallb isDigit (list_ascii_of_string s)
    then Some (fold_left (fun a c => a * 10 + digitVal c) (list_ascii_of_string s) acc)
    else None.
Proof.
  revert acc. induction s as [|c s IH]; intros acc; simpl; [done|].
  destruct (isDigit c); simpl; [apply IH|done].
Qed.

Lemma digitVal_range c : isDigit c = true -> 0 <= digitVal c <= 9.
Proof.
  unfold isDigit, digitVal. intros [H1 H2]%andb_true_iff.
  apply Nat.leb_le in H1, H2. lia.
Qed.

Lemma digits_nonneg l acc :
  0 <= acc -> Forall (fun c => isDigit c = true) l ->
  0 <= fold_left (fun a c => a * 10 + digitVal c) l acc.
Proof.
  revert acc. induction l as [|c l IH]; intros acc Hacc Hl; simpl; [done|].
  inversion Hl as [|? ? Hc Hl']; subst. apply IH; [|done].
  pose proof (digitVal_range c Hc). lia.
Qed.

Lemma digits_grow l acc :
  0 <= acc -> forallb isDigit l = true ->
  acc <= fold_left (fun a c => a * 10 + digitVal c) l acc.
Proof.
  revert acc. induction l as [|c l IH]; intros acc Hacc Hl; simpl; [lia|].
  simpl in Hl. apply andb_true_iff in Hl as [Hc Hl].
  pose proof (digitVal_range c Hc).
  etransitivity; [|apply IH; [lia|done]]. lia.
Qed.

Lemma leadingDigits_digits s :
  forallb isDigit (list_ascii_of_string (leadingDigits s)) = true.
Proof.
  induction s as [|c s IH]; [done|]. simpl.
  destruct (isDigit c) eqn:E; [|done]. simpl. by rewrite E.
Qed.

Lemma leadingDigits_all s :
  forallb isDigit (list_ascii_of_string s) = true -> leadingDigits s = s.
Proof.
  induction s as [|c s IH]; [done|]. simpl.
  intros [Hc Hs]%andb_true_iff. by rewrite Hc, IH.
Qed.

(** What the loop of [ParseUint] returns, in terms of the digits read. *)
Lemma parseDigits_spec s acc :
  0 <= acc <= maxUint64 ->
  parseDigits s acc =
    if maxUint64 <?
         fold_left (fun a c => a * 10 + digitVal c)
           (list_ascii_of_string (leadingDigits s)) acc
    then RangeError
    else if forallb isDigit (list_ascii_of_string s)
    then UintOk (fold_left (fun a c => a * 10 + digitVal c) (list_ascii_of_string s) acc)
    else SyntaxError.
Proof.
  revert acc. induction s as [|c s IH]; intros acc Hacc.
  - simpl. by assert ((maxUint64 <? acc) = false) as -> by (apply Z.ltb_ge; lia).
  - cbn [parseDigits leadingDigits]. destruct (isDigit c) eqn:Hc.
    + pose proof (digitVal_range c Hc) as Hd.
      pose proof (digits_grow (list_ascii_of_string (leadingDigits s))
                    (acc * 10 + digitVal c) ltac:(lia) (leadingDigits_digits s)) as Hg.
      cbn [list_ascii_of_string fold_left forallb]. rewrite Hc. cbn [andb].
      change (maxUint64 / 10 + 1) with 1844674407370955162.
      unfold maxUint64 in *.
      destruct (1844674407370955162 <=? acc) eqn:E1.
      { apply Z.leb_le in E1.
        by assert ((2 ^ 64 - 1 <? fold_left (fun a c => a * 10 + digitVal c)
                      (list_ascii_of_string (leadingDigits s)) (acc * 10 + digitVal c))
                   = true) as -> by (apply Z.ltb_lt; lia). }
      apply Z.leb_gt in E1.
      destruct (2 ^ 64 - 1 <? acc * 10 + digitVal c) eqn:E2.
      { apply Z.ltb_lt in E2.
        by assert ((2 ^ 64 - 1 <? fold_left (fun a c => a * 10 + digitVal c)
                      (list_ascii_of_string (leadingDigits s)) (acc * 10 + digitVal c))
                   = true) as -> by (apply Z.ltb_lt; lia). }
      apply Z.ltb_ge in E2. apply IH. lia.
    + cbn [list_ascii_of_string fold_left forallb]. rewrite Hc. cbn [andb].
      by assert ((maxUint64 <? acc) = false) as -> by (apply Z.ltb_ge; lia).
Qed.

Lemma parseUint_spec s :
  parseUint s =
    if maxUint64 <? digitsValue (leadingDigits s) then RangeError
    else if negb (String.eqb s "") && forallb isDigit (list_ascii_of_string s)
    then UintOk (digitsValue s)
    else SyntaxError.
Proof.
  destruct s as [|c s]; [done|]. unfold parseUint.
  rewrite parseDigits_spec by (unfold maxUint64; lia). done.
Qed.

(** A run of digits within 64 unsigned bits is read as it is. *)
Lemma parseDigits_read s v :
  readDigits s 0 = Some v -> v <= maxUint64 -> parseDigits s 0 = UintOk v.
Proof.
  intros Hr Hv. rewrite readDigits_spec in Hr.
  destruct (forallb isDigit (list_ascii_of_string s)) eqn:Hd; [|done].
  injection Hr as Hr. rewrite parseDigits_spec by (unfold maxUint64; lia).
  rewrite (leadingDigits_all s Hd), Hd, Hr.
  by assert ((maxUint64 <? v) = false) as -> by (apply Z.ltb_ge; lia).
Qed.

(** What [Atoi] returns, in terms of the numeral read. *)
Lemma Atoi_spec s :
  Atoi s =
    if isNumeral s then
      (clampInt (numeralValue s),
       bool_decide (minInt <= numeralValue s <= maxInt))
    else if overflows s then (boundOf s, false)
    else (0, false).
Proof.
  assert (Hgen : forall neg body,
    match parseUint body with
    | SyntaxError => (0, false)
    | RangeError => (if neg then minInt else maxInt, false)
    | UintOk un =>
        if negb neg && (2 ^ 63 <=? un) then (maxInt, false)
        else if neg && (2 ^ 63 <? un) then (minInt, false)
        else (if neg then - un else un, true)
    end =
    if negb (String.eqb body "") && forallb isDigit (list_ascii_of_string body) then
      let v := fold_left (fun a c => a * 10 + digitVal c) (list_ascii_of_string body) 0 in
      let n := if neg then - v else v in
      (clampInt n, bool_decide (minInt <= n <= maxInt))
    else if maxUint64 <? fold_left (fun a c => a * 10 + digitVal c)
                           (list_ascii_of_string (leadingDigits body)) 0
    then (if neg then minInt else maxInt, false)
    else (0, false)).
  { intros neg body. rewrite parseUint_spec. unfold digitsValue.
    destruct (negb (String.eqb body "")) eqn:Hne; simpl;
      [|by destruct (maxUint64 <? _)].
    destruct (forallb isDigit (list_ascii_of_string body)) eqn:Hd;
      [|by destruct (maxUint64 <? _)].
    rewrite (leadingDigits_all body Hd).
    assert (0 <= fold_left (fun a c => a * 10 + digitVal c) (list_ascii_of_string body) 0)
      as Hpos.
    { apply digits_nonneg; [lia|]. apply Forall_forall. intros c Hc.
      rewrite forallb_forall in Hd. apply Hd. by apply list_elem_of_In. }
    set (v := fold_left _ _ _) in *. unfold clampInt, maxUint64, maxInt, minInt.
    destruct (2 ^ 64 - 1 <? v) eqn:Hov.
    { apply Z.ltb_lt in Hov. destruct neg; simpl.
      - f_equal; [lia|]. rewrite bool_decide_eq_false_2; [done|lia].
      - f_equal; [lia|]. rewrite bool_decide_eq_false_2; [done|lia]. }
    destruct neg; simpl.
    - destruct (2 ^ 63 <? v) eqn:Hlt.
      + apply Z.ltb_lt in Hlt. f_equal; [lia|].
        rewrite bool_decide_eq_false_2; [done|lia].
      + apply Z.ltb_ge in Hlt. f_equal; [lia|].
        rewrite bool_decide_eq_true_2; [done|lia].
    - destruct (2 ^ 63 <=? v) eqn:Hle.
      + apply Z.leb_le in Hle. f_equal; [lia|].
        rewrite bool_decide_eq_false_2; [done|lia].
      + apply Z.leb_gt in Hle. f_equal; [lia|].
        rewrite bool_decide_eq_true_2; [done|lia]. }
  unfold Atoi, isNumeral, numeralValue, overflows, boundOf, unsignedPart, digitsValue.
  destruct s as [|c r]; [done|].
  destruct (ascii_dec c "+") as [->|Hp]; [apply (Hgen false r)|].
  destruct (ascii_dec c "-") as [->|Hm]; [apply (Hgen true r)|].
  assert (E : forall (A : Type) (x y z : A),
    match c with
    | "+"%char => x
    | "-"%char => y
    | _ => z
    end = z).
  { intros A x y z.
    destruct c as [[] [] [] [] [] [] [] []]; try reflexivity; congruence. }
  assert (E' : match c with
               | "-"%char => minInt
               | _ => maxInt
               end = maxInt).
  { destruct c as [[] [] [] [] [] [] [] []]; try reflexivity; congruence. }
  rewrite !E, E'. apply (Hgen false (String c r)).
Qed.

(** The replacement of the underscores, byte by byte. *)
Lemma ReplaceAll_byte s (old new : ascii) :
  ReplaceAll s old (String new EmptyString) =
    string_of_list_ascii
      (map (fun c => if Ascii.eqb c old then new else c) (list_ascii_of_string s)).
Proof.
  induction s as [|c s IH]; simpl; [done|].
  rewrite IH. by destruct (Ascii.eqb c old).
Qed.

(** C3, as the claim has it, fails on a numeral beyond the range of [int]:
    [Atoi] reports an error for it, and the value kept is the bound. *)
Lemma parsePrimitive_unparsable_counterexample :
  ~ (forall s typ : string,
       typ = "i"%string \/ typ = "i+"%string -> s <> "~"%string ->
       snd (Atoi s) = false -> parsePrimitive s typ = PInt 0).
Proof.
  intros H.
  specialize (H "99999999999999999999"%string "i"%string (or_introl eq_refl)).
  discriminate H; [discriminate | reflexivity].
Qed.

(** C3 (amended): [~] gives Null under every hint; under [i] and [i+] a
    numeral gives its value saturated at the bounds of [int], a token that is
    no numeral but whose digits after the optional sign run past 64 unsigned
    bits before the first byte that is no digit gives the bound of [int] on
    the side of its sign, and any other token gives 0; under [b] the result
    is true exactly for [1], [y] and [true]; under [auto] the order is
    [y]/[n], then a numeral within range, then [true]/[false], then the
    string with each underscore turned into a space. *)
Theorem parsePrimitive_spec (s typ : string) :
  parsePrimitive "~" typ = PNil /\
  (s <> "~"%string ->
   (typ = "i"%string \/ typ = "i+"%string ->
    parsePrimitive s typ =
      PInt (if isNumeral s then clampInt (numeralValue s)
            else if overflows s then boundOf s
            else 0)) /\
   (typ = "b"%string ->
    parsePrimitive s typ = PBool (bool_decide (s ∈ ["1"; "y"; "true"]%string))) /\
   (typ = "auto"%string ->
    parsePrimitive s typ =
      if bool_decide (s = "y"%string) then PBool true
      else if bool_decide (s = "n"%string) then PBool false
      else if isNumeral s && bool_decide (minInt <= numeralValue s <= maxInt)
           then PInt (numeralValue s)
      else if bool_decide (s = "true"%string) then PBool true
      else if bool_decide (s = "false"%string) then PBool false
      else PString (string_of_list_ascii
                      (map (fun c => if Ascii.eqb c "_" then " "%char else c)
                         (list_ascii_of_string s))))).
Proof.
  split; [done|]. intros Hs. unfold parsePrimitive.
  apply String.eqb_neq in Hs. rewrite Hs.
  split; [|split].
  - intros [-> | ->]; simpl; rewrite Atoi_spec;
      (destruct (isNumeral s); [done|]; by destruct (overflows s)).
  - intros ->. simpl. f_equal.
    destruct (String.eqb s "1") eqn:E1; [apply String.eqb_eq in E1 as ->; done|].
    destruct (String.eqb s "y") eqn:E2; [apply String.eqb_eq in E2 as ->; done|].
    destruct (String.eqb s "true") eqn:E3; [apply String.eqb_eq in E3 as ->; done|].
    apply String.eqb_neq in E1, E2, E3. simpl. symmetry.
    apply bool_decide_eq_false_2. rewrite !elem_of_cons, elem_of_nil. tauto.
  - intros ->. simpl.
    destruct (String.eqb s "y") eqn:E1.
    { apply String.eqb_eq in E1 as ->. done. }
    apply String.eqb_neq in E1. rewrite (bool_decide_eq_false_2 _ E1).
    destruct (String.eqb s "n") eqn:E2.
    { apply String.eqb_eq in E2 as ->. done. }
    apply String.eqb_neq in E2. rewrite (bool_decide_eq_false_2 _ E2). simpl.
    rewrite Atoi_spec.
    destruct (isNumeral s) eqn:En; simpl.
    + destruct (bool_decide (minInt <= numeralValue s <= maxInt)) eqn:Hr; simpl.
      * apply bool_decide_eq_true_1 in Hr. unfold clampInt. f_equal. lia.
      * destruct (String.eqb s "true") eqn:E3.
        { apply String.eqb_eq in E3 as ->. done. }
        destruct (String.eqb s "false") eqn:E4.
        { apply String.eqb_eq in E4 as ->. done. }
        apply String.eqb_neq in E3, E4.
        rewrite (bool_decide_eq_false_2 _ E3), (bool_decide_eq_false_2 _ E4).
        simpl. by rewrite ReplaceAll_byte.
    + assert (snd (if overflows s then (boundOf s, false) else (0, false)) = false) as ->
        by (by destruct (overflows s)).
      destruct (String.eqb s "true") eqn:E3.
      { apply String.eqb_eq in E3 as ->. done. }
      destruct (String.eqb s "false") eqn:E4.
      { apply String.eqb_eq in E4 as ->. done. }
      apply String.eqb_neq in E3, E4.
      rewrite (bool_decide_eq_false_2 _ E3), (bool_decide_eq_false_2 _ E4).
      simpl. by rewrite ReplaceAll_byte.
Qed.

Lemma parsePrimitive_spec_witness :
  parsePrimitive "600" "i" = PInt 600 /\
  parsePrimitive "99999999999999999999x" "i" = PInt 9223372036854775807 /\
  parsePrimitive "true" "b" = PBool true /\
  parsePrimitive "a_b" "auto" = PString "a b".
Proof.
  destruct (parsePrimitive_spec "600" "i") as [_ H1].
  destruct (H1 ltac:(discriminate)) as (Hi & _ & _).
  destruct (parsePrimitive_spec "99999999999999999999x" "i") as [_ H4].
  destruct (H4 ltac:(discriminate)) as (Ho & _ & _).
  destruct (parsePrimitive_spec "true" "b") as [_ H2].
  destruct (H2 ltac:(discriminate)) as (_ & Hb & _).
  destruct (parsePrimitive_spec "a_b" "auto") as [_ H3].
  destruct (H3 ltac:(discriminate)) as (_ & _ & Ha).
  split; [|split; [|split]].
  - rewrite (Hi (or_introl eq_refl)). reflexivity.
  - rewrite (Ho (or_introl eq_refl)). reflexivity.
  - rewrite (Hb eq_refl). reflexivity.
  - rewrite (Ha eq_refl). reflexivity.
Defined.

(** ** Field lookup and unknown names *)

(** The test the lookup applies to one field: the tag, compared exactly,
    then the declared name, compared up to case. *)
Definition tagThenName (f : StructField) (name : string) : Prop :=
  (tagOf f <> EmptyString /\ tagName (tagOf f) = name)
  \/ foldCase (Name f) = foldCase name.

Lemma fieldMatches_spec f name : fieldMatches f name = true <-> tagThenName f name.
Proof.
  unfold fieldMatches, tagThenName, EqualFold.
  rewrite orb_true_iff, andb_true_iff, negb_true_iff, !String.eqb_eq, String.eqb_neq.
  done.
Qed.

Lemma findField_Some {A} (fs : list (StructField * A)) name i :
  findField fs name = Some i <->
  (exists f v, fs !! i = Some (f, v) /\ tagThenName f name) /\
  (forall j f v, (j < i)%nat -> fs !! j = Some (f, v) -> ~ tagThenName f name).
Proof.
  revert i. induction fs as [|[f v] fs IH]; intros i; simpl.
  - split; [done|]. intros [(f & v & H & _) _]. done.
  - destruct (fieldMatches f name) eqn:E.
    + split.
      * intros [= <-]. split.
        -- exists f, v. split; [done|]. by apply fieldMatches_spec.
        -- intros j ? ? Hj. lia.
      * intros [_ Hlt]. destruct i as [|i]; [done|].
        exfalso. apply (Hlt O f v); [lia|done|]. by apply fieldMatches_spec.
    + assert (~ tagThenName f name) as Hno.
      { rewrite <- fieldMatches_spec, E. done. }
      destruct (findField fs name) as [k|] eqn:Ek; simpl.
      * split.
        -- intros [= <-]. destruct (proj1 (IH k) eq_refl) as [Hex Hlt]. split; [done|].
           intros [|j] f' v' Hj Hl; simpl in Hl.
           ++ by injection Hl as <- <-.
           ++ apply (Hlt j f' v'); [lia|done].
        -- intros [(f' & v' & Hl & Hm) Hlt]. destruct i as [|i]; simpl in Hl.
           ++ by injection Hl as <- <-.
           ++ f_equal. symmetry. assert (Some k = Some i) as [= ->]; [|done].
              apply IH. split; [by exists f', v'|].
              intros j f'' v'' Hj Hl'. apply (Hlt (S j) f'' v''); [lia|done].
      * split; [done|]. intros [(f' & v' & Hl & Hm) Hlt].
        destruct i as [|i]; simpl in Hl.
        -- by injection Hl as <- <-.
        -- assert (None = Some i) as Hbad; [|done].
           apply IH. split; [by exists f', v'|].
           intros j f'' v'' Hj Hl'. apply (Hlt (S j) f'' v''); [lia|done].
Qed.

Lemma findField_None {A} (fs : list (StructField * A)) name :
  findField fs name = None <->
  (forall f v, (f, v) ∈ fs -> ~ tagThenName f name).
Proof.
  induction fs as [|[f v] fs IH]; simpl.
  - split; [|done]. intros _ ? ? H. by apply elem_of_nil in H.
  - destruct (fieldMatches f name) eqn:E.
    + split; [done|]. intros H. exfalso. apply (H f v); [left|].
      by apply fieldMatches_spec.
    + assert (~ tagThenName f name) as Hno.
      { rewrite <- fieldMatches_spec, E. done. }
      destruct (findField fs name) as [k|]; simpl.
      * split; [done|]. intros H.
        assert (Some k = None) as Hbad; [|done].
        apply IH. intros f' v' Hin. apply (H f' v'). by right.
      * split; [|done]. intros _ f' v' [[= -> ->]|Hin]%elem_of_cons; [done|].
        by apply (proj1 IH eq_refl f' v').
Qed.

(** Folding is blind to the case of ASCII letters. *)
Definition swapCase (c : ascii) : ascii :=
  let n := nat_of_ascii c in
  if (65 <=? n)%nat && (n <=? 90)%nat then ascii_of_nat (n + 32)
  else if (97 <=? n)%nat && (n <=? 122)%nat then ascii_of_nat (n - 32)
  else c.

Definition isAscii (s : string) : bool :=
  forallb (fun c => (nat_of_ascii c <? 128)%nat) (list_ascii_of_string s).

Lemma lowerByte_swapCase c : lowerByte (swapCase c) = lowerByte c.
Proof. destruct c as [[] [] [] [] [] [] [] []]; reflexivity. Qed.

Lemma foldCase_ascii s :
  isAscii s = true ->
  foldCase s = string_of_list_ascii (map lowerByte (list_ascii_of_string s)).
Proof.
  induction s as [|c s IH]; [done|]. unfold isAscii. simpl.
  intros [Hc Hs]%andb_true_iff. fold (isAscii s) in Hs. rewrite <- (IH Hs).
  destruct c as [[] [] [] [] [] [] [] []]; try reflexivity; done.
Qed.

(** A missing field ends [setDeepField] with [nil] and no change. *)
Lemma setDeepField_unknown fs path typ valStr :
  findField fs (hd EmptyString (Split path ".")) = None ->
  setDeepField (VStruct fs) path typ valStr = (VStruct fs, Done).
Proof.
  unfold setDeepField, setDeepFieldWith.
  destruct (Split path ".") as [|part rest]; [done|]. simpl. intros Hno.
  destruct rest as [|part2 rest].
  - destruct (String.length valStr); simpl; by rewrite Hno.
  - by rewrite Hno.
Qed.

(** C4, as the claim has it, fails on the tag: a name that differs from the
    tag of a field only by case does not resolve to that field. *)
Lemma findField_tag_case_counterexample :
  ~ (forall (fs : list (StructField * type)) (f : StructField) (t : type) (name : string),
       fs = [(f, t)] ->
       EqualFold (tagName (tagOf f)) name = true \/ EqualFold (Name f) name = true ->
       findField fs name = Some O).
Proof.
  intros H.
  specialize (H [(mkField "Name" "n" "", TString)] (mkField "Name" "n" "") TString
                "N"%string eq_refl (or_introl eq_refl)).
  discriminate H.
Qed.

(** The declared names, or the name looked up, are ASCII: the case in which
    the folding above is the one of [strings.EqualFold]. *)
Definition asciiLookup (fs : list (StructField * value)) (name : string) : Prop :=
  isAscii name = true \/ Forall (fun fv => isAscii (Name (fst fv)) = true) fs.

(** C4 (amended): when the declared names of the record, or the name looked
    up, are ASCII, the lookup goes through the fields in declaration order
    and takes the first one whose tag is exactly the name or whose declared
    name equals the name up to the case of the ASCII letters (the tag is
    compared with its case, the declared name without; the Kelvin sign and
    the long s count as k and s); so a declared ASCII name is found under
    the name with the case of every letter swapped; and when the first
    segment of a path matches no field of the record, the assignment returns
    without an error and leaves the record as it was. *)
Theorem findField_first_match (fs : list (StructField * value)) (path typ valStr : string) :
  let name := hd EmptyString (Split path ".") in
  (asciiLookup fs name ->
   forall i,
     findField fs name = Some i <->
     (exists f v, fs !! i = Some (f, v) /\ tagThenName f name) /\
     (forall j f v, (j < i)%nat -> fs !! j = Some (f, v) -> ~ tagThenName f name)) /\
  (forall f v, (f, v) ∈ fs -> isAscii (Name f) = true ->
     findField fs (string_of_list_ascii (map swapCase (list_ascii_of_string (Name f))))
       <> None) /\
  (asciiLookup fs name ->
   (forall f v, (f, v) ∈ fs -> ~ tagThenName f name) ->
   setDeepField (VStruct fs) path typ valStr = (VStruct fs, Done)).
Proof.
  intros name. split; [|split].
  - intros _ i. apply findField_Some.
  - intros f v Hin Hascii Hnone.
    apply (proj1 (findField_None _ _) Hnone f v Hin). right.
    rewrite (foldCase_ascii _ Hascii).
    rewrite foldCase_ascii.
    + rewrite list_ascii_of_string_of_list_ascii, map_map. f_equal.
      apply map_ext. intros c. by rewrite lowerByte_swapCase.
    + unfold isAscii in *. rewrite list_ascii_of_string_of_list_ascii.
      rewrite forallb_forall in Hascii. apply forallb_forall.
      intros c [c0 [<- Hc0]]%in_map_iff. specialize (Hascii c0 Hc0).
      revert Hascii. clear.
      destruct c0 as [[] [] [] [] [] [] [] []]; try reflexivity; done.
  - intros _ Hno. apply setDeepField_unknown. by apply findField_None.
Qed.

Definition itemFields : list (StructField * value) :=
  [(mkField "Name" "n" "", VString "x"); (mkField "Count" "c" "", VInt 7)].

Lemma findField_first_match_witness :
  findField itemFields "count" = Some 1%nat /\
  setDeepField (VStruct itemFields) "price.amount" "i" "3" = (VStruct itemFields, Done).
Proof.
  destruct (findField_first_match itemFields "count" "i" "3") as (H1 & _ & _).
  destruct (findField_first_match itemFields "price.amount" "i" "3") as (_ & _ & H3).
  split.
  - apply H1; [left; reflexivity|]. split.
    + exists (mkField "Count" "c" ""), (VInt 7). split; [reflexivity|]. right. reflexivity.
    + intros [|[|j]] f v Hj Hl; [|lia|lia].
      injection Hl as <- <-. intros [[_ Ht]|Hn]; discriminate.
  - apply H3; [left; reflexivity|]. intros f v Hin [[_ Ht]|Hn];
      repeat (apply elem_of_cons in Hin as [[= -> ->]|Hin]; [discriminate|]);
      by apply elem_of_nil in Hin.
Defined.

(** ** Empty inputs *)

(** C9: the encoding of an empty slice, of whatever element type and whether
    passed by value or through a pointer, succeeds and writes no byte. *)
Theorem Marshal_empty_slice (σ : schedule) (elem : type) :
  Marshal σ (ASlice elem []) = Ok EmptyString /\
  Marshal σ (APtrSlice elem []) = Ok EmptyString.
Proof. split; reflexivity. Qed.

(** A text made of white-space runes only. *)
Inductive blank : string -> Prop :=
| blank_empty : blank EmptyString
| blank_rune r s : r ∈ spaceRunes -> blank s -> blank (r +:+ s).

Lemma trimLeft_rune r s :
  r ∈ spaceRunes -> trimWith spaceWidth (r +:+ s) 0 = trimWith spaceWidth s 0.
Proof.
  intros Hr%list_elem_of_In. vm_compute in Hr.
  repeat (destruct Hr as [<-|Hr]; [reflexivity|]). destruct Hr.
Qed.

Lemma TrimSpace_blank s : blank s -> TrimSpace s = EmptyString.
Proof.
  intros Hs. unfold TrimSpace.
  assert (trimWith spaceWidth s 0 = EmptyString) as ->; [|reflexivity].
  induction Hs as [|r s Hr Hs IH]; [reflexivity|].
  by rewrite trimLeft_rune.
Qed.

(** C10: on an input that is empty or made of white space only, the decoder
    returns no error and leaves what the pointer points to as it was, be it
    an element or a slice. *)
Theorem decode_blank_input (data : string) :
  blank data ->
  (forall x, decode data (AValue (VPtr x)) = (AValue (VPtr x), Done)) /\
  (forall elem items, decode data (APtrSlice elem items) = (APtrSlice elem items, Done)).
Proof.
  intros Hb. unfold decode, decodeTarget. rewrite (TrimSpace_blank _ Hb). done.
Qed.

Lemma decode_blank_input_witness :
  decode (String " " (String "010" (String "009" EmptyString)))
    (APtrSlice TInt [VInt 4]) = (APtrSlice TInt [VInt 4], Done).
Proof.
  apply (decode_blank_input (String " " (String "010" (String "009" EmptyString)))).
  apply (blank_rune " "); [apply list_elem_of_In; vm_compute; tauto|].
  apply (blank_rune (String "010" EmptyString)); [apply list_elem_of_In; vm_compute; tauto|].
  apply (blank_rune (String "009" EmptyString)); [apply list_elem_of_In; vm_compute; tauto|].
  apply blank_empty.
Defined.

(** ** Schedules *)

Lemma defaultSchedule_admissible : admissible defaultSchedule.
Proof.
  assert (Total scoreGe) as Htot.
  { intros a b. unfold scoreGe. lia. }
  split; simpl.
  - done.
  - intros l. apply merge_sort_Permutation.
  - intros l. apply (Sorted_merge_sort scoreGe).
  - done.
Qed.

(** A key without a dot has no prefix to alias. *)
Definition dotFree (k : string) : Prop := Index k "." = None.

Lemma Split_no_sep s c : Index s c = None -> Split s c = [s].
Proof.
  unfold Index. induction s as [|a s IH]; simpl; [done|].
  rewrite orb_false_r. destruct (Ascii.eqb a c); [done|].
  destruct (IndexAny s [c]); [done|]. intros _. by rewrite IH.
Qed.

Lemma prefixCounts_dotFree keys : Forall dotFree keys -> prefixCounts keys = ∅.
Proof.
  intros Hkeys. unfold prefixCounts.
  assert (forall m : gmap string Z,
    fold_left (fun counts k => fold_left bump (prefixesOf k) counts) keys m = m) as H;
    [|apply H].
  induction Hkeys as [|k keys Hk _ IH]; intros m; simpl; [done|].
  unfold prefixesOf. rewrite (Split_no_sep _ _ Hk). simpl. apply IH.
Qed.

Lemma detectAliases_dotFree σ keys :
  admissible σ -> Forall dotFree keys -> detectAliases σ keys = Ok ∅.
Proof.
  intros Hσ Hkeys. unfold detectAliases. rewrite (prefixCounts_dotFree _ Hkeys).
  pose proof (rangeCounts_perm σ Hσ ∅) as H1. rewrite map_to_list_empty in H1.
  apply Permutation_nil_r in H1. rewrite H1. simpl.
  pose proof (sortSavings_perm σ Hσ []) as H2.
  apply Permutation_nil_r in H2. rewrite H2. done.
Qed.

Lemma applyAlias_empty σ k : admissible σ -> applyAlias σ k ∅ = k.
Proof.
  intros Hσ. unfold applyAlias.
  pose proof (rangeAliases_perm σ Hσ k ∅) as H. rewrite map_to_list_empty in H.
  apply Permutation_nil_r in H. by rewrite H.
Qed.

(** A cell that is nil or holds a boolean, an integer or a string; [fmt]
    never prints an address for it. *)
Definition plainCell (c : cell) : bool :=
  match c with
  | None | Some (VBool _) | Some (VInt _) | Some (VString _) => true
  | _ => false
  end.

Definition plainRows (rows : list (gmap string cell)) : bool :=
  forallb (fun row => forallb (fun kc => plainCell (snd kc)) (map_to_list row)) rows.

Lemma plainRows_get rows row k :
  plainRows rows = true -> row ∈ rows -> plainCell (rowGet row k) = true.
Proof.
  unfold plainRows. rewrite forallb_forall. intros H Hin.
  specialize (H row (proj1 (list_elem_of_In _ _) Hin)). rewrite forallb_forall in H.
  unfold rowGet. destruct (row !! k) as [c|] eqn:E; [|done].
  apply (H (k, c)). apply list_elem_of_In. by apply elem_of_map_to_list.
Qed.

Lemma rowToken_schedule σ1 σ2 st c :
  plainCell c = true -> rowToken σ1 st c = rowToken σ2 st c.
Proof.
  intros Hc. unfold rowToken.
  destruct c as [[]|]; try done; simpl; repeat case_match; done.
Qed.

Lemma outRowFrom_schedule σ1 σ2 i skips cols row :
  (forall k, plainCell (rowGet row k) = true) ->
  outRowFrom σ1 i skips cols row = outRowFrom σ2 i skips cols row.
Proof.
  intros Hrow. revert i. induction cols as [|[k st] cols IH]; intros i; simpl; [done|].
  rewrite IH. destruct (skipped skips i); [done|].
  f_equal. by apply rowToken_schedule.
Qed.

(** Without aliases and without pointers in the cells, the text does not
    depend on the schedule. *)
Lemma emit_schedule σ t :
  admissible σ -> plainRows (flattened t) = true ->
  emit σ ∅ t = emit defaultSchedule ∅ t.
Proof.
  intros Hσ Hplain. unfold emit.
  assert (headerLineOf σ ∅ t = headerLineOf defaultSchedule ∅ t) as ->.
  { unfold headerLineOf, constParts, colParts, aliasedName.
    do 3 f_equal.
    - apply map_ext. intros k. by rewrite !applyAlias_empty
        by auto using defaultSchedule_admissible.
    - f_equal. apply map_ext. intros k. by rewrite !applyAlias_empty
        by auto using defaultSchedule_admissible. }
  destruct (allSkipped t); [done|]. do 3 f_equal.
  apply map_ext_in. intros row Hin. f_equal. unfold rowLine. f_equal.
  apply outRowFrom_schedule. intros k.
  apply (plainRows_get (flattened t)); [done|]. by apply list_elem_of_In.
Qed.

Lemma encodeTabular_schedule σ items :
  admissible σ ->
  Forall dotFree (activeKeys (analyse items)) ->
  plainRows (flattened (analyse items)) = true ->
  encodeTabular σ items = encodeTabular defaultSchedule items.
Proof.
  intros Hσ Hkeys Hplain. unfold encodeTabular.
  destruct (_ =? 0); [done|].
  rewrite !detectAliases_dotFree by auto using defaultSchedule_admissible.
  simpl. f_equal. by apply emit_schedule.
Qed.

(** ** The canonical example *)

Definition userFields : list StructField :=
  [mkField "ID" "id" ""; mkField "Name" "name" ""; mkField "Role" "role" "";
   mkField "Active" "active" ""].

Definition userType : type := TStruct (zip userFields [TInt; TString; TString; TBool]).

Definition user (id : Z) (name role : string) (active : bool) : value :=
  VStruct (zip userFields [VInt id; VString name; VString role; VBool active]).

Definition users : list value :=
  [user 1 "Alice" "Admin" true; user 2 "Bob" "User" true; user 3 "Carol" "User" false].

Definition usersText : string :=
  "# active:b id:i+ name:s role=Admin|User" +:+ newline
  +:+ "1 Alice Admin" +:+ newline
  +:+ "1 Bob User" +:+ newline
  +:+ "0 Carol User" +:+ newline.

(** C2: under every schedule the three users are written as the header
    [# active:b id:i+ name:s role=Admin|User] and the rows [1 Alice Admin],
    [1 Bob User], [0 Carol User], each line ended by a newline. *)
Theorem Marshal_users (σ : schedule) :
  admissible σ -> Marshal σ (ASlice userType users) = Ok usersText.
Proof.
  intros Hσ. unfold Marshal, encode.
  rewrite encodeTabular_schedule; [vm_compute; reflexivity|done| |vm_compute; reflexivity].
  assert (activeKeys (analyse users) = ["active"; "id"; "name"; "role"]%string) as ->
    by (vm_compute; reflexivity).
  repeat constructor.
Qed.

Lemma Marshal_users_witness : Marshal defaultSchedule (ASlice userType users) = Ok usersText.
Proof. apply (Marshal_users defaultSchedule), defaultSchedule_admissible. Defined.

(** ** Absent optionals *)

Definition noteField : StructField := mkField "Note" "note" "".

Definition longNote : string :=
  "the quick brown fox jumps over the lazy dog near the river bank".

(** Two rows of a record with one optional string: a long text and nothing. *)
Definition notes : list value :=
  [VStruct [(noteField, VPtr (VString longNote))];
   VStruct [(noteField, VNil TString)]].

(** C6 (defect in the code): the row of the absent optional is written as
    the quoted text [<nil>], not as [~], when the column is a text column. *)
Theorem encodeTabular_nil_in_text_column (σ : schedule) :
  admissible σ ->
  Marshal σ (ASlice (TStruct [(noteField, TPtr TString)]) notes) =
    Ok ("# note:t" +:+ newline
        +:+ quote +:+ longNote +:+ quote +:+ newline
        +:+ quote +:+ "<nil>" +:+ quote +:+ newline).
Proof.
  intros Hσ. unfold Marshal, encode.
  rewrite encodeTabular_schedule; [vm_compute; reflexivity|done| |vm_compute; reflexivity].
  assert (activeKeys (analyse notes) = ["note"]%string) as -> by (vm_compute; reflexivity).
  repeat constructor.
Qed.

Lemma encodeTabular_nil_in_text_column_witness :
  Marshal defaultSchedule (ASlice (TStruct [(noteField, TPtr TString)]) notes) =
    Ok ("# note:t" +:+ newline
        +:+ quote +:+ longNote +:+ quote +:+ newline
        +:+ quote +:+ "<nil>" +:+ quote +:+ newline).
Proof.
  apply (encodeTabular_nil_in_text_column defaultSchedule), defaultSchedule_admissible.
Defined.

(** ** Decimal text of integers *)

Definition allDigits (s : string) : bool := forallb isDigit (list_ascii_of_string s).

Lemma digitChar_spec n :
  0 <= n ->
  isDigit (ascii_of_nat (Z.to_nat (48 + n mod 10))) = true /\
  digitVal (ascii_of_nat (Z.to_nat (48 + n mod 10))) = n mod 10.
Proof.
  intros Hn. pose proof (Z.mod_pos_bound n 10 ltac:(lia)) as Hm.
  unfold isDigit, digitVal. rewrite nat_ascii_embedding by lia.
  split; [|lia]. apply andb_true_iff. split; apply Nat.leb_le; lia.
Qed.

Lemma digitsOf_allDigits fuel n acc :
  0 <= n -> allDigits acc = true -> allDigits (digitsOf fuel n acc) = true.
Proof.
  revert n acc. induction fuel as [|fuel IH]; intros n acc Hn Hacc; simpl; [done|].
  assert (allDigits (String (ascii_of_nat (Z.to_nat (48 + n mod 10))) acc) = true) as H.
  { unfold allDigits in *. simpl. rewrite Hacc.
    by rewrite (proj1 (digitChar_spec n Hn)). }
  destruct (n <? 10); [done|]. apply IH; [|done]. apply Z.div_pos; lia.
Qed.

Lemma digitsOf_nonempty fuel n acc : digitsOf (S fuel) n acc <> EmptyString.
Proof.
  revert n acc. induction fuel as [|fuel IH]; intros n acc; simpl.
  - by destruct (n <? 10).
  - destruct (n <? 10); [done|]. apply IH.
Qed.

Lemma digitsOf_S fuel n acc :
  digitsOf (S fuel) n acc =
    if n <? 10 then String (ascii_of_nat (Z.to_nat (48 + n mod 10))) acc
    else digitsOf fuel (n / 10) (String (ascii_of_nat (Z.to_nat (48 + n mod 10))) acc).
Proof. reflexivity. Qed.

(** The value read back from the digits, with the digits read so far. *)
Lemma readDigits_digitsOf fuel n acc a :
  0 <= n < 2 ^ Z.of_nat (S fuel) ->
  exists k, 0 < k /\
    readDigits (digitsOf (S fuel) n acc) a = readDigits acc (a * k + n).
Proof.
  revert n acc a. induction fuel as [|fuel IH]; intros n acc a Hn.
  - change (2 ^ Z.of_nat 1) with 2 in Hn. rewrite digitsOf_S.
    assert ((n <? 10) = true) as -> by (apply Z.ltb_lt; lia).
    exists 10. split; [lia|]. simpl.
    destruct (digitChar_spec n ltac:(lia)) as [-> ->].
    rewrite Z.mod_small by lia. done.
  - rewrite (digitsOf_S (S fuel)). destruct (n <? 10) eqn:E.
    + apply Z.ltb_lt in E. exists 10. split; [lia|]. simpl.
      destruct (digitChar_spec n ltac:(lia)) as [-> ->].
      rewrite Z.mod_small by lia. done.
    + apply Z.ltb_ge in E.
      destruct (IH (n / 10) (String (ascii_of_nat (Z.to_nat (48 + n mod 10))) acc) a)
        as (k & Hk & Heq).
      { split; [apply Z.div_pos; lia|].
        apply Z.div_lt_upper_bound; [lia|].
        rewrite (Nat2Z.inj_succ (S fuel)), Z.pow_succ_r in Hn by lia. lia. }
      exists (k * 10). split; [lia|].
      rewrite Heq. simpl.
      destruct (digitChar_spec n ltac:(lia)) as [-> ->].
      f_equal. pose proof (Z.div_mod n 10 ltac:(lia)). lia.
Qed.

Lemma formatInt_digits n :
  exists ds, ds <> EmptyString /\ allDigits ds = true /\ readDigits ds 0 = Some (Z.abs n) /\
    formatInt n = if n <? 0 then String "-" ds else ds.
Proof.
  unfold formatInt. set (m := Z.abs n).
  exists (digitsOf (S (Z.to_nat (Z.log2 m))) m EmptyString).
  split; [apply digitsOf_nonempty|]. split; [apply digitsOf_allDigits; [lia|done]|].
  split; [|done].
  destruct (readDigits_digitsOf (Z.to_nat (Z.log2 m)) m EmptyString 0) as (k & _ & ->).
  - split; [lia|]. rewrite Nat2Z.inj_succ, Z2Nat.id by apply Z.log2_nonneg.
    destruct (Z.eq_dec m 0) as [->|Hm]; [done|].
    apply Z.log2_spec. lia.
  - simpl. f_equal.
Qed.

(** [Atoi] reads back what [%d] printed, within the range of [int]. *)
Lemma Atoi_formatInt n : minInt <= n <= maxInt -> Atoi (formatInt n) = (n, true).
Proof.
  intros Hn. destruct (formatInt_digits n) as (ds & Hne & Hd & Hp & ->).
  unfold minInt, maxInt in Hn.
  apply parseDigits_read in Hp; [|unfold maxUint64; lia].
  destruct (n <? 0) eqn:E.
  - apply Z.ltb_lt in E. unfold Atoi, parseUint.
    destruct ds as [|c ds]; [done|]. rewrite Hp. simpl.
    assert ((2 ^ 63 <? Z.abs n) = false) as -> by (apply Z.ltb_ge; lia).
    f_equal. lia.
  - apply Z.ltb_ge in E. destruct ds as [|c ds]; [done|].
    assert (isDigit c = true) as Hc.
    { unfold allDigits in Hd. simpl in Hd. by apply andb_true_iff in Hd as [? _]. }
    assert (Atoi (String c ds) =
            match parseUint (String c ds) with
            | SyntaxError => (0, false)
            | RangeError => (maxInt, false)
            | UintOk un =>
                if negb false && (2 ^ 63 <=? un) then (maxInt, false)
                else if false && (2 ^ 63 <? un) then (minInt, false)
                else (un, true)
            end) as ->.
    { unfold Atoi. destruct c as [[] [] [] [] [] [] [] []]; try done. }
    unfold parseUint. rewrite Hp. simpl.
    assert ((2 ^ 63 <=? Z.abs n) = false) as -> by (apply Z.leb_gt; lia).
    f_equal. lia.
Qed.

(** The bytes of a printed integer: digits, after a minus sign at most. *)
Definition isIntByte (c : ascii) : bool := isDigit c || Ascii.eqb c "-".

Lemma formatInt_bytes n :
  formatInt n <> EmptyString /\
  forallb isIntByte (list_ascii_of_string (formatInt n)) = true.
Proof.
  destruct (formatInt_digits n) as (ds & Hne & Hd & _ & ->).
  assert (forallb isIntByte (list_ascii_of_string ds) = true) as H.
  { unfold allDigits in Hd. rewrite forallb_forall in *. intros c Hc.
    unfold isIntByte. by rewrite (Hd c Hc). }
  destruct (n <? 0); [|done]. split; [done|]. simpl. by rewrite H.
Qed.

Lemma formatInt_head n (c : ascii) :
  isIntByte c = false -> HasPrefix (formatInt n) (String c EmptyString) = false.
Proof.
  intros Hc. destruct (formatInt_bytes n) as [Hne Hb].
  destruct (formatInt n) as [|a s]; [done|]. simpl in Hb.
  apply andb_true_iff in Hb as [Ha _]. unfold HasPrefix.
  destruct (Ascii.eqb_spec c a) as [->|]; [congruence|done].
Qed.

Lemma formatInt_not_tilde n : String.eqb (formatInt n) "~" = false.
Proof.
  destruct (formatInt_bytes n) as [Hne Hb]. apply String.eqb_neq. intros E.
  rewrite E in Hb. done.
Qed.

(** ** Explicit row count and auto-increment *)

(** The names of the [i+] columns of a header, in their order. *)
Definition autoNames (h : header) : list string :=
  map hname (filter (fun hf => htyp hf = "i+"%string) (headers h)).

(** The [i+] columns of one row: the first receives [c + 1], the next
    [c + 2], and so on. *)
Fixpoint assignAuto (c : Z) (names : list string) (e : value) : value :=
  match names with
  | [] => e
  | n :: rest =>
      assignAuto (c + 1) rest (fst (setDeepField e n "i+" (formatInt (c + 1))))
  end.

(** The constants of the header, assigned in their order. *)
Definition withConstants (cs : list headerField) (e : value) : value :=
  fold_left (fun e c => fst (setDeepField e (hname c) "auto" (hval c))) cs e.

(** Only the columns declared with [!] are indexed, and their type is [s]. *)
Definition indexedIsString (hs : list headerField) : Prop :=
  Forall (fun hf => hindexed hf = true -> htyp hf = "s"%string) hs.

Lemma headerPart_indexed aliasTable part h h' :
  headerPart aliasTable part h = Ok h' ->
  indexedIsString (headers h) -> indexedIsString (headers h').
Proof.
  unfold headerPart. intros Hp Hh.
  destruct (HasPrefix part "+").
  { destruct (sliceFrom part 1); simpl in Hp; [|done].
    destruct (Atoi s) as [n []]; simpl in Hp; by injection Hp as <-. }
  set (isConst := HasPrefix part "@") in *. clearbody isConst.
  destruct (if isConst then orPanic (sliceFrom part 1) else Ok part)
    as [part'| |]; simpl in Hp; [|done..].
  destruct (IndexAny part' _) as [sepIdx|]; [|by injection Hp as <-].
  destruct (sliceTo part' sepIdx) as [name|]; simpl in Hp; [|done].
  destruct (sliceFrom part' sepIdx) as [typVal|]; simpl in Hp; [|done].
  destruct (unalias aliasTable name) as [name'| |]; simpl in Hp; [|done..].
  destruct typVal as [|sp suffix]; [done|].
  destruct isConst; injection Hp as <-; simpl; [done|].
  apply Forall_app. split; [done|]. constructor; [|done].
  destruct (Ascii.eqb sp "="); [done|]. destruct (Ascii.eqb sp "!"); done.
Qed.

Lemma headerParts_indexed aliasTable parts h h' :
  headerParts aliasTable parts h = Ok h' ->
  indexedIsString (headers h) -> indexedIsString (headers h').
Proof.
  revert h. induction parts as [|p parts IH]; intros h; simpl.
  - by intros [= <-].
  - destruct (headerPart aliasTable p h) as [h1| |] eqn:E; simpl; [|done..].
    intros Hp Hh. apply (IH h1 Hp). by apply (headerPart_indexed _ _ _ _ E).
Qed.

Lemma parseHeader_indexed aliasTable headerLine h :
  parseHeader aliasTable headerLine = Ok h -> indexedIsString (headers h).
Proof.
  unfold parseHeader. destruct (sliceFrom headerLine 2); simpl; [|done].
  intros Hp. apply (headerParts_indexed _ _ _ _ Hp). constructor.
Qed.

Lemma applyConstants_Done cs e e' :
  applyConstants cs e = (e', Done) -> e' = withConstants cs e.
Proof.
  revert e. induction cs as [|c cs IH]; intros e; simpl.
  - by intros [= <-].
  - destruct (setDeepField e (hname c) "auto" (hval c)) as [e1 r] eqn:E.
    destruct r; try (intros [= _ ?]; done). intros H. apply IH in H. by rewrite H.
Qed.

(** Without row tokens only the [i+] columns assign, each with the next
    value of the counter. *)
Lemma applyColumns_nil hs c e e' c' :
  indexedIsString hs ->
  applyColumns hs [] c e = (e', c', Done) ->
  let autos := map hname (filter (fun hf => htyp hf = "i+"%string) hs) in
  c' = c + Z.of_nat (length autos) /\ e' = assignAuto c autos e.
Proof.
  intros Hix. revert c e. induction hs as [|h hs IH]; intros c e; simpl.
  - intros [= <- <-]. split; [lia|done].
  - inversion Hix as [|? ? Hh Hhs]; subst.
    destruct (String.eqb (htyp h) "i+") eqn:Et.
    + apply String.eqb_eq in Et. rewrite formatInt_not_tilde.
      assert (indexOption h (formatInt (c + 1)) = formatInt (c + 1)) as ->.
      { unfold indexOption. destruct (hindexed h); [|done].
        specialize (Hh eq_refl). congruence. }
      destruct (setDeepField e (hname h) (htyp h) (formatInt (c + 1))) as [e1 r] eqn:E.
      destruct r; try (intros [= _ _ ?]; done). intros H.
      apply (IH Hhs) in H as [-> ->].
      rewrite filter_cons_True by done. simpl. rewrite Et in E. rewrite E. simpl.
      split; [lia|done].
    + apply String.eqb_neq in Et. simpl. intros H.
      apply (IH Hhs) in H as [-> ->]. by rewrite filter_cons_False by done.
Qed.

Section ExplicitRows.

Variables (elemType : type) (isPtr : bool) (h : header).
Hypothesis Hindexed : indexedIsString (headers h).

Let wrap (e : value) : value := if isPtr then VPtr e else e.
Let m : Z := Z.of_nat (length (autoNames h)).

(** The row built when the counter stands at [c]. *)
Definition rowAt (c : Z) : value :=
  wrap (assignAuto c (autoNames h) (withConstants (constants h) (zero elemType))).

Lemma processRow_nil st st' :
  processRow elemType isPtr h [] st = (st', Done) ->
  rows st' = rows st ++ [rowAt (autoIncID st)] /\ autoIncID st' = autoIncID st + m.
Proof using Hindexed.
  unfold processRow.
  destruct (applyConstants (constants h) (zero elemType)) as [e r] eqn:Ec.
  destruct r; try (intros [= _ ?]; done). apply applyConstants_Done in Ec as ->.
  destruct (applyColumns (headers h) [] (autoIncID st) _) as [[e' n] r'] eqn:Ea.
  destruct r'; try (intros [= _ ?]; done).
  apply (applyColumns_nil _ _ _ _ _ Hindexed) in Ea as [-> ->].
  intros [= <-]. simpl. done.
Qed.

Lemma explicitLoop_rows n st st' :
  explicitLoop n elemType isPtr h st = (st', Done) ->
  rows st' = rows st ++ map (fun r => rowAt (autoIncID st + Z.of_nat r * m)) (seq 0 n) /\
  autoIncID st' = autoIncID st + Z.of_nat n * m.
Proof using Hindexed.
  revert st. induction n as [|n IH]; intros st; simpl.
  - intros [= <-]. rewrite app_nil_r. split; [done|lia].
  - destruct (processRow elemType isPtr h [] st) as [st1 r] eqn:E.
    destruct r; try (intros [= _ ?]; done).
    apply processRow_nil in E as [Hr Hc]. intros H. apply IH in H as [-> ->].
    rewrite Hr, Hc, <- app_assoc. split; [|lia]. f_equal. simpl. f_equal.
    + f_equal. lia.
    + rewrite <- seq_shift, map_map. apply map_ext. intros r. f_equal. lia.
Qed.

Lemma dataLoop_blank lines st :
  Forall (fun l => TrimSpace l = EmptyString) lines ->
  dataLoop lines elemType isPtr h st = (st, Done).
Proof.
  induction 1 as [|l lines Hl _ IH]; simpl; [done|]. by rewrite Hl.
Qed.

End ExplicitRows.

Lemma derefWith_Done v k :
  (forall x, snd (k x) = Done) -> snd (derefWith v k) = Done.
Proof.
  intros Hk. destruct v; simpl; try apply Hk.
  - specialize (Hk (zero elem)). destruct (k (zero elem)). done.
  - specialize (Hk v). destruct (k v). done.
Qed.

(** An assignment of a value that opens no brace always returns [nil]. *)
Lemma setFieldFuel_Done fuel d name typ valStr :
  HasPrefix valStr "{" = false -> snd (setFieldFuel fuel d name typ valStr) = Done.
Proof.
  intros Hv. destruct fuel; simpl; apply derefWith_Done; intros x;
    rewrite Hv; repeat case_match; done.
Qed.

(** An assignment through a one-segment path of a value that opens no
    brace always returns [nil]. *)
Lemma setDeepField_flat_Done e path typ valStr :
  dotFree path -> HasPrefix valStr "{" = false ->
  snd (setDeepField e path typ valStr) = Done.
Proof.
  intros Hp Hv. unfold setDeepField, setDeepFieldWith. rewrite (Split_no_sep _ _ Hp).
  simpl. apply derefWith_Done. intros x. by apply setFieldFuel_Done.
Qed.

Lemma explicitLoop_Done elemType isPtr h n st :
  indexedIsString (headers h) ->
  Forall (fun hf => dotFree (hname hf)) (headers h ++ constants h) ->
  Forall (fun c => HasPrefix (hval c) "{" = false) (constants h) ->
  snd (explicitLoop n elemType isPtr h st) = Done.
Proof.
  intros Hix Hdot Hv. apply Forall_app in Hdot as [Hh Hc].
  assert (forall e, snd (applyConstants (constants h) e) = Done) as Hconst.
  { revert Hc Hv. generalize (constants h).
    induction l as [|c cs IH]; intros Hc Hv e; simpl; [done|].
    inversion Hc; inversion Hv; subst.
    pose proof (setDeepField_flat_Done e (hname c) "auto" (hval c)) as H.
    destruct (setDeepField e (hname c) "auto" (hval c)) as [e1 r]. simpl in H.
    rewrite H by done. by apply IH. }
  assert (forall c e, snd (applyColumns (headers h) [] c e) = Done) as Hcols.
  { revert Hh Hix. generalize (headers h).
    induction l as [|hf hs IH]; intros Hh Hix c e; simpl; [done|].
    inversion Hh as [|? ? Hd Hh']; inversion Hix as [|? ? Hi Hix']; subst.
    destruct (String.eqb (htyp hf) "i+") eqn:Et; simpl; [|by apply IH].
    rewrite formatInt_not_tilde.
    assert (indexOption hf (formatInt (c + 1)) = formatInt (c + 1)) as ->.
    { unfold indexOption. destruct (hindexed hf); [|done].
      apply String.eqb_eq in Et. specialize (Hi eq_refl). congruence. }
    pose proof (setDeepField_flat_Done e (hname hf) (htyp hf) (formatInt (c + 1)) Hd
                  (formatInt_head _ "{" eq_refl)) as H.
    destruct (setDeepField e (hname hf) (htyp hf) (formatInt (c + 1))) as [e1 r].
    simpl in H. rewrite H. by apply IH. }
  revert st. induction n as [|n IH]; intros st; simpl; [done|].
  unfold processRow.
  specialize (Hconst (zero elemType)).
  destruct (applyConstants (constants h) (zero elemType)) as [e r]. simpl in Hconst.
  rewrite Hconst. specialize (Hcols (autoIncID st) e).
  destruct (applyColumns (headers h) [] (autoIncID st) e) as [[e' k] r']. simpl in Hcols.
  rewrite Hcols. apply IH.
Qed.

Definition pairFields : list StructField := [mkField "A" "a" ""; mkField "B" "b" ""].

Definition pairType : type := TStruct (zip pairFields [TInt; TInt]).

Definition pairOf (a b : Z) : value := VStruct (zip pairFields [VInt a; VInt b]).




(** ** Strings: appending, splitting and joining *)

Lemma sapp_nil_l s : EmptyString +:+ s = s.
Proof. reflexivity. Qed.

Lemma sapp_cons c s t : String c s +:+ t = String c (s +:+ t).
Proof. reflexivity. Qed.

Lemma sapp_nil_r s : s +:+ EmptyString = s.
Proof. induction s as [|c s IH]; [done|]. by rewrite sapp_cons, IH. Qed.

Lemma sapp_assoc a b c : (a +:+ b) +:+ c = a +:+ (b +:+ c).
Proof. induction a as [|x a IH]; [done|]. by rewrite !sapp_cons, IH. Qed.

Lemma slength_app a b : String.length (a +:+ b) = (String.length a + String.length b)%nat.
Proof. induction a as [|x a IH]; [done|]. rewrite sapp_cons. simpl. by rewrite IH. Qed.

Lemma HasPrefix_nil s : HasPrefix s EmptyString = true.
Proof. by destruct s. Qed.

Lemma HasPrefix_cons c s a p :
  HasPrefix (String c s) (String a p) = Ascii.eqb a c && HasPrefix s p.
Proof. reflexivity. Qed.

Lemma HasPrefix_spec s p : HasPrefix s p = true <-> exists r, s = p +:+ r.
Proof.
  revert s. induction p as [|a p IH]; intros s.
  - rewrite HasPrefix_nil. split; [|done]. intros _. by exists s.
  - destruct s as [|c s].
    + split; [done|]. intros [r Hr]. by rewrite sapp_cons in Hr.
    + rewrite HasPrefix_cons, andb_true_iff, Ascii.eqb_eq, IH. split.
      * intros [-> [r ->]]. by exists r.
      * intros [r Hr]. rewrite sapp_cons in Hr. injection Hr as -> ->. eauto.
Qed.

Lemma Split_nonempty s c : Split s c <> [].
Proof.
  destruct s as [|a s]; simpl; [done|].
  destruct (Ascii.eqb a c); [done|]. by destruct (Split s c).
Qed.

Lemma Split_cons_sep c s : Split (String c s) c = EmptyString :: Split s c.
Proof. simpl. by rewrite Ascii.eqb_refl. Qed.

Lemma Split_cons_other a c s :
  a <> c ->
  Split (String a s) c = String a (hd EmptyString (Split s c)) :: tl (Split s c).
Proof.
  intros Hne. simpl. apply Ascii.eqb_neq in Hne. rewrite Hne.
  pose proof (Split_nonempty s c). by destruct (Split s c).
Qed.

Lemma Split_app a b c :
  Split (a +:+ String c b) c = Split a c ++ Split b c.
Proof.
  induction a as [|x a IH].
  - rewrite sapp_nil_l. by rewrite Split_cons_sep.
  - rewrite sapp_cons. destruct (ascii_dec x c) as [->|Hne].
    + rewrite !Split_cons_sep, IH. done.
    + rewrite !Split_cons_other by done. rewrite IH.
      pose proof (Split_nonempty a c). by destruct (Split a c).
Qed.

Lemma Join_cons x y l sep : Join (x :: y :: l) sep = x +:+ sep +:+ Join (y :: l) sep.
Proof. reflexivity. Qed.

Lemma Join_app l1 l2 sep :
  l1 <> [] -> l2 <> [] -> Join (l1 ++ l2) sep = Join l1 sep +:+ sep +:+ Join l2 sep.
Proof.
  intros H1 H2. induction l1 as [|x l1 IH]; [done|].
  destruct l1 as [|y l1].
  - destruct l2 as [|z l2]; [done|]. done.
  - change ((x :: y :: l1) ++ l2) with (x :: y :: (l1 ++ l2)).
    rewrite !Join_cons. change (y :: l1 ++ l2) with ((y :: l1) ++ l2).
    rewrite IH by done. by rewrite !sapp_assoc.
Qed.

Lemma Join_Split s c : Join (Split s c) (String c EmptyString) = s.
Proof.
  induction s as [|a s IH]; [done|].
  destruct (ascii_dec a c) as [->|Hne].
  - rewrite Split_cons_sep. pose proof (Split_nonempty s c).
    destruct (Split s c) as [|y l] eqn:E; [done|]. rewrite Join_cons, IH. done.
  - rewrite Split_cons_other by done. pose proof (Split_nonempty s c).
    destruct (Split s c) as [|y l] eqn:E; [done|]. simpl hd. simpl tl.
    destruct l as [|z l].
    + simpl in *. by rewrite IH.
    + rewrite Join_cons in *. rewrite sapp_cons. by rewrite IH.
Qed.

Lemma Split_Join l c :
  l <> [] -> Forall (fun s => Index s c = None) l ->
  Split (Join l (String c EmptyString)) c = l.
Proof.
  intros Hne Hl. induction Hl as [|x l Hx Hl IH]; [done|].
  destruct l as [|y l].
  - simpl. by apply Split_no_sep.
  - rewrite Join_cons, sapp_cons, sapp_nil_l, Split_app.
    rewrite (Split_no_sep _ _ Hx), IH by done. done.
Qed.

(** ** Alias detection *)

Lemma Split_sep_free s c : Forall (fun p => Index p c = None) (Split s c).
Proof.
  induction s as [|a s IH]; [by repeat constructor|].
  destruct (ascii_dec a c) as [->|Hne].
  - rewrite Split_cons_sep. by constructor.
  - rewrite Split_cons_other by done. pose proof (Split_nonempty s c).
    destruct (Split s c) as [|y l]; [done|]. inversion IH; subst.
    constructor; [|done]. simpl. unfold Index in *. simpl.
    apply Ascii.eqb_neq in Hne. rewrite Hne. simpl.
    match goal with H : IndexAny y _ = None |- _ => by rewrite H end.
Qed.

(** A path shares the prefix [p] when it goes on after [p] with a dot. *)
Definition sharesPrefix (p k : string) : bool := HasPrefix k (p +:+ ".").

Lemma prefixesOf_spec p k : p ∈ prefixesOf k <-> sharesPrefix p k = true.
Proof.
  unfold prefixesOf, sharesPrefix. rewrite HasPrefix_spec. set (parts := Split k ".").
  assert (1 <= length parts)%nat as Hlen.
  { pose proof (Split_nonempty k "."). fold parts in H. destruct parts; [done|simpl; lia]. }
  rewrite list_elem_of_fmap. split.
  - intros (i & -> & Hi%elem_of_seq).
    exists (Join (drop i parts) "."). rewrite sapp_assoc.
    rewrite <- (Join_Split k "."). fold parts.
    rewrite <- (take_drop i parts) at 1. apply Join_app.
    + intros E%(f_equal length). rewrite length_take in E. simpl in E. lia.
    + intros E%(f_equal length). rewrite length_drop in E. simpl in E. lia.
  - intros [r Hr]. rewrite sapp_assoc in Hr.
    assert (parts = Split p "." ++ Split r ".") as Hparts.
    { unfold parts. rewrite Hr. apply Split_app. }
    pose proof (Split_nonempty p ".") as Hp. pose proof (Split_nonempty r ".") as Hr'.
    exists (length (Split p ".")). split.
    + rewrite Hparts, take_app_length. symmetry. apply Join_Split.
    + apply elem_of_seq. rewrite Hparts, length_app.
      destruct (Split p "."); [done|]. destruct (Split r "."); [done|]. simpl. lia.
Qed.

Lemma prefixesOf_NoDup k : NoDup (prefixesOf k).
Proof.
  unfold prefixesOf. set (parts := Split k ".").
  apply NoDup_fmap_2_strong; [|apply NoDup_seq].
  intros i j Hi%elem_of_seq Hj%elem_of_seq E.
  assert (forall n, (1 <= n < length parts)%nat ->
            Split (Join (take n parts) ".") "." = take n parts) as Hsplit.
  { intros n Hn. apply Split_Join.
    - intros E'%(f_equal length). rewrite length_take in E'. simpl in E'. lia.
    - apply Forall_take. apply Split_sep_free. }
  assert (take i parts = take j parts) as Ht.
  { rewrite <- (Hsplit i), <- (Hsplit j) by lia. by rewrite E. }
  apply (f_equal length) in Ht. rewrite !length_take in Ht. lia.
Qed.

(** The number of times [p] is met in a list of prefixes. *)
Definition occurrences (p : string) (ps : list string) : Z :=
  Z.of_nat (length (filter (fun q => q = p) ps)).

Definition countOf (m : gmap string Z) (p : string) : Z := default 0 (m !! p).

Lemma bump_fold ps m p :
  countOf (fold_left bump ps m) p = countOf m p + occurrences p ps /\
  (is_Some (fold_left bump ps m !! p) <-> is_Some (m !! p) \/ p ∈ ps).
Proof.
  revert m. induction ps as [|q ps IH]; intros m; simpl.
  - unfold occurrences. simpl. split; [lia|]. rewrite elem_of_nil. tauto.
  - destruct (IH (bump m q)) as [-> ->]. unfold bump, countOf, occurrences.
    destruct (decide (q = p)) as [->|Hne].
    + rewrite lookup_insert_eq, filter_cons_True by done. simpl. split; [lia|].
      rewrite elem_of_cons. split; [auto|]. intros _. left. eauto.
    + rewrite lookup_insert_ne, filter_cons_False by done. split; [done|].
      rewrite elem_of_cons. split; [tauto|]. intros [?|[?|?]]; [auto|congruence|auto].
Qed.

Lemma filter_none {A} (P : A -> Prop) `{forall x, Decision (P x)} (l : list A) :
  Forall (fun x => ~ P x) l -> filter P l = [].
Proof.
  induction 1 as [|x l Hx _ IH]; [done|]. by rewrite filter_cons_False.
Qed.

Lemma occurrences_prefixesOf p k :
  occurrences p (prefixesOf k) = if sharesPrefix p k then 1 else 0.
Proof.
  unfold occurrences. pose proof (prefixesOf_spec p k) as Hs.
  pose proof (prefixesOf_NoDup k) as Hnd. revert Hs Hnd.
  generalize (prefixesOf k). intros l Hs Hnd.
  destruct (sharesPrefix p k).
  - assert (p ∈ l) as Hin by by apply Hs. clear Hs.
    induction Hnd as [|x l Hx Hnd IH]; [by apply elem_of_nil in Hin|].
    destruct (decide (x = p)) as [->|Hne].
    + rewrite filter_cons_True by done. simpl.
      assert (filter (fun q => q = p) l = []) as ->; [|done].
      apply filter_none. apply Forall_forall. intros y Hy ->. done.
    + rewrite filter_cons_False by done. apply IH.
      apply elem_of_cons in Hin as [?|?]; [congruence|done].
  - assert (filter (fun q => q = p) l = []) as ->; [|done].
    apply filter_none. apply Forall_forall. intros y Hy ->.
    assert (false = true) by by apply Hs. done.
Qed.

(** The count of a prefix is the number of keys that share it; a prefix no
    key shares has no entry. *)
Lemma prefixCounts_spec keys p c :
  prefixCounts keys !! p = Some c <->
  c = Z.of_nat (length (filter (fun k => sharesPrefix p k) keys)) /\ 0 < c.
Proof.
  unfold prefixCounts.
  assert (forall m : gmap string Z,
    let m' := fold_left (fun counts k => fold_left bump (prefixesOf k) counts) keys m in
    countOf m' p = countOf m p + Z.of_nat (length (filter (fun k => sharesPrefix p k) keys)) /\
    (is_Some (m' !! p) <->
     is_Some (m !! p) \/ (0 < length (filter (fun k => sharesPrefix p k) keys))%nat)) as H.
  { induction keys as [|k keys IH]; intros m; simpl.
    - split; [lia|]. split; [auto|]. intros [?|?]; [done|lia].
    - destruct (IH (fold_left bump (prefixesOf k) m)) as [-> ->].
      destruct (bump_fold (prefixesOf k) m p) as [-> ->].
      rewrite occurrences_prefixesOf, prefixesOf_spec.
      destruct (sharesPrefix p k) eqn:E.
      + rewrite filter_cons_True by (by rewrite E). simpl length. split; [lia|].
        split; [intros _; right; lia|]. intros _. left. by right.
      + rewrite filter_cons_False by (rewrite E; intros []). split; [lia|].
        split; [intros [[?|?]|?]; [auto|done|auto]|]. intros [?|?]; [left; by left|by right]. }
  destruct (H ∅) as [Hc Hs]. cbv zeta in Hc, Hs.
  set (m' := fold_left _ keys ∅) in *. unfold countOf in Hc.
  rewrite lookup_empty in Hc, Hs. simpl in Hc. split.
  - intros E. rewrite E in Hc, Hs. simpl in Hc. split; [lia|].
    destruct (proj1 Hs ltac:(eauto)) as [[? ?]|?]; [done|lia].
  - intros [-> Hpos]. destruct (proj2 Hs) as [x Hx]; [right; lia|].
    rewrite Hx in Hc |- *. simpl in Hc. f_equal. lia.
Qed.

(** The prefixes the assignment loop goes through, in its order. *)
Definition processed (σ : schedule) (keys : list string) : list saving :=
  sortSavings σ (savingsOf (rangeCounts σ (prefixCounts keys))).

Lemma savingsOf_elem entries s :
  s ∈ savingsOf entries <->
  exists c, (sprefix s, c) ∈ entries /\ score s = scoreOf (sprefix s) c /\ 0 < score s.
Proof.
  unfold savingsOf. rewrite list_elem_of_In, in_flat_map. split.
  - intros ([p c] & Hin & Hs). simpl in Hs.
    destruct (0 <? scoreOf p c) eqn:E; [|done]. destruct Hs as [<-|[]]. simpl.
    exists c. apply Z.ltb_lt in E. split; [by apply list_elem_of_In|done].
  - intros (c & Hin & Hsc & Hpos). exists (sprefix s, c).
    split; [by apply list_elem_of_In|]. simpl. rewrite <- Hsc.
    assert ((0 <? score s) = true) as -> by by apply Z.ltb_lt.
    left. by destruct s.
Qed.

Lemma processed_spec σ keys s :
  admissible σ ->
  s ∈ processed σ keys <->
  exists c, prefixCounts keys !! sprefix s = Some c /\
            score s = scoreOf (sprefix s) c /\ 0 < score s.
Proof.
  intros Hσ. unfold processed. rewrite (sortSavings_perm σ Hσ). rewrite savingsOf_elem.
  split; intros (c & Hin & H); exists c; (split; [|done]).
  - rewrite (rangeCounts_perm σ Hσ (prefixCounts keys)) in Hin.
    by apply elem_of_map_to_list.
  - rewrite (rangeCounts_perm σ Hσ (prefixCounts keys)). by apply elem_of_map_to_list.
Qed.

Lemma savingsOf_NoDup entries :
  NoDup (map fst entries) -> NoDup (map sprefix (savingsOf entries)).
Proof.
  induction entries as [|[p c] entries IH]; simpl; [constructor|].
  intros [Hp Hnd]%NoDup_cons. destruct (0 <? scoreOf p c); simpl; [|by apply IH].
  apply NoDup_cons. split; [|by apply IH].
  intros (s & -> & Hin)%list_elem_of_fmap. apply savingsOf_elem in Hin as (c' & Hin & _).
  apply Hp. apply list_elem_of_fmap. by exists (sprefix s, c').
Qed.

Lemma processed_NoDup σ keys : admissible σ -> NoDup (map sprefix (processed σ keys)).
Proof.
  intros Hσ. unfold processed.
  rewrite (sortSavings_perm σ Hσ). apply savingsOf_NoDup.
  rewrite (rangeCounts_perm σ Hσ (prefixCounts keys)). apply NoDup_fst_map_to_list.
Qed.

(** What the inner loop returns: the candidate when it is free; else, for a
    one-byte candidate, the first free letter from position [idx] on, up to
    [y]; else nothing. *)
Lemma pickAlias_spec rounds used cand idx a idx' :
  pickAlias rounds used cand idx = (a, idx') ->
  (a = cand /\ (cand ∉ used) /\ idx' = idx) \/
  (cand ∈ used /\ idx <= idx' /\
   (a = EmptyString \/
    exists j, idx <= j <= 24 /\ a = letter j /\ (a ∉ used) /\ idx' = j + 1 /\
              forall i, idx <= i < j -> letter i ∈ used)).
Proof.
  revert cand idx. induction rounds as [|rounds IH]; intros cand idx; simpl.
  - case_bool_decide as Hc; [intros [= <- <-]; by left|].
    intros H. right. split; [set_solver|].
    destruct (String.length cand =? 1)%nat; [|injection H as <- <-; split; [lia|by left]].
    destruct (25 <? idx + 1); injection H as <- <-; (split; [lia|by left]).
  - case_bool_decide as Hc; [intros [= <- <-]; by left|].
    assert (cand ∈ used) as Hc' by set_solver.
    intros H. right. split; [done|].
    destruct (String.length cand =? 1)%nat; [|injection H as <- <-; split; [lia|by left]].
    destruct (25 <? idx + 1) eqn:E; [injection H as <- <-; split; [lia|by left]|].
    apply Z.ltb_ge in E.
    apply IH in H as [(-> & Hfree & ->)|(Hused & Hle & [-> |(j & Hj & -> & Hfree & -> & Hleast)])].
    + split; [lia|]. right. exists idx. repeat split; try done; try lia. 
    + split; [lia|]. by left.
    + split; [lia|]. right. exists j. repeat split; try done; try lia.
      intros i Hi. destruct (decide (i = idx)) as [->|]; [done|]. apply Hleast. lia.
Qed.

(** The two shapes of an alias: the lowered first byte of the last segment
    of the prefix, or a letter of the sequence a, b, ... *)
Definition aliasShape (p a : string) : Prop :=
  (exists c r, last (Split p ".") = Some (String c r) /\ a = lowerFirst c)
  \/ (exists j, 0 <= j <= 24 /\ a = letter j).

Record aliasInv (st : aliasState) : Prop := mkAliasInv {
  inv_idx : 0 <= aliasIdx st;
  inv_used : forall p a, aliases st !! p = Some a -> a ∈ usedAliases st;
  inv_inj : forall p q a, aliases st !! p = Some a -> aliases st !! q = Some a -> p = q;
  inv_shape : forall p a, aliases st !! p = Some a -> aliasShape p a
}.

Lemma assignAliases_inv L st st' :
  assignAliases L st = Ok st' ->
  aliasInv st -> (size (aliases st) <= 9)%nat ->
  aliasInv st' /\ (size (aliases st') <= 10)%nat /\
  (forall p a, aliases st' !! p = Some a ->
     aliases st !! p = Some a \/ p ∈ map sprefix L) /\
  (forall p a, aliases st !! p = Some a -> p ∉ map sprefix L ->
     aliases st' !! p = Some a).
Proof.
  revert st. induction L as [|s L IH]; intros st; simpl.
  - intros [= <-] Hinv Hsz. split; [done|]. split; [lia|]. split; [by left|done].
  - destruct (last (Split (sprefix s) ".")) as [[|c r]|] eqn:El; try done.
    destruct (pickAlias _ (usedAliases st) (lowerFirst c) (aliasIdx st))
      as [validAlias idx] eqn:Ep.
    intros H Hinv Hsz. destruct Hinv as [Hidx Hused Hinj Hshape].
    set (st1 := if String.eqb validAlias "" then
                  mkAliasState (aliases st) (usedAliases st) idx
                else mkAliasState (<[sprefix s := validAlias]> (aliases st))
                       ({[validAlias]} ∪ usedAliases st) idx) in *.
    assert (aliasInv st1 /\ (size (aliases st1) <= 10)%nat /\
            (forall p a, aliases st1 !! p = Some a ->
               aliases st !! p = Some a \/ p = sprefix s) /\
            (forall p a, aliases st !! p = Some a -> p <> sprefix s ->
               aliases st1 !! p = Some a)) as (Hinv1 & Hsz1 & Hdom1 & Hkeep1).
    { apply pickAlias_spec in Ep. unfold st1.
      destruct (String.eqb validAlias "") eqn:Ev.
      - split; [|split; [simpl; lia|split; [by left|done]]].
        split; simpl; try done.
        destruct Ep as [(_ & _ & ->)|(_ & ? & _)]; lia.
      - apply String.eqb_neq in Ev.
        assert ((validAlias ∉ usedAliases st) /\ aliasShape (sprefix s) validAlias /\
                0 <= idx) as (Hfree & Hsh & Hidx').
        { destruct Ep as [(-> & ? & ->)|(_ & ? & [-> |(j & ? & -> & ? & -> & _)])];
            [|done|].
          - split; [done|]. split; [|done]. left. by exists c, r.
          - split; [done|]. split; [|lia]. right. exists j. split; [lia|done]. }
        split; [split; simpl|split; [|split]]; simpl.
        + done.
        + intros p a. rewrite lookup_insert. case_decide.
          * intros [= <-]. apply elem_of_union. left. by apply elem_of_singleton.
          * intros Hp. apply Hused in Hp. apply elem_of_union. by right.
        + intros p q a. rewrite !lookup_insert. repeat case_decide; subst.
          * done.
          * intros [= <-] Hq. apply Hused in Hq. done.
          * intros Hp [= <-]. apply Hused in Hp. done.
          * apply Hinj.
        + intros p a. rewrite lookup_insert. case_decide; subst.
          * by intros [= <-].
          * apply Hshape.
        + pose proof (map_size_insert (sprefix s) validAlias (aliases st)) as Hs.
          destruct (aliases st !! sprefix s); simpl in Hs; unfold id in Hs; lia.
        + intros p a. rewrite lookup_insert. case_decide; subst; [by right|by left].
        + intros p a Hp Hne. by rewrite lookup_insert_ne. }
    clearbody st1.
    destruct (10 <=? Z.of_nat (size (aliases st1))) eqn:E10.
    + injection H as <-. split; [done|]. split; [done|]. split.
      * intros p a Hp. destruct (Hdom1 p a Hp) as [?| ->]; [by left|right; left].
      * intros p a Hp Hn. apply Hkeep1; [done|]. intros ->. apply Hn. left.
    + apply Z.leb_gt in E10. apply IH in H as (Hinv' & Hsz' & Hdom' & Hkeep'); [|done|lia].
      split; [done|]. split; [done|]. split.
      * intros p a Hp. destruct (Hdom' p a Hp) as [Hp1|Hin]; [|right; by right].
        destruct (Hdom1 p a Hp1) as [?| ->]; [by left|right; left].
      * intros p a Hp Hn. apply Hkeep'.
        -- apply Hkeep1; [done|]. intros ->. apply Hn. left.
        -- intros Hin. apply Hn. by right.
Qed.

Lemma runeString_nonempty n : runeString n <> EmptyString.
Proof. unfold runeString. repeat case_match; done. Qed.

Lemma lowerFirst_nonempty c : lowerFirst c <> EmptyString.
Proof. unfold lowerFirst. case_match; apply runeString_nonempty. Qed.

(** The first prefix of the loop receives the lowered first byte of its
    last segment. *)
Lemma assignAliases_first s L c r st' :
  assignAliases (s :: L) (mkAliasState ∅ ∅ 0) = Ok st' ->
  last (Split (sprefix s) ".") = Some (String c r) ->
  sprefix s ∉ map sprefix L ->
  aliases st' !! sprefix s = Some (lowerFirst c).
Proof.
  intros H Hl Hfresh. cbn [assignAliases] in H. rewrite Hl in H.
  assert (forall rounds, pickAlias rounds ∅ (lowerFirst c) 0 = (lowerFirst c, 0)) as Hp.
  { intros [|rounds]; simpl; rewrite bool_decide_eq_true_2; try done;
      apply not_elem_of_empty. }
  cbn [aliasIdx usedAliases aliases] in H. rewrite Hp in H.
  pose proof (lowerFirst_nonempty c) as Hne. apply String.eqb_neq in Hne.
  rewrite Hne in H. cbn [aliases] in H.
  rewrite map_size_insert_None in H by apply lookup_empty.
  rewrite map_size_empty in H. simpl in H.
  apply assignAliases_inv in H as (_ & _ & _ & Hkeep).
  - apply Hkeep; [|done]. simpl. by rewrite lookup_insert_eq.
  - split; simpl; [lia| | |].
    + intros p a [[<- <-]|[_ ?]]%lookup_insert_Some; [|done].
      apply elem_of_union. left. by apply elem_of_singleton.
    + intros p q a [[<- <-]|[_ ?]]%lookup_insert_Some [[<- _]|[_ ?]]%lookup_insert_Some;
        done.
    + intros p a [[<- <-]|[_ ?]]%lookup_insert_Some; [|done]. left. by exists c, r.
  - simpl. rewrite map_size_insert_None by apply lookup_empty. rewrite map_size_empty. lia.
Qed.

Lemma activeKeys_not_constant items k :
  k ∈ activeKeys (analyse items) -> tconstants (analyse items) !! k = None.
Proof.
  unfold analyse. simpl. unfold activeKeysOf, constantsOf.
  destruct (1 <? _); [|intros _; apply lookup_empty].
  intros [Hk _]%list_elem_of_filter. apply not_elem_of_list_to_map_1.
  rewrite <- list_fmap_compose. intros (k' & -> & [Hc _]%list_elem_of_filter)%list_elem_of_fmap.
  simpl in Hk. by destruct (isConstKey _ k').
Qed.

Definition serverFields : list StructField :=
  [mkField "Host" "host" ""; mkField "Name" "name" ""; mkField "Port" "port" ""].

Definition server (name : string) (port : Z) : value :=
  VStruct [(mkField "Server" "server" "",
            VStruct (zip serverFields [VString "h"; VString name; VInt port]))].

Definition servers : list value := [server "a" 1; server "b" 2].



Definition statusOf' (s : string) : value :=
  VStruct [(mkField "State" "state" "", VString s)].

Definition systemOf (pg redis : string) : value :=
  VStruct [(mkField "Infrastructure" "infrastructure" "",
            VStruct [(mkField "Postgres" "postgres" "", statusOf' pg);
                     (mkField "Redis" "redis" "", statusOf' redis)])].

Definition systems : list value := [systemOf "up" "up"; systemOf "down" "down"].


(** ** The layout of a tabular document *)

(** The parts of a decided column. *)
Definition colCode (d : string * columnStats * bool) : string := fst (fst d).
Definition colStats (d : string * columnStats * bool) : columnStats := snd (fst d).
Definition colSeq (d : string * columnStats * bool) : bool := snd d.

Lemma decideColumn_seq n st :
  colSeq (decideColumn n st) = true <-> colCode (decideColumn n st) = "i+"%string.
Proof.
  unfold decideColumn, colSeq, colCode.
  repeat case_match; simpl; split; try done; discriminate.
Qed.

Lemma skipped_from i ds j :
  skipped (skipIndicesFrom i ds) j =
    (i <=? j)%nat && default false (colSeq <$> ds !! (j - i)%nat).
Proof.
  unfold skipped. revert i. induction ds as [|[[code st] b0] ds IH]; intros i.
  - simpl. by rewrite andb_false_r.
  - assert (existsb (Nat.eqb j) (skipIndicesFrom i ((code, st, b0) :: ds)) =
            (b0 && Nat.eqb j i) || existsb (Nat.eqb j) (skipIndicesFrom (S i) ds)) as ->.
    { destruct b0; simpl; [|done]. done. }
    rewrite IH.
    destruct (Nat.eqb_spec j i) as [->|Hne].
    + rewrite Nat.leb_refl, Nat.sub_diag.
      assert ((S i <=? i)%nat = false) as -> by (apply Nat.leb_gt; lia).
      simpl. unfold colSeq. simpl. by destruct b0.
    + rewrite andb_false_r. rewrite orb_false_l.
      destruct (Nat.leb_spec i j) as [Hle|Hgt].
      * assert ((S i <=? j)%nat = true) as -> by (apply Nat.leb_le; lia).
        replace (j - i)%nat with (S (j - S i)) by lia. done.
      * assert ((S i <=? j)%nat = false) as -> by (apply Nat.leb_gt; lia). done.
Qed.

(** The tokens of a row are those of the columns outside [skipIndices]. *)
Lemma outRowFrom_live σ skips i ks ds row :
  length ks = length ds ->
  (forall j d, ds !! j = Some d -> skipped skips (i + j) = colSeq d) ->
  outRowFrom σ i skips (zip ks (map colStats ds)) row =
    map (fun kd => rowToken σ (colStats (snd kd)) (rowGet row (fst kd)))
      (filter (fun kd => colSeq (snd kd) = false) (zip ks ds)).
Proof.
  revert i ks. induction ds as [|d ds IH]; intros i [|k ks] Hlen Hsk; simpl in *;
    try done.
  pose proof (Hsk O d eq_refl) as H0. rewrite Nat.add_0_r in H0. rewrite H0.
  assert (outRowFrom σ (S i) skips (zip ks (map colStats ds)) row =
          map (fun kd => rowToken σ (colStats (snd kd)) (rowGet row (fst kd)))
            (filter (fun kd => colSeq (snd kd) = false) (zip ks ds))) as Hrest.
  { apply IH; [lia|]. intros j d' Hj. rewrite <- (Hsk (S j) d' Hj). f_equal. lia. }
  destruct (colSeq d) eqn:E.
  - rewrite filter_cons_False by (simpl; congruence). done.
  - rewrite filter_cons_True by done. simpl. by rewrite Hrest.
Qed.

Lemma allSkipped_spec t : allSkipped t = forallb colSeq (decided t).
Proof.
  unfold allSkipped, skipIndices.
  assert (length (activeKeys t) = length (decided t)) as ->.
  { unfold decided. by rewrite length_map. }
  generalize (decided t). intros ds.
  assert (forall pre suf, ds = pre ++ suf ->
            forallb (skipped (skipIndicesFrom 0 ds)) (seq (length pre) (length suf))
            = forallb colSeq suf) as H.
  { intros pre suf. revert pre. induction suf as [|d suf IH]; intros pre ->; [done|].
    simpl. rewrite skipped_from. simpl. rewrite Nat.sub_0_r.
    rewrite lookup_app_r, Nat.sub_diag by lia. simpl. f_equal.
    specialize (IH (pre ++ [d])). rewrite length_app, Nat.add_1_r in IH.
    apply IH. by rewrite <- app_assoc. }
  apply (H [] ds eq_refl).
Qed.

Lemma concat_lines r rs :
  String.concat EmptyString (map (fun x => x +:+ newline) (r :: rs)) =
    r +:+ newline +:+ String.concat EmptyString (map (fun x => x +:+ newline) rs).
Proof.
  cbn [map]. destruct rs as [|r' rs].
  - simpl. by rewrite sapp_nil_r.
  - cbn [String.concat map]. rewrite sapp_nil_l. by rewrite sapp_assoc.
Qed.

(** A text of lines, each ended by a newline, is the lines joined by
    newlines and a last newline. *)
Lemma Join_lines l rs :
  l <> [] ->
  Join (l ++ rs) newline +:+ newline =
    Join l newline +:+ newline
      +:+ String.concat EmptyString (map (fun x => x +:+ newline) rs).
Proof.
  revert l. induction rs as [|r rs IH]; intros l Hl.
  - rewrite app_nil_r. simpl. by rewrite sapp_nil_r.
  - rewrite concat_lines.
    replace (l ++ r :: rs) with ((l ++ [r]) ++ rs) by (by rewrite <- app_assoc).
    rewrite IH by (by destruct l). rewrite (Join_app l [r]) by done.
    simpl Join. by rewrite !sapp_assoc.
Qed.

Lemma sortStrings_sorted l : StronglySorted String.le (sortStrings l).
Proof. apply (StronglySorted_merge_sort String.le). Qed.

Lemma sortStrings_elem l k : k ∈ sortStrings l <-> k ∈ l.
Proof. unfold sortStrings. by rewrite merge_sort_Permutation. Qed.

Lemma enumIndex_nth keys i k idx :
  NoDup keys -> keys !! i = Some k ->
  enumIndex idx keys k = formatInt (idx + Z.of_nat i).
Proof.
  revert i idx. induction keys as [|e keys IH]; intros i idx Hnd Hi; [done|].
  apply NoDup_cons in Hnd as [He Hnd]. destruct i as [|i]; simpl in *.
  - injection Hi as ->. rewrite String.eqb_refl. f_equal. lia.
  - destruct (String.eqb_spec k e) as [->|Hne].
    + exfalso. apply He. by apply list_elem_of_lookup_2 in Hi.
    + rewrite (IH i (idx + 1)) by done. f_equal. lia.
Qed.

Lemma sortStrings_NoDup l : NoDup l -> NoDup (sortStrings l).
Proof. intros H. unfold sortStrings. by rewrite merge_sort_Permutation. Qed.

Lemma decideColumn_enumKeys n st :
  enumKeys st = [] -> indexed st = false ->
  NoDup (enumKeys (colStats (decideColumn n st))) /\
  (indexed (colStats (decideColumn n st)) = true ->
   isBoolKind (ckind (colStats (decideColumn n st))) = false /\
   enumKeys (colStats (decideColumn n st)) <> []).
Proof.
  intros He Hi. unfold decideColumn, colStats.
  assert (NoDup (sortStrings (filter (fun k => k <> "~"%string) (elements (uniqueVals st)))))
    as Hnd.
  { apply sortStrings_NoDup, NoDup_filter, NoDup_elements. }
  repeat case_match; simpl; rewrite ?He, ?Hi; (split; [done || constructor|]); try done.
  intros _. split; [done|]. intros E.
  match goal with H : (3 <=? _) = true |- _ => rewrite E in H; done end.
Qed.

Definition metricFields : list StructField :=
  [mkField "ID" "id" ""; mkField "Status" "status" ""].

Definition metric (id : Z) : value :=
  VStruct (zip metricFields [VInt id; VString "ok"]).

Definition metrics : list value := [metric 1; metric 2; metric 3].

(** C8, as the claim has it, fails on the place of the row count: it is
    the last token of the header line, after the constants and the columns
    (and no row line follows it). *)
Lemma encodeTabular_row_count_counterexample :
  Marshal defaultSchedule (ASlice TInt metrics) =
    Ok ("# @status=ok id:i+ +3" +:+ newline) /\
  "# @status=ok id:i+ +3" +:+ newline <> "# +3 @status=ok id:i+" +:+ newline.
Proof. split; [vm_compute; reflexivity|discriminate]. Qed.

Lemma rowLine_live σ t row :
  rowLine σ t row =
    Join (map (fun kd => rowToken σ (colStats (snd kd)) (rowGet row (fst kd)))
            (filter (fun kd => colSeq (snd kd) = false) (zip (activeKeys t) (decided t))))
      " ".
Proof.
  unfold rowLine. f_equal. apply (outRowFrom_live σ (skipIndices t) 0).
  - unfold decided. by rewrite length_map.
  - intros j d Hj. unfold skipIndices. rewrite skipped_from. simpl.
    rewrite Nat.sub_0_r, Hj. done.
Qed.

(** C8 (amended): the text of a tabular document is, line by line and each
    line ended by a newline: the alias-definition line when aliases were
    assigned; the header line, made of [#], the constant declarations by
    ascending path, the column specifications in the order of the active
    paths and, last, the row count [+N], present exactly when every active
    column is sequence-generated; and, unless the row count is there, one line
    per row with the tokens of the columns that are not sequence-generated, a
    boolean written 1 or 0 in a boolean column and an enum value written as
    its index in an indexed-enum column. *)
Theorem encodeTabular_layout (σ : schedule) (items : list value)
    (al : gmap string string) :
  items <> [] ->
  detectAliases σ (activeKeys (analyse items)) = Ok al ->
  let t := analyse items in
  let cks := sortStrings (elements (dom (tconstants t))) in
  let cols := zip (activeKeys t) (decided t) in
  let allSeq := forallb colSeq (decided t) in
  let header :=
    Join (["#"%string]
          ++ map (fun k => constantSpec (aliasedName σ al k)
                             (default None (tconstants t !! k))) cks
          ++ map (fun kd => columnSpec (aliasedName σ al (fst kd)) (colCode (snd kd))) cols
          ++ (if allSeq then ["+" +:+ formatInt (Z.of_nat (length items))] else []))
      " " in
  let live := filter (fun kd => colSeq (snd kd) = false) cols in
  let rowLines :=
    if allSeq then []
    else map (fun row =>
                Join (map (fun kd => rowToken σ (colStats (snd kd)) (rowGet row (fst kd)))
                        live) " ")
           (flattened t) in
  encodeTabular σ items = Ok (Join (aliasLines al ++ [header] ++ rowLines) newline +:+ newline) /\
  length (flattened t) = length items /\
  (aliasLines al = [] <-> al = ∅) /\
  StronglySorted String.le cks /\
  (forall k, k ∈ cks <-> is_Some (tconstants t !! k)) /\
  (forall kd, kd ∈ cols -> colSeq (snd kd) = true <-> colCode (snd kd) = "i+"%string) /\
  (forall kd b, kd ∈ cols -> isBoolKind (ckind (colStats (snd kd))) = true ->
     rowToken σ (colStats (snd kd)) (Some (VBool b)) = if b then "1"%string else "0"%string) /\
  (forall kd i k c, kd ∈ cols -> indexed (colStats (snd kd)) = true ->
     enumKeys (colStats (snd kd)) !! i = Some k -> serializeCell c = k ->
     rowToken σ (colStats (snd kd)) c = formatInt (Z.of_nat i)).
Proof.
  intros Hne Hal t cks cols allSeq header live rowLines.
  assert (forall kd, kd ∈ cols ->
            exists st, snd kd = decideColumn (tlength t) st /\ enumKeys st = [] /\
                       indexed st = false) as Hcols.
  { intros [k d] Hin. apply elem_of_zip_r in Hin. unfold decided in Hin.
    apply list_elem_of_fmap in Hin as (k' & -> & _).
    exists (statsOf (flattened t) k'). split; [done|].
    unfold statsOf. by destruct (fold_left _ _ _). }
  split; [|split; [|split; [|split; [|split; [|split; [|split]]]]]].
  - unfold encodeTabular.
    assert ((Z.of_nat (length items) =? 0) = false) as ->.
    { apply Z.eqb_neq. destruct items; [done|]. simpl. lia. }
    rewrite Hal. fold t. simpl. f_equal. unfold emit. rewrite allSkipped_spec. fold allSeq.
    assert (headerLineOf σ al t = header) as ->.
    { unfold headerLineOf, header, constParts, colParts, rowCountParts.
      rewrite allSkipped_spec. fold allSeq. fold cks. fold cols.
      assert ((0 <? tlength t) = true) as ->.
      { apply Z.ltb_lt. unfold t, analyse. simpl. destruct items; [done|]. simpl. lia. }
      rewrite andb_true_r. unfold t at 3, analyse. simpl. done. }
    unfold rowLines. destruct allSeq.
    + done.
    + assert (forall X, aliasLines al ++ header :: X = (aliasLines al ++ [header]) ++ X)
        as Hm by (intros; by rewrite <- app_assoc).
      rewrite (Hm (map _ (flattened t))).
      rewrite (Join_lines (aliasLines al ++ [header]))
        by (intros E; by apply app_eq_nil in E as [_ ?]).
      do 3 f_equal. rewrite map_map. apply map_ext. intros row.
      by rewrite rowLine_live.
  - unfold t, analyse. simpl. by rewrite length_map.
  - unfold aliasLines. destruct (0 <? Z.of_nat (size al)) eqn:E.
    + apply Z.ltb_lt in E. split; [done|]. intros ->. rewrite map_size_empty in E. lia.
    + apply Z.ltb_ge in E. split; [|done]. intros _. apply map_size_empty_iff. lia.
  - apply sortStrings_sorted.
  - intros k. unfold cks. rewrite sortStrings_elem, elem_of_elements, elem_of_dom. done.
  - intros kd Hin. destruct (Hcols kd Hin) as (st & -> & _). apply decideColumn_seq.
  - intros kd b Hin Hb. unfold rowToken. rewrite Hb. by destruct b.
  - intros kd i k c Hin Hix Hi <-. destruct (Hcols kd Hin) as (st & Hd & He & Hi0).
    rewrite Hd in *. destruct (decideColumn_enumKeys (tlength t) st He Hi0) as [Hnd Hx].
    destruct (Hx Hix) as [Hnb Hkeys]. unfold rowToken. rewrite Hnb, Hix.
    assert ((0 <? Z.of_nat (length (enumKeys (colStats (decideColumn (tlength t) st)))))
            = true) as ->.
    { apply Z.ltb_lt. destruct (enumKeys _); [done|]. simpl. lia. }
    cbn [andb]. by rewrite (enumIndex_nth _ i _ 0 Hnd Hi).
Qed.

Lemma encodeTabular_layout_witness :
  Marshal defaultSchedule (ASlice TInt metrics) =
    Ok ("# @status=ok id:i+ +3" +:+ newline).
Proof.
  destruct (encodeTabular_layout defaultSchedule metrics ∅ ltac:(discriminate)
              ltac:(vm_compute; reflexivity)) as [H _].
  unfold Marshal, encode. rewrite H. vm_compute. reflexivity.
Defined.

(** ** Round trip of flat records *)

(** *** Bytes and words of the wire format *)

(** A visible ASCII byte: no white space, no control byte and no byte of a
    multi-byte rune. *)
Definition isGraphic (c : ascii) : bool :=
  (33 <=? nat_of_ascii c)%nat && (nat_of_ascii c <=? 126)%nat.

Definition allBytes (p : ascii -> bool) (s : string) : bool :=
  forallb p (list_ascii_of_string s).

(** A word: what [strings.Fields] and the row tokenizer keep in one piece. *)
Definition graphic (s : string) : Prop :=
  s <> EmptyString /\ allBytes isGraphic s = true.

Lemma allBytes_cons p c s : allBytes p (String c s) = p c && allBytes p s.
Proof. reflexivity. Qed.

Lemma allBytes_app p a b : allBytes p (a +:+ b) = allBytes p a && allBytes p b.
Proof.
  induction a as [|c a IH]; [by rewrite sapp_nil_l|].
  rewrite sapp_cons, !allBytes_cons, IH. by rewrite andb_assoc.
Qed.

Lemma allBytes_impl (p q : ascii -> bool) s :
  (forall c, p c = true -> q c = true) -> allBytes p s = true -> allBytes q s = true.
Proof.
  intros Hpq. induction s as [|c s IH]; [done|].
  rewrite !allBytes_cons, !andb_true_iff. intros [? ?]. auto.
Qed.

Lemma find_all_false {A} (f : A -> bool) (l : list A) :
  Forall (fun x => f x = false) l -> List.find f l = None.
Proof. induction 1 as [|x l Hx _ IH]; [done|]. simpl. by rewrite Hx. Qed.

(** Every white-space rune starts with a byte that is not graphic, and ends
    with one. *)
Lemma spaceRunes_head :
  Forall (fun r => exists a r', r = String a r' /\ isGraphic a = false) spaceRunes.
Proof.
  unfold spaceRunes. simpl.
  repeat (constructor; [eexists _, _; split; reflexivity|]). constructor.
Qed.

Lemma spaceRunes_last :
  Forall (fun r => exists a r', String.rev r = String a r' /\ isGraphic a = false)
    spaceRunes.
Proof.
  unfold spaceRunes. simpl.
  repeat (constructor; [eexists _, _; split; reflexivity|]). constructor.
Qed.

Lemma graphic_eqb a c : isGraphic c = true -> isGraphic a = false -> Ascii.eqb a c = false.
Proof. intros Hc Ha. destruct (Ascii.eqb_spec a c); congruence. Qed.

Lemma spaceWidth_graphic c s : isGraphic c = true -> spaceWidth (String c s) = None.
Proof.
  intros Hc. unfold spaceWidth. rewrite find_all_false; [done|].
  eapply Forall_impl; [apply spaceRunes_head|].
  intros r (a & r' & -> & Ha). rewrite HasPrefix_cons.
  by rewrite (graphic_eqb a c Hc Ha).
Qed.

Lemma spaceWidthRev_graphic c s : isGraphic c = true -> spaceWidthRev (String c s) = None.
Proof.
  intros Hc. unfold spaceWidthRev. rewrite find_all_false; [done|].
  eapply Forall_impl; [apply spaceRunes_last|].
  intros r (a & r' & -> & Ha). rewrite HasPrefix_cons.
  by rewrite (graphic_eqb a c Hc Ha).
Qed.

Lemma spaceWidth_space s : spaceWidth (String " " s) = Some 1%nat.
Proof. reflexivity. Qed.

Lemma spaceWidthRev_newline s : spaceWidthRev (String "010" s) = Some 1%nat.
Proof. reflexivity. Qed.

(** [strings.Fields] gives back the words that were joined by single spaces. *)
Lemma fieldsGo_graphic tok rest cur :
  allBytes isGraphic tok = true ->
  fieldsGo (tok +:+ rest) 0 cur = fieldsGo rest 0 (cur +:+ tok).
Proof.
  revert cur. induction tok as [|c tok IH]; intros cur H.
  - by rewrite sapp_nil_l, sapp_nil_r.
  - rewrite allBytes_cons, andb_true_iff in H. destruct H as [Hc Htok].
    rewrite sapp_cons. cbn [fieldsGo]. rewrite (spaceWidth_graphic _ _ Hc).
    rewrite IH by done. by rewrite sapp_assoc.
Qed.

Lemma fieldsGo_space rest cur :
  fieldsGo (String " " rest) 0 cur = (flush cur ++ fieldsGo rest 0 EmptyString)%list.
Proof. cbn [fieldsGo]. by rewrite spaceWidth_space. Qed.

Lemma flush_graphic s : s <> EmptyString -> flush s = [s].
Proof. by destruct s. Qed.

Lemma Fields_Join toks : Forall graphic toks -> Fields (Join toks " ") = toks.
Proof.
  unfold Fields. induction 1 as [|x l [Hne Hx] Hl IH]; [done|].
  destruct l as [|y l].
  - simpl. rewrite <- (sapp_nil_r x) at 1. rewrite fieldsGo_graphic by done.
    rewrite sapp_nil_l. simpl. by apply flush_graphic.
  - rewrite Join_cons, fieldsGo_graphic by done. rewrite sapp_nil_l.
    rewrite sapp_cons, sapp_nil_l, fieldsGo_space, IH.
    by rewrite flush_graphic.
Qed.

(** *** Reversal and [strings.TrimSpace] *)

Lemma rev_app_app s t acc :
  String.rev_app (s +:+ t) acc = String.rev_app t (String.rev_app s acc).
Proof.
  revert acc. induction s as [|c s IH]; intros acc; [by rewrite sapp_nil_l|].
  rewrite sapp_cons. simpl. apply IH.
Qed.

Lemma rev_app_rev s acc acc' :
  String.rev_app (String.rev_app s acc) acc' = String.rev_app acc (s +:+ acc').
Proof.
  revert acc acc'. induction s as [|c s IH]; intros acc acc'; [by rewrite sapp_nil_l|].
  simpl. rewrite IH. simpl. by rewrite sapp_cons.
Qed.

Lemma rev_involutive s : String.rev (String.rev s) = s.
Proof. unfold String.rev. rewrite rev_app_rev. simpl. apply sapp_nil_r. Qed.

Lemma rev_snoc s c : String.rev (s +:+ String c EmptyString) = String c (String.rev s).
Proof. unfold String.rev. by rewrite rev_app_app. Qed.

(** A line of the document: it starts and ends with a graphic byte. *)
Definition edged (s : string) : Prop :=
  (exists c r, s = String c r /\ isGraphic c = true) /\
  (exists r c, s = r +:+ String c EmptyString /\ isGraphic c = true).

Lemma graphic_edged s : graphic s -> edged s.
Proof.
  intros [Hne H]. split.
  - destruct s as [|c r]; [done|]. exists c, r. split; [done|].
    rewrite allBytes_cons in H. by apply andb_true_iff in H as [? _].
  - revert H Hne. induction s as [|c s IH]; [done|].
    rewrite allBytes_cons, andb_true_iff. intros [Hc Hs] _.
    destruct s as [|d s].
    + exists EmptyString, c. by rewrite sapp_nil_l.
    + destruct (IH Hs) as (r & e & -> & He); [done|].
      exists (String c r), e. by rewrite sapp_cons.
Qed.

Lemma edged_app a x b : edged a -> edged b -> edged (a +:+ x +:+ b).
Proof.
  intros [(c & r & -> & Hc) _] [_ (r' & d & -> & Hd)]. split.
  - exists c, (r +:+ x +:+ r' +:+ String d EmptyString). by rewrite sapp_cons.
  - exists (String c r +:+ x +:+ r'), d. by rewrite !sapp_assoc.
Qed.

Lemma edged_nonempty s : edged s -> s <> EmptyString.
Proof. by intros [(c & r & -> & _) _]. Qed.

Lemma trimWith_graphic_head c r :
  isGraphic c = true -> trimWith spaceWidth (String c r) 0 = String c r.
Proof. intros Hc. cbn [trimWith]. by rewrite spaceWidth_graphic. Qed.

Lemma trimWith_graphic_last c r :
  isGraphic c = true -> trimWith spaceWidthRev (String c r) 0 = String c r.
Proof. intros Hc. cbn [trimWith]. by rewrite spaceWidthRev_graphic. Qed.

Lemma TrimSpace_edged s : edged s -> TrimSpace s = s.
Proof.
  intros [(c & r & E & Hc) (r' & d & E' & Hd)]. unfold TrimSpace.
  rewrite E, trimWith_graphic_head by done. rewrite <- E, E', rev_snoc.
  rewrite trimWith_graphic_last by done. by rewrite <- rev_snoc, rev_involutive.
Qed.

Lemma TrimSpace_edged_newline s : edged s -> TrimSpace (s +:+ newline) = s.
Proof.
  intros [(c & r & E & Hc) (r' & d & E' & Hd)]. unfold TrimSpace.
  rewrite E, sapp_cons, trimWith_graphic_head by done.
  rewrite <- sapp_cons, <- E. unfold newline. rewrite rev_snoc.
  cbn [trimWith]. rewrite spaceWidthRev_newline.
  rewrite E', rev_snoc. rewrite trimWith_graphic_last by done.
  by rewrite <- rev_snoc, rev_involutive.
Qed.

(** *** The row tokenizer on the tokens the encoder writes *)

Definition isQuotable (c : ascii) : bool :=
  negb (Ascii.eqb c dquote) && negb (Ascii.eqb c "\").

(** What is written for a token, and what [tokenizeRow] returns for it: a
    word that opens neither a quoted nor a bracketed token stands for itself,
    and a quoted token stands for what is between its quotes. *)
Inductive wired : string -> string -> Prop :=
| wired_plain c r :
    allBytes isGraphic (String c r) = true -> c <> dquote -> c <> "["%char ->
    wired (String c r) (String c r)
| wired_quoted s :
    allBytes isQuotable s = true -> wired (quote +:+ s +:+ quote) s.

Lemma graphic_neq c a : isGraphic c = true -> isGraphic a = false -> Ascii.eqb c a = false.
Proof. intros Hc Ha. destruct (Ascii.eqb_spec c a); congruence. Qed.

Lemma tokenizeFrom_plain tok rest cur acc :
  allBytes isGraphic tok = true ->
  tokenizeFrom (tok +:+ rest) (Plain cur) acc = tokenizeFrom rest (Plain (cur +:+ tok)) acc.
Proof.
  revert cur. induction tok as [|c tok IH]; intros cur H.
  - by rewrite sapp_nil_l, sapp_nil_r.
  - rewrite allBytes_cons, andb_true_iff in H. destruct H as [Hc Htok].
    rewrite sapp_cons. cbn [tokenizeFrom].
    rewrite (graphic_neq c " " Hc) by done.
    rewrite IH by done. unfold snoc. by rewrite sapp_assoc.
Qed.

Lemma tokenizeFrom_quoted tok rest cur acc :
  allBytes isQuotable tok = true ->
  tokenizeFrom (tok +:+ rest) (Quoted cur) acc = tokenizeFrom rest (Quoted (cur +:+ tok)) acc.
Proof.
  revert cur. induction tok as [|c tok IH]; intros cur H.
  - by rewrite sapp_nil_l, sapp_nil_r.
  - rewrite allBytes_cons, andb_true_iff in H. destruct H as [Hc Htok].
    unfold isQuotable in Hc. rewrite andb_true_iff, !negb_true_iff in Hc.
    destruct Hc as [Hq Hb].
    rewrite sapp_cons. cbn [tokenizeFrom]. rewrite Hq, Hb.
    rewrite IH by done. unfold snoc. by rewrite sapp_assoc.
Qed.

Lemma tokenizeFrom_open c rest acc :
  isGraphic c = true -> c <> dquote -> c <> "["%char ->
  tokenizeFrom (String c rest) Between acc =
    tokenizeFrom rest (Plain (String c EmptyString)) acc.
Proof.
  intros Hc Hq Hb. cbn [tokenizeFrom].
  rewrite (graphic_neq c " " Hc) by done.
  apply Ascii.eqb_neq in Hq, Hb. by rewrite Hq, Hb.
Qed.

Lemma tokenizeFrom_quote_open rest acc :
  tokenizeFrom (String dquote rest) Between acc = tokenizeFrom rest (Quoted EmptyString) acc.
Proof. reflexivity. Qed.

Lemma tokenizeFrom_quote_close rest cur acc :
  tokenizeFrom (String dquote rest) (Quoted cur) acc = tokenizeFrom rest Between (acc ++ [cur]).
Proof. reflexivity. Qed.

Lemma wired_step w t rest acc :
  wired w t ->
  tokenizeFrom (w +:+ String " " rest) Between acc = tokenizeFrom rest Between (acc ++ [t]).
Proof.
  intros [c r H Hq Hb|s H].
  - rewrite allBytes_cons, andb_true_iff in H. destruct H as [Hc Hr].
    rewrite sapp_cons, tokenizeFrom_open, tokenizeFrom_plain by done.
    by rewrite sapp_cons, sapp_nil_l.
  - unfold quote. rewrite !sapp_cons, sapp_nil_l, tokenizeFrom_quote_open.
    rewrite sapp_assoc, tokenizeFrom_quoted by done.
    by rewrite sapp_nil_l, sapp_cons, sapp_nil_l, tokenizeFrom_quote_close.
Qed.

Lemma wired_end w t acc :
  wired w t -> tokenizeFrom w Between acc = Ok (acc ++ [t]).
Proof.
  intros [c r H Hq Hb|s H].
  - rewrite allBytes_cons, andb_true_iff in H. destruct H as [Hc Hr].
    rewrite tokenizeFrom_open by done.
    rewrite <- (sapp_nil_r r) at 1. rewrite tokenizeFrom_plain by done.
    by rewrite sapp_cons, sapp_nil_l.
  - unfold quote. rewrite !sapp_cons, sapp_nil_l, tokenizeFrom_quote_open.
    rewrite tokenizeFrom_quoted by done.
    by rewrite sapp_nil_l, tokenizeFrom_quote_close.
Qed.

Lemma tokenizeFrom_Join ws ts acc :
  Forall2 wired ws ts -> tokenizeFrom (Join ws " ") Between acc = Ok (acc ++ ts).
Proof.
  intros H. revert acc. induction H as [|w t ws ts Hw Hws IH]; intros acc.
  - by rewrite app_nil_r.
  - destruct ws as [|w' ws].
    + apply Forall2_nil_inv_l in Hws as ->. by apply wired_end.
    + rewrite Join_cons, sapp_cons, sapp_nil_l, (wired_step w t) by done.
      rewrite IH. by rewrite <- app_assoc.
Qed.

Lemma tokenizeRow_Join ws ts :
  Forall2 wired ws ts -> tokenizeRow (Join ws " ") = Ok ts.
Proof. intros H. unfold tokenizeRow. by rewrite (tokenizeFrom_Join ws ts []). Qed.

(** *** The scanner on the lines the encoder writes *)

Definition isLineByte (c : ascii) : bool := negb (Ascii.eqb c "010").

Lemma IndexAny_none s chars :
  allBytes (fun a => negb (existsb (Ascii.eqb a) chars)) s = true -> IndexAny s chars = None.
Proof.
  induction s as [|c s IH]; [done|].
  rewrite allBytes_cons, andb_true_iff, negb_true_iff. intros [Hc Hs].
  simpl. by rewrite Hc, IH.
Qed.

Lemma Index_none s c :
  allBytes (fun a => negb (Ascii.eqb a c)) s = true -> Index s c = None.
Proof.
  intros H. apply IndexAny_none. revert H. apply allBytes_impl.
  intros a. simpl. by rewrite orb_false_r.
Qed.

Lemma dropCR_edged l : edged l -> dropCR l = l.
Proof.
  intros [_ (r & d & -> & Hd)]. unfold dropCR. rewrite rev_snoc.
  destruct d as [[] [] [] [] [] [] [] []]; try reflexivity; discriminate.
Qed.

Lemma dropLastEmpty_lines lines :
  Forall (fun l => l <> EmptyString) lines -> dropLastEmpty lines = lines.
Proof.
  intros H. unfold dropLastEmpty.
  destruct (List.rev lines) as [|x r] eqn:E; [done|].
  destruct x; [|done]. exfalso.
  rewrite Forall_forall in H. apply (H EmptyString); [|done].
  apply list_elem_of_In, in_rev. rewrite E. by left.
Qed.

Lemma scannable_lines lines :
  Forall (fun l => len l < MaxScanTokenSize) lines -> scannable lines = lines.
Proof.
  induction 1 as [|x l Hx _ IH]; [done|]. simpl.
  apply Z.ltb_lt in Hx. by rewrite Hx, IH.
Qed.

Lemma scanLines_lines lines :
  lines <> [] ->
  Forall edged lines ->
  Forall (fun l => allBytes isLineByte l = true) lines ->
  Forall (fun l => len l < MaxScanTokenSize) lines ->
  scanLines (Join lines newline) = lines.
Proof.
  intros Hne He Hnl Hlen. unfold scanLines, newline.
  rewrite Split_Join; [|done|].
  2:{ eapply Forall_impl; [exact Hnl|]. intros l. apply Index_none. }
  rewrite dropLastEmpty_lines.
  2:{ eapply Forall_impl; [exact He|]. intros l. apply edged_nonempty. }
  rewrite scannable_lines by done.
  clear Hne Hnl Hlen. induction He as [|l ls Hl _ IH]; [done|].
  simpl. by rewrite dropCR_edged, IH.
Qed.

(** *** Slices of a header token *)

Lemma IndexAny_app k c rest chars :
  allBytes (fun a => negb (existsb (Ascii.eqb a) chars)) k = true ->
  existsb (Ascii.eqb c) chars = true ->
  IndexAny (k +:+ String c rest) chars = Some (String.length k).
Proof.
  intros Hk Hc. induction k as [|a k IH].
  - rewrite sapp_nil_l. simpl. by rewrite Hc.
  - rewrite allBytes_cons, andb_true_iff, negb_true_iff in Hk.
    destruct Hk as [Ha Hk]. rewrite sapp_cons. simpl. by rewrite Ha, IH.
Qed.

Lemma sliceTo_app k r : sliceTo (k +:+ r) (String.length k) = Some k.
Proof.
  induction k as [|a k IH]; [rewrite sapp_nil_l; by destruct r|].
  rewrite sapp_cons. simpl. by rewrite IH.
Qed.

Lemma sliceFrom_app k r : sliceFrom (k +:+ r) (String.length k) = Some r.
Proof.
  induction k as [|a k IH]; [rewrite sapp_nil_l; by destruct r|].
  rewrite sapp_cons. simpl. by rewrite IH.
Qed.

(** *** The records covered by the round trip

    Field names are made of ASCII letters, digits and underscores.  A string
    value is made of printable ASCII bytes other than the underscore, the
    double quote, the backslash and the bar; it is not empty, does not start
    with a bracket or a brace, and is not a text that [parsePrimitive] reads
    as something else than a string. *)

Definition isNameByte (c : ascii) : bool :=
  let n := nat_of_ascii c in
  (((48 <=? n) && (n <=? 57)) || ((65 <=? n) && (n <=? 90))
   || ((97 <=? n) && (n <=? 122)) || (n =? 95))%nat.

Definition safeName (n : string) : bool :=
  negb (String.eqb n "") && allBytes isNameByte n.

Definition isTextByte (c : ascii) : bool :=
  (32 <=? nat_of_ascii c)%nat && (nat_of_ascii c <=? 126)%nat
  && negb (Ascii.eqb c "_") && negb (Ascii.eqb c dquote)
  && negb (Ascii.eqb c "\") && negb (Ascii.eqb c "|").

(** The texts that [parsePrimitive] does not read as a string. *)
Definition reserved (s : string) : bool :=
  String.eqb s "~" || String.eqb s "y" || String.eqb s "n"
  || String.eqb s "true" || String.eqb s "false" || snd (Atoi s).

Definition safeString (s : string) : bool :=
  negb (String.eqb s "") && allBytes isTextByte s
  && negb (HasPrefix s "[") && negb (HasPrefix s "{") && negb (reserved s).

Inductive safeCell : type -> value -> Prop :=
| safe_bool b : safeCell TBool (VBool b)
| safe_int n : minInt <= n <= maxInt -> safeCell TInt (VInt n)
| safe_string s : safeString s = true -> safeCell TString (VString s)
| safe_nil e : safeCell (TPtr e) (VNil e).

(** A record of the struct type with the given fields. *)
Definition flatRecord (fields : list (StructField * type)) (item : value) : Prop :=
  exists fvs, item = VStruct fvs /\
    Forall2 (fun ft fv => fst fv = fst ft /\ safeCell (snd ft) (snd fv)) fields fvs.

(** Every field is exposed under a safe name, and is the field the decoder
    finds under that name. *)
Record flatSchema (fields : list (StructField * type)) : Prop := mkFlatSchema {
  schema_names : Forall (fun ft => safeName (exposedName (fst ft)) = true) fields;
  schema_found : forall i f t,
    fields !! i = Some (f, t) -> findField fields (exposedName f) = Some i
}.

(** The form of a string on the wire. *)
Definition under (s : string) : string := ReplaceAll s " " "_".

(** *** Bytes *)

Ltac by_bytes c :=
  destruct c as [[] [] [] [] [] [] [] []]; try discriminate; reflexivity.

Lemma nameByte_graphic c : isNameByte c = true -> isGraphic c = true.
Proof. by_bytes c. Qed.

Lemma nameByte_plain c :
  isNameByte c = true ->
  negb (existsb (Ascii.eqb c) ["+"; "@"; "%"; ":"; "="; "!"; "."; " "]%char) = true.
Proof. by_bytes c. Qed.

Lemma textByte_under c :
  isTextByte c = true ->
  Ascii.eqb c " " = false ->
  isGraphic c = true.
Proof. by_bytes c. Qed.

Lemma textByte_plain c :
  isTextByte c = true ->
  negb (existsb (Ascii.eqb c) ["_"; dquote; "\"; "|"; "010"]%char) = true.
Proof. by_bytes c. Qed.

Lemma intByte_graphic c : isIntByte c = true -> isGraphic c = true.
Proof. by_bytes c. Qed.

Lemma intByte_plain c :
  isIntByte c = true ->
  negb (existsb (Ascii.eqb c) ["_"; dquote; "["; "{"; "|"; "010"; "~"; "y"; "n"]%char) = true.
Proof. by_bytes c. Qed.

Lemma numeralByte_plain c :
  isDigit c || Ascii.eqb c "+" || Ascii.eqb c "-" = true -> Ascii.eqb c "_" = false.
Proof. by_bytes c. Qed.

(** *** Replacement *)

Lemma ReplaceAll_cons c s old new :
  ReplaceAll (String c s) old new =
    (if Ascii.eqb c old then new else String c EmptyString) +:+ ReplaceAll s old new.
Proof. reflexivity. Qed.

Lemma ReplaceAll_absent s old new :
  allBytes (fun a => negb (Ascii.eqb a old)) s = true -> ReplaceAll s old new = s.
Proof.
  induction s as [|c s IH]; [done|].
  rewrite allBytes_cons, andb_true_iff, negb_true_iff. intros [Hc Hs].
  rewrite ReplaceAll_cons, Hc, IH by done. by rewrite sapp_cons, sapp_nil_l.
Qed.

Lemma under_cons c s :
  under (String c s) = String (if Ascii.eqb c " " then "_"%char else c) (under s).
Proof.
  unfold under. rewrite ReplaceAll_cons.
  destruct (Ascii.eqb c " "); by rewrite sapp_cons, sapp_nil_l.
Qed.

Lemma under_restore s :
  allBytes (fun a => negb (Ascii.eqb a "_")) s = true -> ReplaceAll (under s) "_" " " = s.
Proof.
  induction s as [|c s IH]; [done|].
  rewrite allBytes_cons, andb_true_iff, negb_true_iff. intros [Hc Hs].
  rewrite under_cons, ReplaceAll_cons, IH by done.
  destruct (Ascii.eqb_spec c " ") as [->|Hsp].
  - by rewrite Ascii.eqb_refl, sapp_cons, sapp_nil_l.
  - by rewrite Hc, sapp_cons, sapp_nil_l.
Qed.

Lemma under_bytes (p : ascii -> bool) s :
  p "_"%char = true ->
  (forall c, isTextByte c = true -> Ascii.eqb c " " = false -> p c = true) ->
  allBytes isTextByte s = true -> allBytes p (under s) = true.
Proof.
  intros Hu Hp. induction s as [|c s IH]; [done|].
  rewrite allBytes_cons, andb_true_iff. intros [Hc Hs].
  rewrite under_cons, allBytes_cons, IH by done. rewrite andb_true_r.
  destruct (Ascii.eqb c " ") eqn:E; auto.
Qed.

Lemma under_spaced s :
  allBytes (fun a => negb (Ascii.eqb a " ")) s = false ->
  allBytes (fun a => negb (Ascii.eqb a "_")) (under s) = false.
Proof.
  induction s as [|c s IH]; [done|].
  rewrite under_cons, !allBytes_cons, !andb_false_iff, !negb_false_iff.
  intros [Hc|Hs]; [left|right; auto]. by rewrite Hc.
Qed.

Lemma under_length s : String.length (under s) = String.length s.
Proof. induction s as [|c s IH]; [done|]. rewrite under_cons. simpl. by rewrite IH. Qed.

(** *** Reserved texts *)

Lemma isNumeral_bytes x :
  isNumeral x = true -> allBytes (fun a => negb (Ascii.eqb a "_")) x = true.
Proof.
  assert (Hd : forall r, forallb isDigit (list_ascii_of_string r) = true ->
                         allBytes (fun a => negb (Ascii.eqb a "_")) r = true).
  { intros r. apply allBytes_impl. intros c Hc. apply negb_true_iff.
    apply numeralByte_plain. by rewrite Hc. }
  unfold isNumeral. destruct x as [|c r]; [done|].
  destruct (ascii_dec c "+") as [->|Hp].
  { rewrite andb_true_iff. intros [_ H]. rewrite allBytes_cons. by rewrite Hd. }
  destruct (ascii_dec c "-") as [->|Hm].
  { rewrite andb_true_iff. intros [_ H]. rewrite allBytes_cons. by rewrite Hd. }
  assert (E : forall (A : Type) (x y : A),
    match c with
    | "+"%char => x
    | "-"%char => x
    | _ => y
    end = y).
  { intros A x y. destruct c as [[] [] [] [] [] [] [] []]; try reflexivity; congruence. }
  rewrite E. rewrite andb_true_iff. intros [_ H]. by apply Hd.
Qed.

Lemma reserved_bytes x :
  reserved x = true -> allBytes (fun a => negb (Ascii.eqb a "_")) x = true.
Proof.
  unfold reserved. rewrite !orb_true_iff, !String.eqb_eq.
  intros [[[[[->| ->]| ->]| ->]| ->]|H]; try reflexivity.
  apply isNumeral_bytes. rewrite Atoi_spec in H.
  destruct (isNumeral x); [done|]. by destruct (overflows x).
Qed.

Lemma under_reserved s : reserved s = false -> reserved (under s) = false.
Proof.
  intros H. destruct (allBytes (fun a => negb (Ascii.eqb a " ")) s) eqn:E.
  - unfold under. by rewrite ReplaceAll_absent.
  - apply under_spaced in E. destruct (reserved (under s)) eqn:R; [|done].
    apply reserved_bytes in R. congruence.
Qed.

(** *** Reading a value back *)

(** The text [valStr] of a column of type [typ] is assigned to a field of
    type [t] as the value [v]. *)
Definition reads (typ valStr : string) (t : type) (v : value) : Prop :=
  HasPrefix valStr "{" = false /\ convert (parsePrimitive valStr typ) t = Some v.

Lemma HasPrefix_eqb s p : HasPrefix s p = false -> String.eqb s p = false.
Proof.
  intros H. apply String.eqb_neq. intros ->.
  assert (HasPrefix p p = true); [|congruence].
  apply HasPrefix_spec. exists EmptyString. by rewrite sapp_nil_r.
Qed.

Lemma reads_flag (b : bool) : reads "b" (if b then "1" else "0") TBool (VBool b).
Proof. by destruct b. Qed.

Lemma reads_yn (b : bool) : reads "auto" (if b then "y" else "n") TBool (VBool b).
Proof. by destruct b. Qed.

Lemma reads_int typ n :
  typ = "i"%string \/ typ = "i+"%string \/ typ = "auto"%string ->
  minInt <= n <= maxInt ->
  reads typ (formatInt n) TInt (VInt n).
Proof.
  intros Htyp Hn. split; [by apply formatInt_head|].
  unfold parsePrimitive. rewrite formatInt_not_tilde, (Atoi_formatInt n Hn).
  destruct Htyp as [->|[->| ->]]; try reflexivity.
  change (String.eqb "auto" "i" || String.eqb "auto" "i+") with false.
  change (String.eqb "auto" "b") with false. cbv iota.
  rewrite (HasPrefix_eqb _ "y"), (HasPrefix_eqb _ "n") by by apply formatInt_head.
  reflexivity.
Qed.

Lemma reads_string typ x s :
  String.eqb typ "i" || String.eqb typ "i+" || String.eqb typ "b" = false ->
  reserved x = false -> HasPrefix x "{" = false -> ReplaceAll x "_" " " = s ->
  reads typ x TString (VString s).
Proof.
  intros Htyp Hr Hb <-. split; [done|].
  unfold reserved in Hr.
  apply orb_false_iff in Hr as [Hr H6]. apply orb_false_iff in Hr as [Hr H5].
  apply orb_false_iff in Hr as [Hr H4]. apply orb_false_iff in Hr as [Hr H3].
  apply orb_false_iff in Hr as [H1 H2].
  apply orb_false_iff in Htyp as [Htyp T3]. apply orb_false_iff in Htyp as [T1 T2].
  unfold parsePrimitive. by rewrite H1, T1, T2, T3, H2, H3, H6, H4, H5.
Qed.

(** *** Assigning a field of a flat record *)

Lemma findField_fst {A B} (fs : list (StructField * A)) (gs : list (StructField * B)) k :
  map fst fs = map fst gs -> findField fs k = findField gs k.
Proof.
  revert gs. induction fs as [|[f a] fs IH]; intros [|[g b'] gs] E; try done.
  simpl in E. injection E as -> E. simpl. by rewrite (IH gs E).
Qed.

Lemma setDeepField_reads fs k typ valStr i f fv v :
  dotFree k -> findField fs k = Some i -> fs !! i = Some (f, fv) ->
  reads typ valStr (typeOf fv) v ->
  setDeepField (VStruct fs) k typ valStr = (VStruct (<[i := (f, v)]> fs), Done).
Proof.
  intros Hk Hf Hi [Hb Hc].
  unfold setDeepField, setDeepFieldWith. rewrite (Split_no_sep k "." Hk).
  cbn [walk derefWith].
  destruct (String.length valStr); cbn [setFieldFuel derefWith];
    rewrite Hf, Hi, Hb;
    destruct (parsePrimitive valStr typ); try done; by rewrite Hc.
Qed.

(** *** The header tokens, read back *)

Lemma nameByte_sep c :
  isNameByte c = true -> negb (existsb (Ascii.eqb c) [":"; "="; "!"]%char) = true.
Proof. by_bytes c. Qed.

Lemma nameByte_dot c : isNameByte c = true -> negb (Ascii.eqb c ".") = true.
Proof. by_bytes c. Qed.

Lemma nameByte_space c : isNameByte c = true -> negb (Ascii.eqb c " ") = true.
Proof. by_bytes c. Qed.

Lemma nameByte_head c :
  isNameByte c = true ->
  Ascii.eqb "+" c = false /\ Ascii.eqb "@" c = false /\ Ascii.eqb "%" c = false.
Proof. destruct c as [[] [] [] [] [] [] [] []]; try discriminate; done. Qed.

Lemma safeName_inv k :
  safeName k = true ->
  exists c r, k = String c r /\ isNameByte c = true /\ allBytes isNameByte k = true.
Proof.
  unfold safeName. rewrite andb_true_iff. intros [Hne Hk].
  destruct k as [|c r]; [done|]. exists c, r. split; [done|]. split; [|done].
  rewrite allBytes_cons in Hk. by apply andb_true_iff in Hk as [? _].
Qed.

Lemma safeName_graphic k : safeName k = true -> graphic k.
Proof.
  intros H. destruct (safeName_inv k H) as (c & r & -> & _ & Hk). split; [done|].
  revert Hk. apply allBytes_impl, nameByte_graphic.
Qed.

Lemma safeName_dotFree k : safeName k = true -> dotFree k.
Proof.
  intros H. destruct (safeName_inv k H) as (c & r & _ & _ & Hk).
  apply Index_none. revert Hk. apply allBytes_impl, nameByte_dot.
Qed.

Lemma safeName_under k : safeName k = true -> ReplaceAll k " " "_" = k.
Proof.
  intros H. destruct (safeName_inv k H) as (c & r & _ & _ & Hk).
  apply ReplaceAll_absent. revert Hk. apply allBytes_impl, nameByte_space.
Qed.

Lemma aliasedName_safe σ k : admissible σ -> safeName k = true -> aliasedName σ ∅ k = k.
Proof. intros Hσ Hk. unfold aliasedName. by rewrite applyAlias_empty, safeName_under. Qed.

(** The header field the decoder builds from the token [name sp suffix] of a
    column, and from the token [@name sp suffix] of a constant. *)
Definition columnFieldOf (k : string) (sp : ascii) (suffix : string) : headerField :=
  if Ascii.eqb sp "=" then mkHeaderField k "s" EmptyString false (Split suffix "|")
  else if Ascii.eqb sp "!" then mkHeaderField k "s" EmptyString true (Split suffix "|")
  else mkHeaderField k suffix EmptyString false [].

Definition constantFieldOf (k : string) (sp : ascii) (suffix : string) : headerField :=
  if Ascii.eqb sp "=" then mkHeaderField k "s" (ReplaceAll suffix "_" " ") false []
  else mkHeaderField k "inferred" suffix false [].

Definition isSep (c : ascii) : bool := existsb (Ascii.eqb c) [":"; "="; "!"]%char.

Lemma headerPart_column k sp suffix h :
  safeName k = true -> isSep sp = true ->
  headerPart ∅ (k +:+ String sp suffix) h =
    Ok (mkHeader (headers h ++ [columnFieldOf k sp suffix]) (constants h) (explicitRows h)).
Proof.
  intros Hk Hsp. destruct (safeName_inv k Hk) as (c & r & E & Hc & Hall).
  destruct (nameByte_head c Hc) as (H1 & H2 & H3).
  unfold headerPart.
  assert (HasPrefix (k +:+ String sp suffix) "+" = false) as ->.
  { by rewrite E, sapp_cons, HasPrefix_cons, H1. }
  assert (HasPrefix (k +:+ String sp suffix) "@" = false) as ->.
  { by rewrite E, sapp_cons, HasPrefix_cons, H2. }
  cbn [mbind outcome_bind].
  rewrite (IndexAny_app k sp suffix [":"; "="; "!"]%char);
    [|revert Hall; apply allBytes_impl, nameByte_sep|exact Hsp].
  rewrite sliceTo_app, sliceFrom_app. cbn [orPanic mbind outcome_bind].
  unfold unalias.
  assert (HasPrefix k "%" = false) as -> by (by rewrite E, HasPrefix_cons, H3).
  cbn [mbind outcome_bind]. unfold columnFieldOf.
  by destruct (Ascii.eqb sp "="), (Ascii.eqb sp "!").
Qed.

Lemma headerPart_constant k sp suffix h :
  safeName k = true -> isSep sp = true ->
  headerPart ∅ ("@" +:+ k +:+ String sp suffix) h =
    Ok (mkHeader (headers h) (constants h ++ [constantFieldOf k sp suffix]) (explicitRows h)).
Proof.
  intros Hk Hsp. destruct (safeName_inv k Hk) as (c & r & E & Hc & Hall).
  destruct (nameByte_head c Hc) as (H1 & H2 & H3).
  unfold headerPart. rewrite sapp_cons, sapp_nil_l.
  change (HasPrefix (String "@" (k +:+ String sp suffix)) "+") with false.
  assert (HasPrefix (String "@" (k +:+ String sp suffix)) "@" = true) as ->.
  { by rewrite HasPrefix_cons, HasPrefix_nil. }
  assert (forall x, sliceFrom (String "@" x) 1 = Some x) as -> by (by intros []).
  cbn [orPanic mbind outcome_bind].
  rewrite (IndexAny_app k sp suffix [":"; "="; "!"]%char);
    [|revert Hall; apply allBytes_impl, nameByte_sep|exact Hsp].
  rewrite sliceTo_app, sliceFrom_app. cbn [orPanic mbind outcome_bind].
  unfold unalias.
  assert (HasPrefix k "%" = false) as -> by (by rewrite E, HasPrefix_cons, H3).
  cbn [mbind outcome_bind]. unfold constantFieldOf.
  by destruct (Ascii.eqb sp "=").
Qed.

Lemma headerPart_count n h :
  minInt <= n <= maxInt ->
  headerPart ∅ ("+" +:+ formatInt n) h = Ok (mkHeader (headers h) (constants h) n).
Proof.
  intros Hn. unfold headerPart. rewrite sapp_cons, sapp_nil_l.
  assert (HasPrefix (String "+" (formatInt n)) "+" = true) as ->.
  { by rewrite HasPrefix_cons, HasPrefix_nil. }
  assert (forall x, sliceFrom (String "+" x) 1 = Some x) as -> by (by intros []).
  cbn [orPanic mbind outcome_bind]. by rewrite (Atoi_formatInt n Hn).
Qed.

Lemma headerParts_app al a b h :
  headerParts al (a ++ b) h = (h' ← headerParts al a h; headerParts al b h').
Proof.
  revert h. induction a as [|p a IH]; intros h; [done|].
  simpl. destruct (headerPart al p h); simpl; [apply IH|done|done].
Qed.

(** The separator and the suffix of a column token. *)
Definition sepOf (code : string) : ascii * string :=
  match code with
  | String c keys =>
      if Ascii.eqb "=" c || Ascii.eqb "!" c then (c, keys) else (":"%char, code)
  | EmptyString => (":"%char, code)
  end.

Definition columnField (k code : string) : headerField :=
  columnFieldOf k (fst (sepOf code)) (snd (sepOf code)).

Definition constantSep (c : cell) : ascii :=
  match c with Some (VString _) => "="%char | _ => ":"%char end.

Definition constantText (c : cell) : string :=
  match c with
  | Some (VBool true) => "y"
  | Some (VBool false) => "n"
  | _ => serializeCell c
  end.

Definition constantField (k : string) (c : cell) : headerField :=
  constantFieldOf k (constantSep c) (constantText c).

Lemma columnSpec_sep k code :
  columnSpec k code = k +:+ String (fst (sepOf code)) (snd (sepOf code)) /\
  isSep (fst (sepOf code)) = true.
Proof.
  unfold columnSpec, sepOf. destruct code as [|c keys]; [done|].
  rewrite !HasPrefix_cons, !HasPrefix_nil, !andb_true_r.
  destruct (Ascii.eqb_spec "=" c) as [<-|H1]; [done|].
  destruct (Ascii.eqb_spec "!" c) as [<-|H2]; [done|]. done.
Qed.

Lemma constantSpec_sep k c :
  constantSpec k c = "@" +:+ k +:+ String (constantSep c) (constantText c) /\
  isSep (constantSep c) = true.
Proof. unfold constantSpec. by destruct c as [[[]| | | | |]|]. Qed.

Lemma headerParts_columns (cols : list (string * string)) h :
  Forall (fun kc => safeName (fst kc) = true) cols ->
  headerParts ∅ (map (fun kc => columnSpec (fst kc) (snd kc)) cols) h =
    Ok (mkHeader (headers h ++ map (fun kc => columnField (fst kc) (snd kc)) cols)
          (constants h) (explicitRows h)).
Proof.
  intros H. revert h. induction H as [|[k code] cols Hk _ IH]; intros h.
  - simpl. rewrite app_nil_r. by destruct h.
  - cbn [map headerParts fst snd].
    destruct (columnSpec_sep k code) as [-> Hsp].
    rewrite headerPart_column by done. cbn [mbind outcome_bind].
    rewrite IH. cbn [headers constants explicitRows]. by rewrite <- app_assoc.
Qed.

Lemma headerParts_constants (cs : list (string * cell)) h :
  Forall (fun kc => safeName (fst kc) = true) cs ->
  headerParts ∅ (map (fun kc => constantSpec (fst kc) (snd kc)) cs) h =
    Ok (mkHeader (headers h)
          (constants h ++ map (fun kc => constantField (fst kc) (snd kc)) cs)
          (explicitRows h)).
Proof.
  intros H. revert h. induction H as [|[k c] cs Hk _ IH]; intros h.
  - simpl. rewrite app_nil_r. by destruct h.
  - cbn [map headerParts fst snd].
    destruct (constantSpec_sep k c) as [-> Hsp].
    rewrite headerPart_constant by done. cbn [mbind outcome_bind].
    rewrite IH. cbn [headers constants explicitRows]. by rewrite <- app_assoc.
Qed.

(** The header line of a document without aliases, read back. *)
Lemma parseHeader_line (cs : list (string * cell)) (cols : list (string * string))
    (count : list Z) :
  Forall (fun kc => safeName (fst kc) = true) cs ->
  Forall (fun kc => safeName (fst kc) = true) cols ->
  Forall (fun n => minInt <= n <= maxInt) count ->
  (length count <= 1)%nat ->
  let tokens :=
    map (fun kc => constantSpec (fst kc) (snd kc)) cs
    ++ map (fun kc => columnSpec (fst kc) (snd kc)) cols
    ++ map (fun n => "+" +:+ formatInt n) count in
  Forall graphic tokens -> tokens <> [] ->
  parseHeader ∅ (Join (["#"%string] ++ tokens) " ") =
    Ok (mkHeader (map (fun kc => columnField (fst kc) (snd kc)) cols)
          (map (fun kc => constantField (fst kc) (snd kc)) cs)
          (hd (-1) count)).
Proof.
  intros Hcs Hcols Hcount Hlen tokens Hg Hne. unfold parseHeader.
  assert (Join (["#"%string] ++ tokens) " " = String "#" (String " " (Join tokens " "))) as ->.
  { destruct tokens as [|t0 ts]; [done|]. cbn [app]. rewrite Join_cons.
    by rewrite !sapp_cons, !sapp_nil_l. }
  assert (forall x, sliceFrom (String "#" (String " " x)) 2 = Some x) as -> by (by intros []).
  cbn [orPanic mbind outcome_bind]. rewrite Fields_Join by done.
  unfold tokens. rewrite headerParts_app.
  rewrite headerParts_constants by done.
  cbn [mbind outcome_bind headers constants explicitRows app].
  rewrite headerParts_app, headerParts_columns by done. cbn [mbind outcome_bind headers constants explicitRows].
  destruct count as [|n [|]]; [done| |simpl in Hlen; lia].
  apply Forall_cons in Hcount as [Hn _]. cbn [map headerParts].
  rewrite headerPart_count by done. done.
Qed.

(** *** Rebuilding a record, field by field *)

Lemma safeCell_typeOf ty v : safeCell ty v -> typeOf v = ty /\ typeOf (zero ty) = ty.
Proof. by intros []. Qed.

Lemma safeName_not_excluded f : safeName (exposedName f) = true -> excluded f = false.
Proof.
  intros H. unfold excluded. destruct (String.eqb_spec (tagOf f) "-") as [E|]; [|done].
  unfold exposedName in H. rewrite E in H. vm_compute in H. discriminate.
Qed.

Lemma Forall2_fst {A B} (R : StructField * A -> StructField * B -> Prop)
    (l : list (StructField * A)) (l' : list (StructField * B)) :
  Forall2 (fun ft fv => fst fv = fst ft /\ R ft fv) l l' -> map fst l' = map fst l.
Proof. induction 1 as [|ft fv l l' [E _] _ IH]; [done|]. simpl. by rewrite E, IH. Qed.

Lemma elem_of_rev {A} (l : list A) (x : A) : x ∈ rev l <-> x ∈ l.
Proof. rewrite !list_elem_of_In. symmetry. apply in_rev. Qed.

Section FlatDecode.

Variable fields : list (StructField * type).
Hypothesis Hschema : flatSchema fields.

(** The exposed names of the fields. *)
Definition names : list string := map (fun ft => exposedName (fst ft)) fields.

(** Field [i] is the field [f] of type [ty], exposed as [k]. *)
Definition fieldAt (i : nat) (f : StructField) (ty : type) (k : string) : Prop :=
  fields !! i = Some (f, ty) /\ exposedName f = k.

(** The values of a record of the struct type. *)
Definition recordOf (fvs : list (StructField * value)) : Prop :=
  Forall2 (fun ft fv => fst fv = fst ft /\ safeCell (snd ft) (snd fv)) fields fvs.

Lemma fieldAt_safe i f ty k : fieldAt i f ty k -> safeName k = true.
Proof.
  intros [Hi <-]. pose proof (schema_names fields Hschema) as H.
  rewrite Forall_forall in H. apply (H (f, ty)). by eapply list_elem_of_lookup_2.
Qed.

Lemma fieldAt_inj i j f g ty ty' k :
  fieldAt i f ty k -> fieldAt j g ty' k -> i = j.
Proof.
  intros [Hi <-] [Hj E].
  pose proof (schema_found fields Hschema i f ty Hi) as H1.
  pose proof (schema_found fields Hschema j g ty' Hj) as H2.
  rewrite E in H2. congruence.
Qed.

Lemma names_fieldAt k : k ∈ names <-> exists i f ty, fieldAt i f ty k.
Proof.
  unfold names. rewrite list_elem_of_fmap. split.
  - intros ([f ty] & -> & Hin). apply list_elem_of_lookup_1 in Hin as [i Hi].
    by exists i, f, ty.
  - intros (i & f & ty & Hi & <-). exists (f, ty). split; [done|].
    by eapply list_elem_of_lookup_2.
Qed.

Lemma recordOf_lookup fvs i f ty k :
  recordOf fvs -> fieldAt i f ty k ->
  exists v, fvs !! i = Some (f, v) /\ safeCell ty v.
Proof.
  intros Hr [Hi _]. destruct (Forall2_lookup_l _ _ _ _ _ Hr Hi) as ([g v] & Hv & E & Hs).
  simpl in *. subst g. by exists v.
Qed.

Lemma recordOf_fst fvs : recordOf fvs -> map fst fvs = map fst fields.
Proof. apply Forall2_fst. Qed.

(** A record under construction: the fields of the keys in [done] have
    their value, the other ones have it or are still zero. *)
Definition partial (fvs : list (StructField * value)) (done : list string)
    (cur : list (StructField * value)) : Prop :=
  map fst cur = map fst fields /\
  forall i f ty k v, fieldAt i f ty k -> fvs !! i = Some (f, v) ->
    cur !! i = Some (f, v) \/ (k ∉ done /\ cur !! i = Some (f, zero ty)).

Lemma partial_zero fvs :
  recordOf fvs ->
  partial fvs [] (map (fun ft => (fst ft, zero (snd ft))) fields).
Proof.
  intros Hr. split.
  - rewrite map_map. by apply map_ext.
  - intros i f ty k v [Hi _] Hv. right. split; [apply not_elem_of_nil|].
    by rewrite list_lookup_fmap, Hi.
Qed.

Lemma partial_skip fvs done cur i f ty k :
  partial fvs done cur -> fieldAt i f ty k -> fvs !! i = Some (f, zero ty) ->
  partial fvs (k :: done) cur.
Proof.
  intros [Hfst Hp] Hk Hv. split; [done|].
  intros j g ty' k' v Hj Hw.
  destruct (Hp j g ty' k' v Hj Hw) as [H|[Hnd H]]; [by left|].
  destruct (decide (k' = k)) as [->|Hne].
  - assert (j = i) as -> by (by eapply fieldAt_inj).
    left. destruct Hk as [Hi _], Hj as [Hi' _]. congruence.
  - right. split; [|done]. rewrite not_elem_of_cons. done.
Qed.

Lemma partial_assign fvs done cur i f ty k v typ valStr :
  recordOf fvs -> partial fvs done cur -> fieldAt i f ty k ->
  fvs !! i = Some (f, v) -> reads typ valStr ty v ->
  setDeepField (VStruct cur) k typ valStr = (VStruct (<[i := (f, v)]> cur), Done) /\
  partial fvs (k :: done) (<[i := (f, v)]> cur).
Proof.
  intros Hr [Hfst Hp] Hk Hv Hreads.
  destruct (recordOf_lookup fvs i f ty k Hr Hk) as (v' & Hv' & Hsafe).
  assert (v' = v) as -> by congruence.
  destruct (safeCell_typeOf ty v Hsafe) as [Ht Hz].
  assert (exists fv, cur !! i = Some (f, fv) /\ typeOf fv = ty) as (fv & Hcur & Hty).
  { destruct (Hp i f ty k v Hk Hv) as [H|[_ H]]; eauto. }
  split.
  - apply setDeepField_reads with fv; [by eapply safeName_dotFree, fieldAt_safe| |done|].
    + rewrite (findField_fst cur fields k Hfst). destruct Hk as [Hi <-].
      by apply (schema_found fields Hschema i f ty).
    + by rewrite Hty.
  - split.
    + rewrite list_fmap_insert. simpl. rewrite list_insert_id; [done|].
      rewrite list_lookup_fmap, Hcur. done.
    + intros j g ty' k' w Hj Hw. destruct (decide (j = i)) as [->|Hne].
      * left. rewrite list_lookup_insert_eq by (by eapply lookup_lt_Some).
        congruence.
      * rewrite list_lookup_insert_ne by done.
        destruct (Hp j g ty' k' w Hj Hw) as [H|[Hnd H]]; [by left|].
        right. split; [|done]. rewrite not_elem_of_cons. split; [|done].
        intros ->. apply Hne. by eapply fieldAt_inj.
Qed.

Lemma partial_done fvs done cur :
  recordOf fvs -> partial fvs done cur -> (forall k, k ∈ names -> k ∈ done) -> cur = fvs.
Proof.
  intros Hr [Hfst Hp] Hall. apply list_eq. intros i.
  destruct (fvs !! i) as [[f v]|] eqn:Hv.
  - assert (exists ty, fields !! i = Some (f, ty)) as [ty Hi].
    { destruct (Forall2_lookup_r _ _ _ _ _ Hr Hv) as ([g ty] & Hi & E & _).
      simpl in E. subst g. by exists ty. }
    destruct (Hp i f ty (exposedName f) v (conj Hi eq_refl) Hv) as [H|[Hnd _]]; [done|].
    exfalso. apply Hnd, Hall, names_fieldAt. by exists i, f, ty.
  - apply lookup_ge_None. apply lookup_ge_None in Hv.
    assert (length cur = length fields) as ->.
    { by rewrite <- (length_map fst cur), Hfst, length_map. }
    by rewrite (Forall2_length _ _ _ Hr).
Qed.

(** **** The constants of a row *)

(** What the constants assign in the record [fvs]. *)
Definition constantsFor (fvs : list (StructField * value)) (cs : list headerField) : Prop :=
  Forall (fun c => exists i f ty v,
    fieldAt i f ty (hname c) /\ fvs !! i = Some (f, v) /\ reads "auto" (hval c) ty v) cs.

Lemma applyConstants_flat fvs cs done cur :
  recordOf fvs -> constantsFor fvs cs -> partial fvs done cur ->
  exists cur', applyConstants cs (VStruct cur) = (VStruct cur', Done) /\
               partial fvs (rev (map hname cs) ++ done) cur'.
Proof.
  intros Hr Hcs. revert done cur.
  induction Hcs as [|c cs (i & f & ty & v & Hk & Hv & Hreads) _ IH]; intros done cur Hp.
  - by exists cur.
  - destruct (partial_assign fvs done cur i f ty (hname c) v "auto" (hval c)
                Hr Hp Hk Hv Hreads) as [E Hp'].
    destruct (IH _ _ Hp') as (cur' & E' & Hp'').
    exists cur'. split.
    + cbn [applyConstants]. by rewrite E.
    + simpl. by rewrite <- app_assoc.
Qed.

(** **** The columns of a row *)

(** What a token does to its field: ["~"] leaves it as it is, any other
    token is assigned after the lookup of an indexed enum. *)
Definition decodes (hf : headerField) (tok : string) (ty : type) (v : value) : Prop :=
  (tok = "~"%string /\ v = zero ty) \/
  (tok <> "~"%string /\ reads (htyp hf) (indexOption hf tok) ty v).

(** The columns of a header against the tokens of row [r] (counted from 1)
    and the record [fvs] the row stands for: a sequence-generated column
    takes no token and holds [r]. *)
Inductive rowPlan (r : Z) (fvs : list (StructField * value))
  : list headerField -> list string -> Prop :=
| plan_nil : rowPlan r fvs [] []
| plan_seq hf hs vals i f :
    htyp hf = "i+"%string -> hindexed hf = false -> fieldAt i f TInt (hname hf) ->
    fvs !! i = Some (f, VInt r) -> minInt <= r <= maxInt ->
    rowPlan r fvs hs vals -> rowPlan r fvs (hf :: hs) vals
| plan_live hf hs tok vals i f ty v :
    htyp hf <> "i+"%string -> fieldAt i f ty (hname hf) ->
    fvs !! i = Some (f, v) -> decodes hf tok ty v ->
    rowPlan r fvs hs vals -> rowPlan r fvs (hf :: hs) (tok :: vals).

Definition autoCount (hs : list headerField) : nat :=
  length (filter (fun hf => htyp hf = "i+"%string) hs).

Lemma applyColumns_flat r fvs hs vals c done cur :
  recordOf fvs -> rowPlan r fvs hs vals -> partial fvs done cur ->
  (autoCount hs <= 1)%nat -> (autoCount hs = 1%nat -> c + 1 = r) ->
  exists cur', applyColumns hs vals c (VStruct cur) =
                 (VStruct cur', c + Z.of_nat (autoCount hs), Done) /\
               partial fvs (rev (map hname hs) ++ done) cur'.
Proof.
  intros Hr Hplan. revert c done cur.
  induction Hplan as [|hf hs vals i f Hty Hix Hk Hv Hrange _ IH
                      |hf hs tok vals i f ty v Hty Hk Hv Hdec _ IH];
    intros c done cur Hp Hle Hone.
  - exists cur. split; [|done]. simpl. do 2 f_equal. unfold autoCount. simpl. lia.
  - assert (autoCount (hf :: hs) = S (autoCount hs)) as Hcount.
    { unfold autoCount. by rewrite filter_cons_True. }
    rewrite Hcount in Hle, Hone. assert (autoCount hs = 0%nat) as H0 by lia.
    assert (c + 1 = r) as Hc by (apply Hone; lia).
    destruct (partial_assign fvs done cur i f TInt (hname hf) (VInt r) "i+" (formatInt r)
                Hr Hp Hk Hv) as [E Hp'].
    { apply reads_int; [auto|done]. }
    destruct (IH (c + 1) _ _ Hp') as (cur' & E' & Hp''); [lia|lia|].
    exists cur'. split.
    + cbn [applyColumns]. rewrite Hty. rewrite String.eqb_refl.
      rewrite Hc, formatInt_not_tilde.
      assert (indexOption hf (formatInt r) = formatInt r) as ->.
      { unfold indexOption. by rewrite Hix. }
      rewrite Hc in E'. rewrite E, E', Hcount, H0. do 2 f_equal. lia.
    + simpl. by rewrite <- app_assoc.
  - assert (autoCount (hf :: hs) = autoCount hs) as Hcount.
    { unfold autoCount. by rewrite filter_cons_False. }
    rewrite Hcount in Hle, Hone. rewrite Hcount.
    apply String.eqb_neq in Hty.
    destruct Hdec as [[-> ->]|[Hne Hreads]].
    + pose proof (partial_skip fvs done cur i f ty (hname hf) Hp Hk Hv) as Hp'.
      destruct (IH c _ _ Hp' Hle Hone) as (cur' & E' & Hp'').
      exists cur'. split.
      * cbn [applyColumns]. rewrite Hty. by rewrite String.eqb_refl.
      * simpl. by rewrite <- app_assoc.
    + destruct (partial_assign fvs done cur i f ty (hname hf) v (htyp hf)
                  (indexOption hf tok) Hr Hp Hk Hv Hreads) as [E Hp'].
      destruct (IH c _ _ Hp' Hle Hone) as (cur' & E' & Hp'').
      exists cur'. split.
      * cbn [applyColumns]. rewrite Hty. apply String.eqb_neq in Hne. rewrite Hne.
        by rewrite E.
      * simpl. by rewrite <- app_assoc.
Qed.

(** **** A row *)

Lemma processRow_flat r fvs h vals st :
  recordOf fvs ->
  constantsFor fvs (constants h) ->
  rowPlan r fvs (headers h) vals ->
  (forall k, k ∈ names -> k ∈ map hname (constants h) \/ k ∈ map hname (headers h)) ->
  (autoCount (headers h) <= 1)%nat ->
  (autoCount (headers h) = 1%nat -> autoIncID st + 1 = r) ->
  processRow (TStruct fields) false h vals st =
    (mkRowState (rows st ++ [VStruct fvs])
       (autoIncID st + Z.of_nat (autoCount (headers h))), Done).
Proof.
  intros Hr Hcs Hplan Hall Hle Hone. unfold processRow. cbn [zero].
  destruct (applyConstants_flat fvs (constants h) [] _ Hr Hcs (partial_zero fvs Hr))
    as (cur1 & E1 & Hp1).
  rewrite E1.
  destruct (applyColumns_flat r fvs (headers h) vals (autoIncID st) _ cur1 Hr Hplan Hp1
              Hle Hone) as (cur2 & E2 & Hp2).
  rewrite E2.
  assert (cur2 = fvs) as ->; [|done].
  apply (partial_done fvs _ cur2 Hr Hp2).
  intros k Hk. rewrite !elem_of_app, !elem_of_rev.
  destruct (Hall k Hk); auto.
Qed.

End FlatDecode.

(** *** The flattened rows of flat records *)

(** The cell of a primitive value: a nil pointer is the nil interface. *)
Definition cellOf (v : value) : cell :=
  match v with
  | VNil _ => None
  | _ => Some v
  end.

Definition flatStep (m : gmap string cell) (fv : StructField * value) : gmap string cell :=
  <[exposedName (fst fv) := cellOf (snd fv)]> m.

Definition isPrimitive (v : value) : Prop :=
  match v with
  | VBool _ | VInt _ | VString _ | VNil _ => True
  | _ => False
  end.

Lemma safeCell_primitive ty v : safeCell ty v -> isPrimitive v.
Proof. by intros []. Qed.

Lemma flattenValue_flat fvs result :
  Forall (fun fv => excluded (fst fv) = false /\ isPrimitive (snd fv)) fvs ->
  flattenValue EmptyString (VStruct fvs) result = fold_left flatStep fvs result.
Proof.
  intros H. revert result. induction H as [|[f v] fvs [Hex Hv] _ IH]; intros result; [done|].
  simpl in Hex, Hv. cbn [fold_left]. rewrite <- IH. cbn [flattenValue]. rewrite Hex.
  f_equal. unfold flatStep, joinKey. cbn [fst snd String.eqb].
  by destruct v.
Qed.

Lemma flatStep_notin fvs m k :
  k ∉ map (fun fv => exposedName (fst fv)) fvs -> fold_left flatStep fvs m !! k = m !! k.
Proof.
  revert m. induction fvs as [|fv fvs IH]; intros m Hk; [done|].
  simpl in Hk. apply not_elem_of_cons in Hk as [Hne Hk].
  cbn [fold_left]. rewrite IH by done. unfold flatStep. by rewrite lookup_insert_ne.
Qed.

Lemma flatStep_lookup fvs m i fv :
  NoDup (map (fun fv => exposedName (fst fv)) fvs) -> fvs !! i = Some fv ->
  fold_left flatStep fvs m !! exposedName (fst fv) = Some (cellOf (snd fv)).
Proof.
  revert m i. induction fvs as [|fv0 fvs IH]; intros m i Hnd Hi; [done|].
  simpl in Hnd. apply NoDup_cons in Hnd as [Hnotin Hnd]. cbn [fold_left].
  destruct i as [|i]; simpl in Hi.
  - injection Hi as ->. rewrite flatStep_notin by done.
    unfold flatStep. by rewrite lookup_insert_eq.
  - by apply (IH _ i).
Qed.

Lemma flatStep_dom fvs m :
  dom (fold_left flatStep fvs m) =
    list_to_set (map (fun fv => exposedName (fst fv)) fvs) ∪ dom m.
Proof.
  revert m. induction fvs as [|fv fvs IH]; intros m; simpl.
  - set_solver.
  - rewrite IH. unfold flatStep. rewrite dom_insert_L. set_solver.
Qed.

Section FlatEncode.

Variable fields : list (StructField * type).
Hypothesis Hschema : flatSchema fields.

Lemma names_NoDup : NoDup (names fields).
Proof.
  apply NoDup_alt. intros i j k Hi Hj. unfold names in *.
  rewrite list_lookup_fmap in Hi, Hj.
  destruct (fields !! i) as [[f ty]|] eqn:Ei; [|done].
  destruct (fields !! j) as [[g ty']|] eqn:Ej; [|done].
  simpl in Hi, Hj. injection Hi as Hi. injection Hj as Hj.
  by apply (fieldAt_inj fields Hschema i j f g ty ty' k).
Qed.

Lemma recordOf_names fvs :
  recordOf fields fvs -> map (fun fv => exposedName (fst fv)) fvs = names fields.
Proof.
  intros Hr. unfold names.
  rewrite <- (map_map fst exposedName fvs), <- (map_map fst exposedName fields).
  by rewrite (recordOf_fst fields fvs Hr).
Qed.

Lemma recordOf_flatten fvs :
  recordOf fields fvs ->
  flattenValue EmptyString (VStruct fvs) ∅ = fold_left flatStep fvs ∅.
Proof.
  intros Hr. apply flattenValue_flat.
  pose proof (schema_names fields Hschema) as Hn.
  unfold recordOf in Hr. clear Hschema.
  induction Hr as [|ft fv l l' [E Hs] _ IH]; [done|].
  apply Forall_cons in Hn as [Hn1 Hn]. constructor; [|by apply IH].
  split; [|by eapply safeCell_primitive]. rewrite E. by apply safeName_not_excluded.
Qed.

Lemma recordOf_rowGet fvs i f ty k v :
  recordOf fields fvs -> fieldAt fields i f ty k -> fvs !! i = Some (f, v) ->
  rowGet (flattenValue EmptyString (VStruct fvs) ∅) k = cellOf v.
Proof.
  intros Hr [Hi <-] Hv. rewrite recordOf_flatten by done. unfold rowGet.
  rewrite (flatStep_lookup fvs ∅ i (f, v)); [done| |done].
  rewrite recordOf_names by done. apply names_NoDup.
Qed.

Lemma recordOf_dom fvs :
  recordOf fields fvs ->
  dom (flattenValue EmptyString (VStruct fvs) ∅) = list_to_set (names fields).
Proof.
  intros Hr. rewrite recordOf_flatten, flatStep_dom, recordOf_names by done.
  set_solver.
Qed.

End FlatEncode.

(** *** The statistics of a column of primitive cells *)

Definition cellKind (c : cell) : Kind :=
  match c with
  | Some v => kindOf v
  | None => Invalid
  end.

Definition primitiveCell (c : cell) : bool :=
  match c with
  | Some (VBool _) | Some (VInt _) | Some (VString _) => true
  | _ => false
  end.

Lemma kindStep_primitive k acc row :
  primitiveCell (rowGet row k) = true ->
  fst acc = Invalid \/ fst acc = cellKind (rowGet row k) ->
  kindStep k acc row =
    (cellKind (rowGet row k),
     snd acc || (String.eqb k "id" && canBeInt (cellKind (rowGet row k)))).
Proof.
  unfold kindStep. destruct acc as [K s].
  destruct (rowGet row k) as [[]|]; try discriminate; simpl; by intros _ [-> | ->].
Qed.

Lemma kindStep_fold k K fl acc :
  Forall (fun row => primitiveCell (rowGet row k) = true /\ cellKind (rowGet row k) = K) fl ->
  fl <> [] -> fst acc = Invalid \/ fst acc = K ->
  fold_left (kindStep k) fl acc = (K, snd acc || (String.eqb k "id" && canBeInt K)).
Proof.
  intros H. revert acc. induction H as [|row fl [Hp Hk] Hfl IH]; intros acc Hne Hacc; [done|].
  cbn [fold_left]. rewrite kindStep_primitive by (by rewrite ?Hk). rewrite Hk.
  destruct fl as [|row' fl]; [done|].
  rewrite IH by (done || by right). cbn [snd]. f_equal.
  by destruct (snd acc), (String.eqb k "id" && canBeInt K).
Qed.

Lemma kindStep_fold_nil k fl :
  Forall (fun row => rowGet row k = None) fl ->
  fold_left (kindStep k) fl (Invalid, false) = (Invalid, false).
Proof.
  induction 1 as [|row fl Hrow _ IH]; [done|].
  cbn [fold_left]. unfold kindStep at 2. rewrite Hrow. cbn [fst snd].
  by rewrite andb_false_r.
Qed.

(** The strings of a column. *)
Definition columnValues (fl : list (gmap string cell)) (k : string) : list string :=
  map (fun row => serializeCell (rowGet row k)) fl.

Lemma statsOf_primitive fl k K :
  Forall (fun row => primitiveCell (rowGet row k) = true /\ cellKind (rowGet row k) = K) fl ->
  fl <> [] ->
  statsOf fl k =
    mkStats k K (columnValues fl k) (list_to_set (columnValues fl k))
      (String.eqb k "id" && canBeInt K) false [] false.
Proof.
  intros H Hne. unfold statsOf.
  by rewrite (kindStep_fold k K fl (Invalid, false) H Hne (or_introl eq_refl)).
Qed.

Lemma statsOf_nil fl k :
  Forall (fun row => rowGet row k = None) fl ->
  statsOf fl k =
    mkStats k Invalid (columnValues fl k) (list_to_set (columnValues fl k))
      false false [] false.
Proof. intros H. unfold statsOf. by rewrite (kindStep_fold_nil k fl H). Qed.

Lemma countsFrom_spec idx values r v :
  countsFrom idx values = true -> values !! r = Some v ->
  v = formatInt (idx + Z.of_nat r + 1).
Proof.
  revert idx r. induction values as [|x values IH]; intros idx r H Hr; [done|].
  simpl in H. apply andb_true_iff in H as [Hx H]. destruct r as [|r]; simpl in Hr.
  - injection Hr as <-. apply String.eqb_eq in Hx. rewrite Hx. f_equal. lia.
  - rewrite (IH (idx + 1) r H Hr). f_equal. lia.
Qed.

Lemma formatInt_inj n m :
  minInt <= n <= maxInt -> minInt <= m <= maxInt -> formatInt n = formatInt m -> n = m.
Proof.
  intros Hn Hm E. pose proof (Atoi_formatInt n Hn) as H1.
  rewrite E, (Atoi_formatInt m Hm) in H1. congruence.
Qed.

(** *** What a column gives the decoder *)

Lemma wired_edged w tok : wired w tok -> edged w.
Proof.
  intros [c r H _ _|s _].
  - apply graphic_edged. by split.
  - split.
    + exists dquote, (s +:+ quote). split; [|done]. unfold quote. by rewrite sapp_cons, sapp_nil_l.
    + exists (quote +:+ s), dquote. split; [|done]. unfold quote. by rewrite !sapp_assoc.
Qed.

Lemma wired_graphic w :
  graphic w ->
  allBytes (fun a => negb (existsb (Ascii.eqb a) [dquote; "["%char])) w = true ->
  wired w w.
Proof.
  intros [Hne Hg] Hb. destruct w as [|c r]; [done|].
  rewrite allBytes_cons, andb_true_iff, negb_true_iff in Hb. destruct Hb as [Hc _].
  simpl in Hc. rewrite !orb_false_iff in Hc. destruct Hc as (H1 & H2 & _).
  apply Ascii.eqb_neq in H1, H2. by constructor.
Qed.

Lemma formatInt_allBytes (p : ascii -> bool) n :
  (forall c, isIntByte c = true -> p c = true) -> allBytes p (formatInt n) = true.
Proof.
  intros Hp. destruct (formatInt_bytes n) as [_ H]. revert H. by apply allBytes_impl.
Qed.

Lemma formatInt_graphic n : graphic (formatInt n).
Proof.
  split; [apply formatInt_bytes|]. apply formatInt_allBytes, intByte_graphic.
Qed.

Lemma intByte_line c : isIntByte c = true -> isLineByte c = true.
Proof. by_bytes c. Qed.

Lemma intByte_open c :
  isIntByte c = true -> negb (existsb (Ascii.eqb c) [dquote; "["%char]) = true.
Proof. by_bytes c. Qed.

Lemma formatInt_wired n : wired (formatInt n) (formatInt n).
Proof.
  apply wired_graphic; [apply formatInt_graphic|]. apply formatInt_allBytes, intByte_open.
Qed.

Lemma columnField_name k code : hname (columnField k code) = k.
Proof.
  unfold columnField, columnFieldOf. by repeat case_match.
Qed.

(** The contract of a column: its type code is a word; a sequence-generated
    column is named [id] and holds the row numbers; in any other column the
    token of each row is one token for the tokenizer and decodes to the
    value of the row. *)
Definition columnOk (σ : schedule) (k : string) (ty : type) (vs : list value)
    (d : string * columnStats * bool) : Prop :=
  let hf := columnField k (colCode d) in
  allBytes isGraphic (colCode d) = true /\
  if colSeq d then
    htyp hf = "i+"%string /\ hindexed hf = false /\ ty = TInt /\
    forall r v, vs !! r = Some v -> v = VInt (Z.of_nat r + 1)
  else
    htyp hf <> "i+"%string /\
    forall r v, vs !! r = Some v ->
      exists tok, wired (rowToken σ (colStats d) (cellOf v)) tok /\
                  allBytes isLineByte (rowToken σ (colStats d) (cellOf v)) = true /\
                  decodes hf tok ty v.

(** The rows of a column against the values of a field. *)
Definition columnOf (fl : list (gmap string cell)) (k : string) (ty : type)
    (vs : list value) : Prop :=
  Forall2 (fun row v => rowGet row k = cellOf v /\ safeCell ty v) fl vs.

Lemma columnOf_rows (P : gmap string cell -> Prop) fl k ty vs :
  columnOf fl k ty vs ->
  (forall row v, rowGet row k = cellOf v -> safeCell ty v -> P row) ->
  Forall P fl.
Proof.
  intros H HP. induction H as [|row v fl vs [Hc Hs] _ IH]; constructor; eauto.
Qed.

Lemma columnOf_value fl k ty vs r v :
  columnOf fl k ty vs -> vs !! r = Some v ->
  safeCell ty v /\ columnValues fl k !! r = Some (serializeCell (cellOf v)).
Proof.
  intros H Hv. destruct (Forall2_lookup_r _ _ _ _ _ H Hv) as (row & Hrow & Hc & Hs).
  split; [done|]. unfold columnValues. by rewrite list_lookup_fmap, Hrow, <- Hc.
Qed.

Lemma column_bool σ fl k vs :
  fl <> [] -> columnOf fl k TBool vs ->
  columnOk σ k TBool vs (decideColumn (Z.of_nat (length fl)) (statsOf fl k)).
Proof.
  intros Hne Hcol.
  rewrite (statsOf_primitive fl k Bool); [|
    apply (columnOf_rows _ fl k TBool vs Hcol); intros row v -> Hs; by inversion Hs|done].
  unfold decideColumn. cbn [isSeq ckind canBeInt Kind_eqb isBoolKind].
  rewrite andb_false_r. split; [done|]. cbn [colSeq snd colCode fst colStats].
  split; [done|]. intros r v Hv.
  destruct (columnOf_value fl k TBool vs r v Hcol Hv) as [Hs _].
  inversion Hs as [b| | |]; subst.
  exists (if b then "1" else "0")%string.
  assert (rowToken σ (mkStats k Bool (columnValues fl k) (list_to_set (columnValues fl k))
                        false false [] false) (cellOf (VBool b))
          = (if b then "1" else "0")%string) as ->.
  { by destruct b. }
  split; [destruct b; by constructor|]. split; [by destruct b|].
  right. split; [by destruct b|]. apply reads_flag.
Qed.

Lemma column_nil σ fl k e vs :
  fl <> [] -> columnOf fl k (TPtr e) vs ->
  columnOk σ k (TPtr e) vs (decideColumn (Z.of_nat (length fl)) (statsOf fl k)).
Proof.
  intros Hne Hcol.
  assert (Forall (fun row => rowGet row k = None) fl) as Hnil.
  { apply (columnOf_rows _ fl k (TPtr e) vs Hcol). intros row v -> Hs. by inversion Hs. }
  assert (columnValues fl k = replicate (length fl) "~"%string) as Hvals.
  { unfold columnValues. clear Hcol Hne. induction Hnil as [|row fl Hrow _ IH]; [done|].
    simpl. by rewrite Hrow, IH. }
  rewrite (statsOf_nil fl k Hnil), Hvals.
  assert (exists code,
    decideColumn (Z.of_nat (length fl))
      (mkStats k Invalid (replicate (length fl) "~"%string)
         (list_to_set (replicate (length fl) "~"%string)) false false [] false) =
    ("s"%string,
     mkStats k Invalid (replicate (length fl) "~"%string)
       (list_to_set (replicate (length fl) "~"%string)) false false [] false, false)
    /\ code = "s"%string) as (code & -> & _).
  { exists "s"%string. split; [|done]. unfold decideColumn.
    cbn [isSeq ckind isBoolKind isIntKind canBeInt Kind_eqb uniqueVals cvalues].
    assert (filter (fun x => x <> "~"%string)
              (elements (list_to_set (replicate (length fl) "~"%string) : gset string)) = [])
      as ->.
    { apply filter_none. apply Forall_forall. intros x Hx.
      apply elem_of_elements, elem_of_list_to_set, elem_of_replicate in Hx as [-> _].
      by intros ?. }
    change (sortStrings []) with (@nil string). cbn [length Z.of_nat].
    assert (sumLen (replicate (length fl) "~"%string) = Z.of_nat (length fl)) as ->.
    { unfold sumLen.
      assert (forall n a, fold_left (fun n s => n + len s) (replicate n "~"%string) a
                          = a + Z.of_nat n) as H.
      { induction n as [|n IH]; intros a; simpl; [lia|]. rewrite IH.
        change (len "~") with 1. lia. }
      rewrite H. lia. }
    rewrite length_replicate.
    assert (Z.quot (Z.of_nat (length fl)) (Z.of_nat (length fl)) = 1) as ->.
    { apply Z.quot_same. destruct fl; [done|]. simpl. lia. }
    change (3 <=? Z.of_nat 0) with false. change (0 <? Z.of_nat 0) with false.
    change (30 <? 1) with false. rewrite andb_false_r. cbv iota.
    by destruct (_ && _). }
  split; [done|]. cbn [colSeq snd colCode fst colStats].
  split; [done|]. intros r v Hv.
  destruct (columnOf_value fl k (TPtr e) vs r v Hcol Hv) as [Hs _].
  inversion Hs; subst. exists "~"%string.
  split; [by constructor|]. split; [done|]. by left.
Qed.

Lemma columnOf_length fl k ty vs : columnOf fl k ty vs -> length vs = length fl.
Proof. intros H. symmetry. by eapply Forall2_length. Qed.

Lemma column_int σ fl k vs :
  fl <> [] -> Z.of_nat (length fl) <= maxInt -> columnOf fl k TInt vs ->
  columnOk σ k TInt vs (decideColumn (Z.of_nat (length fl)) (statsOf fl k)).
Proof.
  intros Hne Hlen Hcol.
  rewrite (statsOf_primitive fl k Int); [|
    apply (columnOf_rows _ fl k TInt vs Hcol); intros row v -> Hs; by inversion Hs|done].
  set (st := mkStats k Int (columnValues fl k) (list_to_set (columnValues fl k))
               (String.eqb k "id" && canBeInt Int) false [] false).
  assert (forall r v, vs !! r = Some v ->
            exists n, v = VInt n /\ minInt <= n <= maxInt /\
                      columnValues fl k !! r = Some (formatInt n)) as Hval.
  { intros r v Hv. destruct (columnOf_value fl k TInt vs r v Hcol Hv) as [Hs Hx].
    inversion Hs; subst. eauto. }
  assert (columnOk σ k TInt vs ("i"%string, st, false)) as Hlive.
  { split; [done|]. cbn [colSeq snd colCode fst colStats]. split; [done|].
    intros r v Hv. destruct (Hval r v Hv) as (n & -> & Hn & _).
    exists (formatInt n).
    assert (rowToken σ st (cellOf (VInt n)) = formatInt n) as -> by done.
    split; [apply formatInt_wired|]. split; [apply formatInt_allBytes, intByte_line|].
    right. split.
    - intros E. pose proof (formatInt_not_tilde n) as H. rewrite E in H. done.
    - apply reads_int; auto. }
  unfold decideColumn. subst st. cbn [isSeq ckind cvalues] in *.
  change (canBeInt Int) with true in *. rewrite andb_true_r in *.
  destruct (String.eqb k "id") eqn:Hid; [|exact Hlive].
  destruct (countsFrom 0 (columnValues fl k)) eqn:Hc; [|exact Hlive].
  split; [done|]. cbn [colSeq snd colCode fst colStats].
  split; [done|]. split; [done|]. split; [done|].
  intros r v Hv. destruct (Hval r v Hv) as (n & -> & Hn & Hx).
  pose proof (countsFrom_spec 0 _ r _ Hc Hx) as E.
  apply lookup_lt_Some in Hv. rewrite (columnOf_length fl k TInt vs Hcol) in Hv.
  f_equal. apply formatInt_inj in E; [lia|done|]. unfold minInt. lia.
Qed.

(** *** Columns of strings *)

Lemma safeString_inv s :
  safeString s = true ->
  s <> EmptyString /\ allBytes isTextByte s = true /\ HasPrefix s "[" = false /\
  HasPrefix s "{" = false /\ reserved s = false.
Proof.
  unfold safeString. rewrite !andb_true_iff, !negb_true_iff.
  intros [[[[H1 H2] H3] H4] H5]. repeat split; try done.
  intros ->. done.
Qed.

Lemma textByte_line c : isTextByte c = true -> isLineByte c = true.
Proof. by_bytes c. Qed.

Lemma textByte_bar c : isTextByte c = true -> negb (Ascii.eqb c "|") = true.
Proof. by_bytes c. Qed.

Lemma textByte_underscore c : isTextByte c = true -> negb (Ascii.eqb c "_") = true.
Proof. by_bytes c. Qed.

Lemma textByte_quote c : isTextByte c = true -> negb (Ascii.eqb c dquote) = true.
Proof. by_bytes c. Qed.

Lemma textByte_quotable c : isTextByte c = true -> isQuotable c = true.
Proof. by_bytes c. Qed.

(** The wire form of a safe string: one word, which reads back as the
    string under any column type that is not [i], [i+] or [b]. *)
Lemma under_safe s typ :
  safeString s = true ->
  String.eqb typ "i" || String.eqb typ "i+" || String.eqb typ "b" = false ->
  graphic (under s) /\ wired (under s) (under s) /\
  allBytes isLineByte (under s) = true /\
  allBytes (fun a => negb (Ascii.eqb a "|")) (under s) = true /\
  under s <> "~"%string /\
  reads typ (under s) TString (VString s).
Proof.
  intros Hs Htyp. destruct (safeString_inv s Hs) as (Hne & Hb & Hbr & Hbc & Hres).
  assert (allBytes isGraphic (under s) = true) as Hg.
  { apply under_bytes; [done|apply textByte_under|done]. }
  destruct s as [|c r]; [done|]. clear Hne.
  rewrite HasPrefix_cons, HasPrefix_nil, andb_true_r in Hbr, Hbc.
  pose proof Hb as Hb'. rewrite allBytes_cons, andb_true_iff in Hb'. destruct Hb' as [Hc _].
  assert (exists c', under (String c r) = String c' (under r) /\
                     c' <> dquote /\ c' <> "["%char /\ Ascii.eqb "{" c' = false)
    as (c' & E & Hq & Hbr' & Hbc').
  { rewrite under_cons. eexists. split; [done|].
    destruct (Ascii.eqb c " ") eqn:Hsp; [done|].
    apply Ascii.eqb_neq in Hbr. split; [|split; [congruence|done]].
    apply textByte_quote, negb_true_iff, Ascii.eqb_neq in Hc. done. }
  assert (HasPrefix (under (String c r)) "{" = false) as Hbrace.
  { by rewrite E, HasPrefix_cons, Hbc'. }
  pose proof (under_reserved _ Hres) as Hres'.
  split; [split; [by rewrite E|done]|].
  split; [rewrite E in Hg |- *; by constructor|].
  split; [apply under_bytes; [done|intros; by apply textByte_line|done]|].
  split; [apply under_bytes; [done|intros; by apply textByte_bar|done]|].
  split.
  - intros E'. rewrite E' in Hres'. done.
  - apply reads_string; [done..|]. apply under_restore.
    revert Hb. apply allBytes_impl, textByte_underscore.
Qed.

(** A safe string between quotes: one token, which reads back as the string. *)
Lemma quoted_safe s typ :
  safeString s = true ->
  String.eqb typ "i" || String.eqb typ "i+" || String.eqb typ "b" = false ->
  wired (quote +:+ s +:+ quote) s /\
  allBytes isLineByte (quote +:+ s +:+ quote) = true /\
  ReplaceAll s dquote ("\" +:+ quote) = s /\
  s <> "~"%string /\
  reads typ s TString (VString s).
Proof.
  intros Hs Htyp. destruct (safeString_inv s Hs) as (Hne & Hb & Hbr & Hbc & Hres).
  split; [constructor; revert Hb; apply allBytes_impl, textByte_quotable|].
  split.
  { rewrite !allBytes_app. rewrite (allBytes_impl isTextByte isLineByte s textByte_line Hb).
    done. }
  split; [apply ReplaceAll_absent; revert Hb; apply allBytes_impl, textByte_quote|].
  split; [intros ->; done|].
  apply reads_string; [done..|]. apply ReplaceAll_absent.
  revert Hb. apply allBytes_impl, textByte_underscore.
Qed.

Lemma allBytes_Join p l sep :
  Forall (fun s => allBytes p s = true) l -> allBytes p sep = true ->
  allBytes p (Join l sep) = true.
Proof.
  intros H Hsep. induction H as [|x l Hx Hl IH]; [done|].
  destruct l as [|y l]; [done|]. rewrite Join_cons, !allBytes_app, Hx, Hsep. exact IH.
Qed.

(** The four outcomes of [decideColumn] on a column of strings. *)
Lemma decideColumn_string n k values :
  let st := mkStats k String_ values (list_to_set values) false false [] false in
  let keys := sortStrings (filter (fun x => x <> "~"%string)
                             (elements (list_to_set values : gset string))) in
  let withKeys i := mkStats k String_ values (list_to_set values) false i keys false in
  (decideColumn n st = ("!" +:+ Join keys "|", withKeys true, false) /\ keys <> []) \/
  (decideColumn n st = ("=" +:+ Join keys "|", withKeys false, false) /\ keys <> []) \/
  decideColumn n st = ("s"%string, st, false) \/
  decideColumn n st =
    ("t"%string, mkStats k String_ values (list_to_set values) false false [] true, false).
Proof.
  intros st keys withKeys. unfold decideColumn.
  cbn [isSeq ckind st isBoolKind isIntKind canBeInt Kind_eqb uniqueVals cvalues cname
       isText indexed enumKeys].
  fold keys.
  destruct (_ && _).
  - destruct (3 <=? Z.of_nat (length keys)) eqn:H3.
    + assert (keys <> []) by (intros E; rewrite E in H3; done).
      destruct (_ <? _); auto.
    + destruct (0 <? Z.of_nat (length keys)) eqn:H0; [|auto].
      right. left. split; [done|]. intros E. rewrite E in H0. done.
  - destruct (_ && _); auto.
Qed.

Lemma column_string σ fl k vs :
  fl <> [] -> Z.of_nat (length fl) <= maxInt -> columnOf fl k TString vs ->
  columnOk σ k TString vs (decideColumn (Z.of_nat (length fl)) (statsOf fl k)).
Proof.
  intros Hne Hlen Hcol.
  rewrite (statsOf_primitive fl k String_); [|
    apply (columnOf_rows _ fl k TString vs Hcol); intros row v -> Hs; by inversion Hs|done].
  change (canBeInt String_) with false. rewrite andb_false_r.
  set (values := columnValues fl k).
  assert (forall r v, vs !! r = Some v ->
            exists s, v = VString s /\ safeString s = true /\
                      values !! r = Some (under s)) as Hval.
  { intros r v Hv. destruct (columnOf_value fl k TString vs r v Hcol Hv) as [Hs Hx].
    inversion Hs; subst. eauto. }
  assert (forall x, x ∈ values -> exists s, safeString s = true /\ x = under s) as Hvalues.
  { intros x Hx. apply list_elem_of_lookup_1 in Hx as [r Hr].
    assert (is_Some (vs !! r)) as [v Hv].
    { apply lookup_lt_is_Some. rewrite (columnOf_length fl k TString vs Hcol).
      apply lookup_lt_Some in Hr. unfold values, columnValues in Hr.
      by rewrite length_map in Hr. }
    destruct (Hval r v Hv) as (s & _ & Hs & Hx). exists s. split; [done|]. congruence. }
  set (keys := sortStrings (filter (fun x => x <> "~"%string)
                              (elements (list_to_set values : gset string)))).
  assert (forall x, x ∈ keys <-> x ∈ values /\ x <> "~"%string) as Hkeys.
  { intros x. unfold keys. rewrite sortStrings_elem, list_elem_of_filter, elem_of_elements,
      elem_of_list_to_set. tauto. }
  assert (NoDup keys) as Hnd.
  { apply sortStrings_NoDup, NoDup_filter, NoDup_elements. }
  assert (Htyp : String.eqb "s" "i" || String.eqb "s" "i+" || String.eqb "s" "b" = false)
    by done.
  assert (Htyp' : String.eqb "t" "i" || String.eqb "t" "i+" || String.eqb "t" "b" = false)
    by done.
  assert (keys <> [] -> Split (Join keys "|") "|" = keys) as Hsplit.
  { intros Hk. apply Split_Join; [done|]. apply Forall_forall. intros x Hx.
    apply Hkeys in Hx as [Hx _]. destruct (Hvalues x Hx) as (s & Hs & ->).
    apply Index_none. by apply (under_safe s "s"). }
  assert (allBytes isGraphic (Join keys "|") = true) as Hgr.
  { apply allBytes_Join; [|done]. apply Forall_forall. intros x Hx.
    apply Hkeys in Hx as [Hx _]. destruct (Hvalues x Hx) as (s & Hs & ->).
    by apply (under_safe s "s"). }
  destruct (decideColumn_string (Z.of_nat (length fl)) k values)
    as [[-> Hk]|[[-> Hk]|[-> | ->]]]; fold keys.
  - (* indexed enum *)
    unfold columnOk. cbn [colSeq snd colCode fst colStats].
    split; [by rewrite allBytes_app, Hgr|].
    assert (columnField k ("!" +:+ Join keys "|") = mkHeaderField k "s" "" true keys) as ->.
    { rewrite sapp_cons, sapp_nil_l. unfold columnField, sepOf, columnFieldOf. simpl.
      by rewrite (Hsplit Hk). }
    split; [done|]. intros r v Hv. destruct (Hval r v Hv) as (s & -> & Hs & Hx).
    destruct (under_safe s "s" Hs Htyp) as (_ & _ & _ & _ & Hnt & Hreads).
    assert (under s ∈ keys) as Hin.
    { apply Hkeys. split; [|done]. by eapply list_elem_of_lookup_2. }
    apply list_elem_of_lookup_1 in Hin as [j Hj].
    exists (formatInt (Z.of_nat j)).
    assert (rowToken σ (mkStats k String_ values (list_to_set values) false true keys false)
              (cellOf (VString s)) = formatInt (Z.of_nat j)) as ->.
    { unfold rowToken. cbn [ckind isBoolKind Kind_eqb indexed enumKeys].
      assert ((0 <? Z.of_nat (length keys)) = true) as ->.
      { apply Z.ltb_lt. destruct keys; [done|]. simpl. lia. }
      cbn [andb]. change (serializeCell (cellOf (VString s))) with (under s).
      by rewrite (enumIndex_nth keys j (under s) 0 Hnd Hj). }
    split; [apply formatInt_wired|]. split; [apply formatInt_allBytes, intByte_line|].
    right. split.
    { intros E. pose proof (formatInt_not_tilde (Z.of_nat j)) as H. rewrite E in H. done. }
    assert (indexOption (mkHeaderField k "s" "" true keys) (formatInt (Z.of_nat j)) = under s)
      as ->; [|done].
    unfold indexOption. cbn [hindexed hoptions].
    pose proof (lookup_lt_Some _ _ _ Hj) as Hlt.
    assert ((0 <? Z.of_nat (length keys)) = true) as -> by (apply Z.ltb_lt; lia).
    cbn [andb].
    assert (Z.of_nat (length keys) <= maxInt) as Hmax.
    { assert (length keys <= length values)%nat as Hle.
      { apply submseteq_length, NoDup_submseteq; [done|]. intros x Hin. by apply Hkeys. }
      unfold values, columnValues in Hle. rewrite length_map in Hle. lia. }
    rewrite Atoi_formatInt by (unfold minInt; lia).
    assert ((0 <=? Z.of_nat j) = true) as -> by (apply Z.leb_le; lia).
    assert ((Z.of_nat j <? Z.of_nat (length keys)) = true) as -> by (apply Z.ltb_lt; lia).
    cbn [andb]. rewrite Nat2Z.id. by apply nth_lookup_Some.
  - (* literal enum *)
    unfold columnOk. cbn [colSeq snd colCode fst colStats].
    split; [by rewrite allBytes_app, Hgr|].
    assert (columnField k ("=" +:+ Join keys "|") = mkHeaderField k "s" "" false keys) as ->.
    { rewrite sapp_cons, sapp_nil_l. unfold columnField, sepOf, columnFieldOf. simpl.
      by rewrite (Hsplit Hk). }
    split; [done|]. intros r v Hv. destruct (Hval r v Hv) as (s & -> & Hs & Hx).
    destruct (under_safe s "s" Hs Htyp) as (_ & Hw & Hl & _ & Hnt & Hreads).
    exists (under s). by repeat split; [..|right].
  - (* plain strings *)
    split; [done|]. cbn [colSeq snd colCode fst colStats]. split; [done|].
    intros r v Hv. destruct (Hval r v Hv) as (s & -> & Hs & Hx).
    destruct (under_safe s "s" Hs Htyp) as (_ & Hw & Hl & _ & Hnt & Hreads).
    exists (under s). by repeat split; [..|right].
  - (* text *)
    split; [done|]. cbn [colSeq snd colCode fst colStats]. split; [done|].
    intros r v Hv. destruct (Hval r v Hv) as (s & -> & Hs & Hx).
    destruct (quoted_safe s "t" Hs Htyp') as (Hw & Hl & Hrep & Hnt & Hreads).
    exists s.
    assert (rowToken σ (mkStats k String_ values (list_to_set values) false false [] true)
              (cellOf (VString s)) = quote +:+ s +:+ quote) as ->.
    { unfold rowToken. cbn [ckind isBoolKind Kind_eqb indexed enumKeys isText andb cellOf].
      by rewrite Hrep. }
    by repeat split; [..|right].
Qed.

(** *** The keys of a table of flat records *)

Lemma zip_map_r {A B} (f : A -> B) (l : list A) : zip l (map f l) = map (fun x => (x, f x)) l.
Proof. induction l as [|x l IH]; [done|]. simpl. by rewrite IH. Qed.

Lemma fst_graph {A B} (g : A -> B) (l : list A) : (map (fun k => (k, g k)) l).*1 = l.
Proof. induction l as [|x l IH]; [done|]. simpl. f_equal. exact IH. Qed.

Lemma cell_eqb_primitive ty v w :
  safeCell ty v -> safeCell ty w -> cell_eqb (cellOf v) (cellOf w) = true -> v = w.
Proof.
  intros Hv Hw. destruct Hv; inversion Hw; subst; simpl; intros E; try done.
  - f_equal. by apply eqb_prop.
  - f_equal. by apply Z.eqb_eq.
  - f_equal. by apply String.eqb_eq.
Qed.

Lemma statsOf_isSeq fl k : isSeq (statsOf fl k) = true -> k = "id"%string.
Proof.
  unfold statsOf.
  assert (forall acc, (snd acc = true -> k = "id"%string) ->
            snd (fold_left (kindStep k) fl acc) = true -> k = "id"%string) as H.
  { induction fl as [|row fl IH]; intros acc Hacc; [done|].
    cbn [fold_left]. apply IH. unfold kindStep. cbn [snd].
    rewrite orb_true_iff, andb_true_iff, String.eqb_eq. intros [?|[? _]]; auto. }
  specialize (H (Invalid, false)). destruct (fold_left _ _ _) as [kind sq]. simpl in *.
  apply H. done.
Qed.

Lemma decideColumn_isSeq n st : colSeq (decideColumn n st) = true -> isSeq st = true.
Proof. unfold decideColumn, colSeq. by repeat case_match. Qed.

Section FlatTable.

Variable fields : list (StructField * type).
Hypothesis Hschema : flatSchema fields.
Variable recs : list (list (StructField * value)).
Hypothesis Hrecs : Forall (recordOf fields) recs.
Hypothesis Hne : recs <> [].

Definition tableOf : table := analyse (map VStruct recs).

Lemma tableOf_flattened :
  flattened tableOf = map (fun fvs => flattenValue EmptyString (VStruct fvs) ∅) recs.
Proof. unfold tableOf, analyse. cbn [flattened]. by rewrite map_map. Qed.

Lemma tableOf_length : tlength tableOf = Z.of_nat (length recs).
Proof. unfold tableOf, analyse. cbn [tlength]. by rewrite length_map. Qed.

Lemma tableOf_rows_length : length (flattened tableOf) = length recs.
Proof. by rewrite tableOf_flattened, length_map. Qed.

Lemma tableOf_constants :
  tconstants tableOf =
    constantsOf (tlength tableOf) (flattened tableOf) (allKeysOf (flattened tableOf)).
Proof. reflexivity. Qed.

Lemma tableOf_active :
  activeKeys tableOf =
    activeKeysOf (tlength tableOf) (flattened tableOf) (allKeysOf (flattened tableOf)).
Proof. reflexivity. Qed.

Lemma allKeys_names k : k ∈ allKeysOf (flattened tableOf) <-> k ∈ names fields.
Proof.
  unfold allKeysOf. rewrite sortStrings_elem, elem_of_elements, elem_of_union_list.
  rewrite tableOf_flattened. split.
  - intros (X & HX & Hk). apply list_elem_of_fmap in HX as (row & -> & Hrow).
    apply list_elem_of_fmap in Hrow as (fvs & -> & Hfvs).
    rewrite Forall_forall in Hrecs.
    rewrite (recordOf_dom fields Hschema fvs (Hrecs fvs Hfvs)) in Hk.
    by apply elem_of_list_to_set in Hk.
  - intros Hk. destruct recs as [|fvs rest] eqn:E; [done|].
    apply Forall_cons in Hrecs as [Hr _].
    exists (dom (flattenValue EmptyString (VStruct fvs) ∅)). split.
    + simpl. apply list_elem_of_here.
    + rewrite (recordOf_dom fields Hschema fvs Hr). by apply elem_of_list_to_set.
Qed.

Lemma allKeys_NoDup : NoDup (allKeysOf (flattened tableOf)).
Proof. apply sortStrings_NoDup, NoDup_elements. Qed.

(** The keys of the constants, in the order of the header. *)
Definition constantKeys : list string := sortStrings (elements (dom (tconstants tableOf))).

Lemma constantKeys_spec k :
  k ∈ constantKeys ->
  k ∈ names fields /\ isConstKey (flattened tableOf) k = true /\
  tconstants tableOf !! k = Some (rowGet (default ∅ (head (flattened tableOf))) k).
Proof.
  unfold constantKeys. rewrite sortStrings_elem, elem_of_elements.
  rewrite !tableOf_constants.
  unfold constantsOf. destruct (1 <? _); [|set_solver].
  rewrite dom_list_to_map_L, elem_of_list_to_set, <- list_fmap_compose.
  intros Hk. apply list_elem_of_fmap in Hk as (k' & -> & Hk'). simpl.
  pose proof Hk' as Hin. apply list_elem_of_filter in Hk' as [Hc Hk'].
  split; [by apply allKeys_names|]. split; [by apply Is_true_eq_true|].
  apply elem_of_list_to_map_1.
  - rewrite fst_graph. apply NoDup_filter, allKeys_NoDup.
  - apply list_elem_of_fmap. by exists k'.
Qed.

Lemma activeKeys_names k : k ∈ activeKeys tableOf -> k ∈ names fields.
Proof.
  rewrite tableOf_active. unfold activeKeysOf.
  destruct (1 <? _).
  - intros Hk. apply list_elem_of_filter in Hk as [_ Hk]. by apply allKeys_names.
  - apply allKeys_names.
Qed.

Lemma activeKeys_NoDup : NoDup (activeKeys tableOf).
Proof.
  rewrite tableOf_active. unfold activeKeysOf.
  destruct (1 <? _); [apply NoDup_filter|]; apply allKeys_NoDup.
Qed.

Lemma keys_cover k :
  k ∈ names fields -> k ∈ constantKeys \/ k ∈ activeKeys tableOf.
Proof.
  intros Hk. apply allKeys_names in Hk.
  unfold constantKeys. rewrite sortStrings_elem, elem_of_elements.
  rewrite tableOf_constants, tableOf_active.
  unfold constantsOf, activeKeysOf. destruct (1 <? _); [|by right].
  rewrite dom_list_to_map_L, elem_of_list_to_set, <- list_fmap_compose.
  destruct (isConstKey (flattened tableOf) k) eqn:E.
  - left. apply list_elem_of_fmap. exists k. split; [done|].
    apply list_elem_of_filter. split; [by rewrite E|done].
  - right. apply list_elem_of_filter. split; [by rewrite E|done].
Qed.

End FlatTable.

(** *** Lines *)

Lemma edged_Join l sep : l <> [] -> Forall edged l -> edged (Join l sep).
Proof.
  intros Hne H. induction H as [|x l Hx Hl IH]; [done|].
  destruct l as [|y l]; [done|]. rewrite Join_cons. apply edged_app; [done|].
  by apply IH.
Qed.

Lemma graphic_line w : graphic w -> allBytes isLineByte w = true.
Proof.
  intros [_ H]. revert H. apply allBytes_impl. intros c Hc.
  unfold isLineByte. rewrite negb_true_iff. by apply graphic_neq.
Qed.

(** *** The row loops *)

Lemma dataLoop_steps T h m (L : list (string * list string * value)) st :
  (forall j line toks item, L !! j = Some (line, toks, item) ->
     TrimSpace line = line /\ line <> EmptyString /\ tokenizeRow line = Ok toks /\
     forall st', autoIncID st' = autoIncID st + Z.of_nat j * m ->
       processRow T false h toks st' =
         (mkRowState (rows st' ++ [item]) (autoIncID st' + m), Done)) ->
  dataLoop (map (fun x => fst (fst x)) L) T false h st =
    (mkRowState (rows st ++ map snd L) (autoIncID st + Z.of_nat (length L) * m), Done).
Proof.
  revert st. induction L as [|[[line toks] item] L IH]; intros st H.
  - simpl. rewrite app_nil_r. destruct st. simpl. do 2 f_equal. lia.
  - destruct (H O line toks item eq_refl) as (Ht & Hne & Htok & Hrow).
    cbn [map dataLoop fst snd]. rewrite Ht.
    apply String.eqb_neq in Hne. rewrite Hne, Htok.
    rewrite (Hrow st) by lia.
    rewrite IH.
    + cbn [rows autoIncID]. rewrite <- app_assoc. do 2 f_equal.
      cbn [length]. lia.
    + intros j line' toks' item' Hj. destruct (H (S j) line' toks' item' Hj)
        as (Ht' & Hne' & Htok' & Hrow').
      repeat split; try done. intros st' Hst'. apply Hrow'.
      rewrite Hst'. cbn [autoIncID]. lia.
Qed.

Lemma explicitLoop_steps T h m (items : list value) st :
  (forall j item, items !! j = Some item ->
     forall st', autoIncID st' = autoIncID st + Z.of_nat j * m ->
       processRow T false h [] st' =
         (mkRowState (rows st' ++ [item]) (autoIncID st' + m), Done)) ->
  explicitLoop (length items) T false h st =
    (mkRowState (rows st ++ items) (autoIncID st + Z.of_nat (length items) * m), Done).
Proof.
  revert st. induction items as [|item items IH]; intros st H.
  - simpl. rewrite app_nil_r. destruct st. simpl. do 2 f_equal. lia.
  - cbn [length explicitLoop]. rewrite (H O item eq_refl st) by lia.
    rewrite IH.
    + cbn [rows autoIncID]. rewrite <- app_assoc. do 2 f_equal. lia.
    + intros j item' Hj st' Hst'. apply (H (S j) item' Hj).
      rewrite Hst'. cbn [autoIncID]. lia.
Qed.

(** *** The plan of a row *)

Lemma autoCount_keys (hf : string -> headerField) (keys : list string) :
  NoDup keys ->
  (forall k, k ∈ keys -> htyp (hf k) = "i+"%string -> k = "id"%string) ->
  (autoCount (map hf keys) <= 1)%nat.
Proof.
  intros Hnd Hid. unfold autoCount.
  induction Hnd as [|k keys Hk Hnd IH]; [simpl; lia|].
  cbn [map]. destruct (decide (htyp (hf k) = "i+"%string)) as [E|E].
  - rewrite filter_cons_True by done. cbn [length].
    rewrite filter_none; [simpl; lia|].
    apply Forall_forall. intros x Hx E'. apply list_elem_of_fmap in Hx as (k' & -> & Hk').
    apply Hk. rewrite (Hid k) by (done || apply list_elem_of_here).
    rewrite <- (Hid k'); [done| |done]. by apply list_elem_of_further.
  - rewrite filter_cons_False by done. apply IH.
    intros k' Hk'. apply Hid. by apply list_elem_of_further.
Qed.

Section RowPlan.

Variable σ : schedule.
Variable fields : list (StructField * type).
Variable dcol : string -> string * columnStats * bool.

(** The header field of a key and the tokens of a row. *)
Definition fieldOf (k : string) : headerField := columnField k (colCode (dcol k)).

Definition liveKeys (keys : list string) : list (string * (string * columnStats * bool)) :=
  filter (fun kd => colSeq (snd kd) = false) (map (fun k => (k, dcol k)) keys).

Definition wiresOf (keys : list string) (row : gmap string cell) : list string :=
  map (fun kd => rowToken σ (colStats (snd kd)) (rowGet row (fst kd))) (liveKeys keys).

(** Key [k] in row [r]: the column of the key restores the value of its field. *)
Definition keyInRow (fvs : list (StructField * value)) (row : gmap string cell) (r : nat)
    (k : string) : Prop :=
  exists i f ty v vs,
    fieldAt fields i f ty k /\ fvs !! i = Some (f, v) /\ rowGet row k = cellOf v /\
    columnOk σ k ty vs (dcol k) /\ vs !! r = Some v.

Lemma rowPlan_keys fvs row r keys :
  Forall (keyInRow fvs row r) keys ->
  minInt <= Z.of_nat r + 1 <= maxInt ->
  exists toks,
    Forall2 wired (wiresOf keys row) toks /\
    Forall (fun w => allBytes isLineByte w = true) (wiresOf keys row) /\
    rowPlan fields (Z.of_nat r + 1) fvs (map fieldOf keys) toks.
Proof.
  intros H Hr. induction H as [|k keys (i & f & ty & v & vs & Hk & Hv & Hc & Hok & Hvs) _ IH].
  - exists []. repeat split; constructor.
  - destruct IH as (toks & Hw & Hl & Hplan).
    unfold wiresOf, liveKeys in *. cbn [map].
    destruct Hok as [Hg Hok]. fold (fieldOf k) in Hok.
    destruct (colSeq (dcol k)) eqn:Hseq.
    + rewrite filter_cons_False by (simpl; congruence).
      destruct Hok as (Hty & Hix & -> & Hval).
      exists toks. split; [done|]. split; [done|].
      apply plan_seq with i f; try done.
      * unfold fieldOf. by rewrite columnField_name.
      * by rewrite <- (Hval r v Hvs).
    + rewrite filter_cons_True by done. cbn [map fst snd].
      destruct Hok as (Hty & Hval). destruct (Hval r v Hvs) as (tok & Hwire & Hline & Hdec).
      rewrite Hc. exists (tok :: toks).
      split; [by constructor|]. split; [by constructor|].
      apply plan_live with i f ty v; try done.
      unfold fieldOf. by rewrite columnField_name.
Qed.

Lemma liveKeys_all keys :
  forallb colSeq (map dcol keys) = true -> liveKeys keys = [].
Proof.
  unfold liveKeys. induction keys as [|k keys IH]; [done|].
  cbn [map forallb]. rewrite andb_true_iff. intros [Hk H].
  rewrite filter_cons_False by (simpl; congruence). by apply IH.
Qed.

Lemma liveKeys_some keys :
  forallb colSeq (map dcol keys) = false -> liveKeys keys <> [].
Proof.
  unfold liveKeys. induction keys as [|k keys IH]; [done|].
  cbn [map forallb]. destruct (colSeq (dcol k)) eqn:Hk.
  - rewrite filter_cons_False by (simpl; congruence). cbn [andb]. apply IH.
  - rewrite filter_cons_True by done. done.
Qed.

End RowPlan.

(** *** Every column, every constant *)

Lemma column_any σ fl k ty vs :
  fl <> [] -> Z.of_nat (length fl) <= maxInt -> columnOf fl k ty vs ->
  columnOk σ k ty vs (decideColumn (Z.of_nat (length fl)) (statsOf fl k)).
Proof.
  intros Hne Hlen Hcol.
  inversion Hcol as [|row v fl' vs' [Hc Hs] Hrest]; subst; [done|].
  destruct Hs.
  - by apply column_bool.
  - by apply column_int.
  - by apply column_string.
  - by apply column_nil.
Qed.

Lemma columnSpec_graphic k code :
  safeName k = true -> allBytes isGraphic code = true -> graphic (columnSpec k code).
Proof.
  intros Hk Hcode. destruct (safeName_graphic k Hk) as [Hne Hg].
  destruct (columnSpec_sep k code) as [-> Hsep]. split.
  - destruct k; [done|]. by rewrite sapp_cons.
  - rewrite allBytes_app, Hg. cbn [andb]. unfold sepOf.
    destruct code as [|c keys]; [done|]. by destruct (_ || _).
Qed.

Lemma count_graphic n : graphic ("+" +:+ formatInt n).
Proof.
  split; [by rewrite sapp_cons|]. rewrite allBytes_app.
  by rewrite (proj2 (formatInt_graphic n)).
Qed.

Lemma constant_safe k ty v :
  safeName k = true -> safeCell ty v -> cellOf v <> None ->
  graphic (constantSpec k (cellOf v)) /\
  hname (constantField k (cellOf v)) = k /\
  reads "auto" (hval (constantField k (cellOf v))) ty v.
Proof.
  intros Hk Hs Hc. destruct (safeName_graphic k Hk) as [Hne Hg].
  assert (forall sp text, isGraphic sp = true -> allBytes isGraphic text = true ->
            graphic ("@" +:+ k +:+ String sp text)) as Hgr.
  { intros sp text Hsp Htext. split; [by rewrite sapp_cons|].
    by rewrite !allBytes_app, Hg, (allBytes_cons _ sp text), Hsp, Htext. }
  destruct (constantSpec_sep k (cellOf v)) as [-> _].
  destruct Hs as [b|n Hn|s Hs|e]; [| | |done]; cbn [cellOf constantSep constantText].
  - split; [apply Hgr; by destruct b|]. split; [done|].
    assert (constantText (Some (VBool b)) = if b then "y"%string else "n"%string) as E
      by (by destruct b).
    unfold constantField. cbn [constantSep]. rewrite E. apply reads_yn.
  - split; [apply Hgr; [done|apply formatInt_graphic]|]. split; [done|].
    apply reads_int; auto.
  - pose proof (under_safe s "s" Hs eq_refl) as ([_ Hu] & _).
    split; [by apply Hgr|]. split; [done|].
    unfold constantField, constantFieldOf. cbn [constantSep constantText Ascii.eqb Bool.eqb hval].
    change (serializeCell (Some (VString s))) with (under s).
    destruct (safeString_inv s Hs) as (_ & Hb & _).
    rewrite under_restore by (revert Hb; apply allBytes_impl, textByte_underscore).
    by apply (quoted_safe s "auto").
Qed.

Lemma Forall2_map_diag {A B C} (P : B -> C -> Prop) (f : A -> B) (g : A -> C) (l : list A) :
  Forall (fun x => P (f x) (g x)) l -> Forall2 P (map f l) (map g l).
Proof. induction 1; by constructor. Qed.

Lemma head_map {A B} (f : A -> B) (l : list A) (x : A) :
  head l = Some x -> head (map f l) = Some (f x).
Proof. destruct l; [done|]. simpl. by intros [= ->]. Qed.

Lemma head_nonempty {A} (l : list A) : l <> [] -> exists x, head l = Some x /\ x ∈ l.
Proof. destruct l as [|x l]; [done|]. intros _. exists x. split; [done|]. apply list_elem_of_here. Qed.

Section RoundTrip.

Variable σ : schedule.
Hypothesis Hσ : admissible σ.
Variable fields : list (StructField * type).
Hypothesis Hschema : flatSchema fields.
Variable recs : list (list (StructField * value)).
Hypothesis Hrecs : Forall (recordOf fields) recs.
Hypothesis Hne : recs <> [].
Hypothesis Hlen : Z.of_nat (length recs) <= maxInt.

Let t : table := tableOf recs.

(** The row of a record, and the value of field [i] in it. *)
Definition rowOf (fvs : list (StructField * value)) : gmap string cell :=
  flattenValue EmptyString (VStruct fvs) ∅.

Definition valueAt (i : nat) (fvs : list (StructField * value)) : value :=
  default (VBool false) (snd <$> fvs !! i).

Definition dcolOf (k : string) : string * columnStats * bool :=
  decideColumn (tlength t) (statsOf (flattened t) k).

Lemma flattened_rows : flattened t = map rowOf recs.
Proof. apply tableOf_flattened. Qed.

Lemma rows_nonempty : flattened t <> [].
Proof. rewrite flattened_rows. by destruct recs. Qed.

Lemma columnOf_key i f ty k :
  fieldAt fields i f ty k -> columnOf (flattened t) k ty (map (valueAt i) recs).
Proof.
  intros Hk. rewrite flattened_rows. unfold columnOf.
  apply Forall2_map_diag.
  eapply Forall_impl; [exact Hrecs|]. intros fvs Hr.
  destruct (recordOf_lookup fields fvs i f ty k Hr Hk) as (v & Hv & Hs).
  unfold valueAt. rewrite Hv. cbn [fmap option_fmap option_map default snd].
  split; [|done]. by apply (recordOf_rowGet fields Hschema fvs i f ty k v).
Qed.

Lemma dcolOf_ok i f ty k :
  fieldAt fields i f ty k -> columnOk σ k ty (map (valueAt i) recs) (dcolOf k).
Proof.
  intros Hk. unfold dcolOf. replace (tlength t) with (Z.of_nat (length (flattened t))).
  - apply column_any; [apply rows_nonempty| |exact (columnOf_key i f ty k Hk)].
    by rewrite flattened_rows, length_map.
  - unfold t. by rewrite tableOf_length, tableOf_rows_length.
Qed.

Lemma keyInRow_active r fvs k :
  recs !! r = Some fvs -> k ∈ names fields ->
  keyInRow σ fields dcolOf fvs (rowOf fvs) r k.
Proof.
  intros Hr Hk. apply names_fieldAt in Hk as (i & f & ty & Hk).
  pose proof Hrecs as Hall. rewrite Forall_forall in Hall.
  assert (recordOf fields fvs) as Hrec by (by eapply Hall, list_elem_of_lookup_2).
  destruct (recordOf_lookup fields fvs i f ty k Hrec Hk) as (v & Hv & Hs).
  exists i, f, ty, v, (map (valueAt i) recs).
  split; [done|]. split; [done|].
  split; [by apply (recordOf_rowGet fields Hschema fvs i f ty k v)|].
  split; [exact (dcolOf_ok i f ty k Hk)|].
  rewrite list_lookup_fmap, Hr. simpl. unfold valueAt. by rewrite Hv.
Qed.

(** A constant holds the same value in every record. *)
Lemma constant_value k fvs :
  k ∈ constantKeys recs -> fvs ∈ recs ->
  exists i f ty v,
    fieldAt fields i f ty k /\ fvs !! i = Some (f, v) /\ safeCell ty v /\
    cellOf v <> None /\ tconstants t !! k = Some (cellOf v).
Proof.
  intros Hk Hfvs.
  destruct (constantKeys_spec fields Hschema recs Hrecs Hne k Hk) as (Hname & Hconst & Hlook).
  apply names_fieldAt in Hname as (i & f & ty & Hi).
  fold t in Hconst, Hlook. rewrite flattened_rows in Hconst, Hlook.
  pose proof Hrecs as Hall. rewrite Forall_forall in Hall.
  destruct (recordOf_lookup fields fvs i f ty k (Hall fvs Hfvs) Hi) as (v & Hv & Hs).
  destruct (head_nonempty recs Hne) as (fvs0 & Hhead & Hin0).
  assert (recordOf fields fvs0) as Hr0 by (by apply Hall).
  destruct (recordOf_lookup fields fvs0 i f ty k Hr0 Hi) as (v0 & Hv0 & Hs0).
  pose proof (recordOf_rowGet fields Hschema fvs0 i f ty k v0 Hr0 Hi Hv0) as Hget0.
  pose proof (recordOf_rowGet fields Hschema fvs i f ty k v (Hall fvs Hfvs) Hi Hv) as Hget.
  fold (rowOf fvs0) in Hget0. fold (rowOf fvs) in Hget.
  unfold isConstKey in Hconst.
  rewrite (head_map rowOf recs fvs0 Hhead) in Hconst, Hlook.
  cbn [default] in Hconst, Hlook. unfold id in Hconst, Hlook.
  rewrite Hget0 in Hconst, Hlook.
  apply andb_true_iff in Hconst as [Hsame Hsome].
  rewrite forallb_forall in Hsame.
  assert (cell_eqb (rowGet (rowOf fvs) k) (cellOf v0) = true) as Heq.
  { apply Hsame. apply in_map, list_elem_of_In. done. }
  rewrite Hget in Heq.
  assert (v = v0) as -> by (by eapply cell_eqb_primitive).
  exists i, f, ty, v0. split; [done|]. split; [done|]. split; [done|]. split; [|done].
  intros E0. by rewrite E0 in Hsome.
Qed.

Definition constantsOfHeader : list (string * cell) :=
  map (fun k => (k, default None (tconstants t !! k))) (constantKeys recs).

Definition columnsOfHeader : list (string * string) :=
  map (fun k => (k, colCode (dcolOf k))) (activeKeys t).

Lemma constants_decode fvs :
  fvs ∈ recs ->
  constantsFor fields fvs (map (fun kc => constantField (fst kc) (snd kc)) constantsOfHeader).
Proof.
  intros Hfvs. unfold constantsFor, constantsOfHeader. rewrite map_map.
  apply Forall_forall. intros c Hc. apply list_elem_of_fmap in Hc as (k & -> & Hk).
  cbn [fst snd].
  destruct (constant_value k fvs Hk Hfvs) as (i & f & ty & v & Hi & Hv & Hs & Hsome & Hl).
  destruct (constant_safe k ty v (fieldAt_safe fields Hschema i f ty k Hi) Hs Hsome)
    as (_ & Hn & Hreads).
  exists i, f, ty, v.
  assert (default None (tconstants t !! k) = cellOf v) as ->
    by exact (f_equal (default None) Hl).
  by rewrite Hn.
Qed.

Lemma constants_graphic :
  Forall graphic (map (fun kc => constantSpec (fst kc) (snd kc)) constantsOfHeader) /\
  Forall (fun kc => safeName (fst kc) = true) constantsOfHeader.
Proof.
  unfold constantsOfHeader. rewrite map_map.
  destruct (head_nonempty recs Hne) as (fvs & _ & Hfvs).
  split; apply Forall_forall; intros x Hx; apply list_elem_of_fmap in Hx as (k & -> & Hk);
    cbn [fst snd];
    destruct (constant_value k fvs Hk Hfvs) as (i & f & ty & v & Hi & Hv & Hs & Hsome & Hl);
    pose proof (fieldAt_safe fields Hschema i f ty k Hi) as Hsafe; [|done].
  assert (default None (tconstants t !! k) = cellOf v) as ->
    by exact (f_equal (default None) Hl).
  by apply (constant_safe k ty v).
Qed.

Lemma columns_graphic :
  Forall graphic (map (fun kc => columnSpec (fst kc) (snd kc)) columnsOfHeader) /\
  Forall (fun kc => safeName (fst kc) = true) columnsOfHeader.
Proof.
  unfold columnsOfHeader. rewrite map_map.
  split; apply Forall_forall; intros x Hx; apply list_elem_of_fmap in Hx as (k & -> & Hk);
    cbn [fst snd];
    apply (activeKeys_names fields Hschema recs Hrecs Hne), names_fieldAt in Hk
      as (i & f & ty & Hi);
    pose proof (fieldAt_safe fields Hschema i f ty k Hi) as Hsafe; [|done].
  apply columnSpec_graphic; [done|]. by apply (dcolOf_ok i f ty k Hi).
Qed.


(** The header the decoder builds from the header line. *)
Definition countOfHeader : list Z := if allSkipped t then [tlength t] else [].

Definition headerOf : header :=
  mkHeader (map (fun kc => columnField (fst kc) (snd kc)) columnsOfHeader)
    (map (fun kc => constantField (fst kc) (snd kc)) constantsOfHeader)
    (hd (-1) countOfHeader).

Definition tokensOfHeader : list string :=
  map (fun kc => constantSpec (fst kc) (snd kc)) constantsOfHeader
  ++ map (fun kc => columnSpec (fst kc) (snd kc)) columnsOfHeader
  ++ map (fun n => "+" +:+ formatInt n) countOfHeader.

Lemma length_positive : 0 < tlength t.
Proof. unfold t. rewrite tableOf_length. destruct recs; [done|]. simpl. lia. Qed.

Lemma decided_keys : decided t = map dcolOf (activeKeys t).
Proof. reflexivity. Qed.

Lemma activeKeys_safe k : k ∈ activeKeys t -> safeName k = true.
Proof.
  intros Hk. apply (activeKeys_names fields Hschema recs Hrecs Hne), names_fieldAt in Hk
    as (i & f & ty & Hi).
  by apply (fieldAt_safe fields Hschema i f ty k).
Qed.

Lemma constantKeys_safe k : k ∈ constantKeys recs -> safeName k = true.
Proof.
  intros Hk. destruct (constantKeys_spec fields Hschema recs Hrecs Hne k Hk) as (Hname & _).
  apply names_fieldAt in Hname as (i & f & ty & Hi).
  by apply (fieldAt_safe fields Hschema i f ty k).
Qed.

Lemma headerLine_tokens :
  headerLineOf σ ∅ t = Join (["#"%string] ++ tokensOfHeader) " ".
Proof.
  unfold headerLineOf, tokensOfHeader. do 3 f_equal; [|f_equal].
  - unfold constParts, constantsOfHeader. rewrite map_map. apply map_ext_in.
    intros k Hk. cbn [fst snd]. rewrite aliasedName_safe; [done..|].
    apply constantKeys_safe. by apply list_elem_of_In.
  - unfold colParts, columnsOfHeader. rewrite decided_keys, zip_map_r, !map_map.
    apply map_ext_in. intros k Hk. cbn [fst snd]. rewrite aliasedName_safe; [done..|].
    apply activeKeys_safe. by apply list_elem_of_In.
  - unfold rowCountParts, countOfHeader.
    pose proof length_positive as Hpos. apply Z.ltb_lt in Hpos. rewrite Hpos, andb_true_r.
    by destruct (allSkipped t).
Qed.

Lemma tokens_graphic : Forall graphic tokensOfHeader /\ tokensOfHeader <> [].
Proof.
  unfold tokensOfHeader. split.
  - rewrite !Forall_app. split; [apply constants_graphic|]. split; [apply columns_graphic|].
    unfold countOfHeader. destruct (allSkipped t); [|constructor].
    constructor; [apply count_graphic|constructor].
  - unfold countOfHeader, columnsOfHeader. destruct (allSkipped t) eqn:E.
    + intros H. apply app_eq_nil in H as [_ H]. by apply app_eq_nil in H as [_ H].
    + rewrite allSkipped_spec, decided_keys in E.
      destruct (activeKeys t); [done|]. intros H.
      apply app_eq_nil in H as [_ H]. by apply app_eq_nil in H as [H _].
Qed.

Lemma header_parse : parseHeader ∅ (headerLineOf σ ∅ t) = Ok headerOf.
Proof.
  rewrite headerLine_tokens. unfold tokensOfHeader, headerOf.
  destruct tokens_graphic as [Hg Hnil].
  apply parseHeader_line; try done.
  - apply constants_graphic.
  - apply columns_graphic.
  - unfold countOfHeader. destruct (allSkipped t); repeat constructor.
    + pose proof length_positive. unfold minInt. lia.
    + unfold t. by rewrite tableOf_length.
  - unfold countOfHeader. destruct (allSkipped t); simpl; lia.
Qed.

Lemma headerOf_headers : headers headerOf = map (fieldOf dcolOf) (activeKeys t).
Proof. unfold headerOf, columnsOfHeader. cbn [headers]. by rewrite map_map. Qed.

Lemma constantField_name k c : hname (constantField k c) = k.
Proof. unfold constantField, constantFieldOf. by destruct (Ascii.eqb _ _). Qed.

Lemma headerOf_names :
  map hname (constants headerOf) = constantKeys recs /\
  map hname (headers headerOf) = activeKeys t.
Proof.
  split.
  - unfold headerOf, constantsOfHeader. cbn [constants]. rewrite !map_map.
    rewrite <- (map_id (constantKeys recs)) at 2. apply map_ext. intros k.
    cbn [fst snd]. apply constantField_name.
  - rewrite headerOf_headers, map_map.
    rewrite <- (map_id (activeKeys t)) at 2. apply map_ext. intros k.
    unfold fieldOf. apply columnField_name.
Qed.

Lemma headerOf_autoCount : (autoCount (headers headerOf) <= 1)%nat.
Proof.
  rewrite headerOf_headers. apply autoCount_keys.
  - apply (activeKeys_NoDup recs).
  - intros k Hk Hty.
    apply (activeKeys_names fields Hschema recs Hrecs Hne), names_fieldAt in Hk
      as (i & f & ty & Hi).
    destruct (dcolOf_ok i f ty k Hi) as [_ Hok]. fold (fieldOf dcolOf k) in Hok.
    destruct (colSeq (dcolOf k)) eqn:Hseq; [|by destruct Hok].
    apply decideColumn_isSeq in Hseq. by apply statsOf_isSeq in Hseq.
Qed.

(** The line of a row. *)
Lemma rowLine_wires fvs :
  rowLine σ t (rowOf fvs) = Join (wiresOf σ dcolOf (activeKeys t) (rowOf fvs)) " ".
Proof.
  rewrite rowLine_live. unfold wiresOf, liveKeys. by rewrite decided_keys, zip_map_r.
Qed.

(** A row of the document gives its record back. *)
Lemma row_decodes r fvs :
  recs !! r = Some fvs ->
  exists toks,
    Forall2 wired (wiresOf σ dcolOf (activeKeys t) (rowOf fvs)) toks /\
    Forall (fun w => allBytes isLineByte w = true)
      (wiresOf σ dcolOf (activeKeys t) (rowOf fvs)) /\
    forall st,
      (autoCount (headers headerOf) = 1%nat -> autoIncID st = Z.of_nat r) ->
      processRow (TStruct fields) false headerOf toks st =
        (mkRowState (rows st ++ [VStruct fvs])
           (autoIncID st + Z.of_nat (autoCount (headers headerOf))), Done).
Proof.
  intros Hr.
  pose proof Hrecs as Hall. rewrite Forall_forall in Hall.
  assert (fvs ∈ recs) as Hin by (by eapply list_elem_of_lookup_2).
  destruct (rowPlan_keys σ fields dcolOf fvs (rowOf fvs) r (activeKeys t))
    as (toks & Hw & Hl & Hplan).
  { apply Forall_forall. intros k Hk. apply keyInRow_active; [done|].
    by apply (activeKeys_names fields Hschema recs Hrecs Hne). }
  { apply lookup_lt_Some in Hr. unfold minInt. lia. }
  exists toks. split; [done|]. split; [done|]. intros st Hst.
  destruct headerOf_names as [Hcn Hhn].
  apply (processRow_flat fields Hschema (Z.of_nat r + 1) fvs headerOf toks st).
  - by apply Hall.
  - by apply constants_decode.
  - by rewrite headerOf_headers.
  - intros k Hk. rewrite Hcn, Hhn. by apply (keys_cover fields Hschema recs Hrecs Hne).
  - apply headerOf_autoCount.
  - intros H1. rewrite (Hst H1). done.
Qed.

(** The lines of the document. *)
Definition rowLinesOf : list string :=
  if allSkipped t then [] else map (fun fvs => rowLine σ t (rowOf fvs)) recs.

Definition linesOf : list string := headerLineOf σ ∅ t :: rowLinesOf.

Lemma emit_lines : emit σ ∅ t = Join linesOf newline +:+ newline.
Proof.
  unfold emit, linesOf, rowLinesOf, aliasLines. rewrite map_size_empty.
  change (0 <? Z.of_nat 0) with false. cbn [app].
  destruct (allSkipped t); [done|]. symmetry.
  etransitivity;
    [apply (Join_lines [headerLineOf σ ∅ t] (map (fun fvs => rowLine σ t (rowOf fvs)) recs));
     done|].
  by rewrite flattened_rows, !map_map.
Qed.

Lemma header_line :
  edged (headerLineOf σ ∅ t) /\ allBytes isLineByte (headerLineOf σ ∅ t) = true /\
  HasPrefix (headerLineOf σ ∅ t) "#" = true /\ HasPrefix (headerLineOf σ ∅ t) "%" = false.
Proof.
  rewrite headerLine_tokens. destruct tokens_graphic as [Hg Hnil].
  assert (Forall graphic (["#"%string] ++ tokensOfHeader)) as Hall.
  { apply Forall_app. split; [|done]. by repeat constructor. }
  split; [|split].
  - apply edged_Join; [done|]. eapply Forall_impl; [exact Hall|]. apply graphic_edged.
  - apply allBytes_Join; [|done]. eapply Forall_impl; [exact Hall|]. apply graphic_line.
  - destruct tokensOfHeader as [|tok toks]; [done|]. cbn [app]. rewrite Join_cons.
    by rewrite sapp_cons, !HasPrefix_cons.
Qed.

Lemma wires_nonempty fvs :
  allSkipped t = false -> wiresOf σ dcolOf (activeKeys t) (rowOf fvs) <> [].
Proof.
  rewrite allSkipped_spec, decided_keys. intros H. unfold wiresOf.
  pose proof (liveKeys_some dcolOf (activeKeys t) H) as Hl.
  by destruct (liveKeys dcolOf (activeKeys t)).
Qed.

Lemma wires_empty fvs :
  allSkipped t = true -> wiresOf σ dcolOf (activeKeys t) (rowOf fvs) = [].
Proof.
  rewrite allSkipped_spec, decided_keys. intros H. unfold wiresOf.
  by rewrite (liveKeys_all dcolOf (activeKeys t) H).
Qed.

Lemma row_line fvs :
  allSkipped t = false -> fvs ∈ recs ->
  edged (rowLine σ t (rowOf fvs)) /\ allBytes isLineByte (rowLine σ t (rowOf fvs)) = true.
Proof.
  intros Hskip Hin. apply list_elem_of_lookup_1 in Hin as [r Hr].
  destruct (row_decodes r fvs Hr) as (toks & Hw & Hl & _).
  rewrite rowLine_wires. split.
  - apply edged_Join; [by apply wires_nonempty|].
    clear Hl. induction Hw as [|w tok ws toks' Hwt _ IH]; constructor; [|done].
    by eapply wired_edged.
  - by apply allBytes_Join.
Qed.

Lemma lines_ok :
  Forall edged linesOf /\ Forall (fun l => allBytes isLineByte l = true) linesOf.
Proof.
  unfold linesOf, rowLinesOf. destruct header_line as (He & Hl & _).
  destruct (allSkipped t) eqn:Hskip; [split; (constructor; [done|constructor])|].
  split; constructor; try done; apply Forall_forall; intros l Hin;
    apply list_elem_of_fmap in Hin as (fvs & -> & Hfvs); by apply row_line.
Qed.

(** What the tokenizer returns for a line. *)
Definition tokensOf (line : string) : list string :=
  match tokenizeRow line with
  | Ok toks => toks
  | _ => []
  end.

Lemma rows_decode :
  let m := Z.of_nat (autoCount (headers headerOf)) in
  let st0 := mkRowState [] 0 in
  (if 0 <? explicitRows headerOf then
     explicitLoop (Z.to_nat (explicitRows headerOf)) (TStruct fields) false headerOf st0
   else (st0, Done)) =
    (if allSkipped t then mkRowState (map VStruct recs) (Z.of_nat (length recs) * m) else st0,
     Done) /\
  forall st,
    (allSkipped t = false -> st = st0) ->
    exists c, dataLoop rowLinesOf (TStruct fields) false headerOf st =
                (mkRowState (if allSkipped t then rows st else map VStruct recs) c, Done).
Proof.
  intros m st0. pose proof headerOf_autoCount as Hle. split.
  - unfold headerOf at 1 2. cbn [explicitRows]. unfold countOfHeader.
    destruct (allSkipped t) eqn:Hskip; [|done]. cbn [hd].
    pose proof length_positive as Hpos. apply Z.ltb_lt in Hpos. rewrite Hpos.
    unfold t. rewrite tableOf_length, Nat2Z.id.
    rewrite <- (length_map VStruct recs) at 1.
    rewrite (explicitLoop_steps (TStruct fields) headerOf m (map VStruct recs) st0).
    + cbn [rows autoIncID st0 app]. by rewrite length_map, Z.add_0_l.
    + intros j item Hj st' Hst'. rewrite list_lookup_fmap in Hj.
      destruct (recs !! j) as [fvs|] eqn:Hr; [|done]. injection Hj as <-.
      destruct (row_decodes j fvs Hr) as (toks & Hw & _ & Hrow).
      rewrite wires_empty in Hw by done. apply Forall2_nil_inv_l in Hw as ->.
      apply Hrow. intros H1. rewrite Hst'. cbn [autoIncID st0]. unfold m. rewrite H1. lia.
  - intros st Hst. unfold rowLinesOf. destruct (allSkipped t) eqn:Hskip.
    + exists (autoIncID st). by destruct st.
    + rewrite (Hst eq_refl).
      set (L := map (fun fvs => (rowLine σ t (rowOf fvs),
                                 tokensOf (rowLine σ t (rowOf fvs)), VStruct fvs)) recs).
      assert (map (fun fvs => rowLine σ t (rowOf fvs)) recs =
              map (fun x => fst (fst x)) L) as -> by (unfold L; by rewrite map_map).
      rewrite (dataLoop_steps (TStruct fields) headerOf m L st0).
      * eexists. cbn [rows st0 app]. unfold L. by rewrite map_map.
      * intros j line toks item Hj. unfold L in Hj. rewrite list_lookup_fmap in Hj.
        destruct (recs !! j) as [fvs|] eqn:Hr; [|done]. injection Hj as <- <- <-.
        destruct (row_decodes j fvs Hr) as (toks & Hw & _ & Hrow).
        assert (fvs ∈ recs) as Hin by (by eapply list_elem_of_lookup_2).
        destruct (row_line fvs Hskip Hin) as [He _].
        assert (tokenizeRow (rowLine σ t (rowOf fvs)) = Ok toks) as Htok.
        { rewrite rowLine_wires. by apply tokenizeRow_Join. }
        split; [by apply TrimSpace_edged|]. split; [by apply edged_nonempty|].
        unfold tokensOf. rewrite Htok. split; [done|].
        intros st' Hst'. apply Hrow. intros H1. rewrite Hst'.
        cbn [autoIncID st0]. unfold m. rewrite H1. lia.
Qed.

(** Decoding the document gives the records back. *)
Lemma decode_emit init :
  Forall (fun l => len l < MaxScanTokenSize) (Split (emit σ ∅ t) "010") ->
  decode (emit σ ∅ t) (APtrSlice (TStruct fields) init) =
    (APtrSlice (TStruct fields) (map VStruct recs), Done).
Proof.
  intros Hshort. rewrite emit_lines in *.
  destruct lines_ok as [Hedged Hbytes].
  assert (linesOf <> []) as Hnil by done.
  assert (Forall (fun l => len l < MaxScanTokenSize) linesOf) as Hlens.
  { unfold newline in Hshort. rewrite Split_app in Hshort.
    apply Forall_app in Hshort as [Hshort _].
    rewrite Split_Join in Hshort; [done|done|].
    eapply Forall_impl; [exact Hbytes|]. intros l. apply Index_none. }
  pose proof (edged_Join linesOf newline Hnil Hedged) as Hdata.
  destruct header_line as (Hhe & _ & Hhash & Hpct).
  unfold decode, decodeTarget. rewrite (TrimSpace_edged_newline _ Hdata).
  assert (exists rest, Join linesOf newline = String "#" rest) as [rest Erest].
  { apply HasPrefix_spec in Hhash as [r Hr]. unfold linesOf. rewrite Hr.
    destruct rowLinesOf; [by exists r|]. rewrite Join_cons, sapp_cons, sapp_nil_l.
    by eexists. }
  rewrite Erest. cbn [String.length Nat.eqb]. rewrite <- Erest.
  unfold decodeTabular. rewrite (scanLines_lines linesOf Hnil Hedged Hbytes Hlens).
  unfold linesOf at 1. cbn [scanHeader].
  rewrite (TrimSpace_edged _ Hhe).
  assert (String.eqb (headerLineOf σ ∅ t) "" = false) as Hhne.
  { apply String.eqb_neq. by apply edged_nonempty. }
  rewrite Hhne, Hpct, Hhash. cbv iota. rewrite Hhne, header_parse.
  destruct rows_decode as [Hexp Hdata'].
  cbv zeta in Hexp. rewrite Hexp.
  destruct (Hdata' (if allSkipped t
                    then mkRowState (map VStruct recs)
                           (Z.of_nat (length recs) * Z.of_nat (autoCount (headers headerOf)))
                    else mkRowState [] 0)) as [c Hloop].
  { by intros ->. }
  rewrite Hloop. cbn [rows]. by destruct (allSkipped t).
Qed.
End RoundTrip.

Lemma flatRecord_records fields items :
  Forall (flatRecord fields) items ->
  exists recs, items = map VStruct recs /\ Forall (recordOf fields) recs.
Proof.
  induction 1 as [|item items (fvs & -> & Hr) _ (recs & -> & Hrecs)].
  - by exists [].
  - exists (fvs :: recs). split; [done|]. by constructor.
Qed.


(** An address book: a sequence number, a name, a flag and an optional note. *)
Definition contactFields : list (StructField * type) :=
  [(mkField "ID" "id" "", TInt); (mkField "Name" "name" "", TString);
   (mkField "Active" "" "active,omitempty", TBool); (mkField "Note" "" "", TPtr TString)].

Definition contact (id : Z) (name : string) (active : bool) : value :=
  VStruct (zip (map fst contactFields) [VInt id; VString name; VBool active; VNil TString]).

Definition contacts : list value :=
  [contact 1 "Ada Lovelace" true; contact 2 "Alan Turing" false].


(** ** The round trip of the claim *)

Definition nameOnly : list (StructField * type) := [(mkField "Name" "name" "", TString)].

Definition named (s : string) : value := VStruct [(mkField "Name" "name" "", VString s)].




(** ** Round trip of a single flat record (inline format) *)

(** *** The inline parser on the pairs the encoder writes *)

Lemma nameByte_key c :
  isNameByte c = true ->
  Ascii.eqb c ":" || Ascii.eqb c "=" || Ascii.eqb c " " = false /\
  Ascii.eqb c " " || Ascii.eqb c "010" = false /\
  Ascii.eqb c ":" || Ascii.eqb c "=" = false.
Proof. destruct c as [[] [] [] [] [] [] [] []]; try discriminate; done. Qed.

Lemma parseFrom_key k rest cur acc :
  allBytes isNameByte k = true ->
  parseFrom (k +:+ rest) (InKey cur) acc = parseFrom rest (InKey (cur +:+ k)) acc.
Proof.
  revert cur. induction k as [|c k IH]; intros cur H.
  - by rewrite sapp_nil_l, sapp_nil_r.
  - rewrite allBytes_cons, andb_true_iff in H. destruct H as [Hc Hk].
    destruct (nameByte_key c Hc) as (H1 & _ & _).
    rewrite sapp_cons. cbn [parseFrom]. rewrite H1, IH by done.
    unfold snoc. by rewrite sapp_assoc.
Qed.

Lemma parseFrom_value v rest k sp cur acc :
  allBytes isGraphic v = true ->
  parseFrom (v +:+ rest) (InValue k sp cur) acc =
    parseFrom rest (InValue k sp (cur +:+ v)) acc.
Proof.
  revert cur. induction v as [|c v IH]; intros cur H.
  - by rewrite sapp_nil_l, sapp_nil_r.
  - rewrite allBytes_cons, andb_true_iff in H. destruct H as [Hc Hv].
    rewrite sapp_cons. cbn [parseFrom]. rewrite (graphic_neq c " " Hc) by done.
    rewrite IH by done. unfold snoc. by rewrite sapp_assoc.
Qed.

(** A pair as it is written: a key, a separator and a value in one word. *)
Record writtenPair (k : string) (sp : ascii) (text : string) : Prop := mkWritten {
  written_key : safeName k = true;
  written_sep : sp = ":"%char \/ sp = "="%char;
  written_text : graphic text;
  written_open : HasPrefix text "{" = false
}.

Lemma parseFrom_pair k sp text rest acc :
  writtenPair k sp text ->
  parseFrom (k +:+ String sp text +:+ rest) AtPair acc =
    parseFrom rest (InValue k (String sp EmptyString) text) acc.
Proof.
  intros [Hk Hsp [Hne Hg] Hopen].
  destruct (safeName_inv k Hk) as (c & r & -> & Hc & Hall).
  rewrite allBytes_cons, andb_true_iff in Hall. destruct Hall as [_ Hr].
  destruct (nameByte_key c Hc) as (_ & H2 & H3).
  rewrite !sapp_cons. cbn [parseFrom]. rewrite H2, H3.
  rewrite parseFrom_key by done. cbn [parseFrom].
  assert (Ascii.eqb sp ":" || Ascii.eqb sp "=" || Ascii.eqb sp " " = true) as ->
    by (by destruct Hsp as [-> | ->]).
  destruct text as [|d text]; [done|]. rewrite !sapp_cons, sapp_nil_l. cbn [parseFrom].
  rewrite HasPrefix_cons, HasPrefix_nil, andb_true_r in Hopen.
  rewrite (Ascii.eqb_sym d "{"), Hopen.
  rewrite allBytes_cons, andb_true_iff in Hg. destruct Hg as [Hd Hg].
  rewrite (graphic_neq d " " Hd) by done.
  rewrite parseFrom_value by done. by rewrite sapp_cons, sapp_nil_l.
Qed.

Definition renderPair (p : inlinePair) : string := key p +:+ sep p +:+ pvalue p.

Definition writtenInline (p : inlinePair) : Prop :=
  exists sp, sep p = String sp EmptyString /\ writtenPair (key p) sp (pvalue p).

Lemma parseFrom_Join pairs acc :
  Forall writtenInline pairs ->
  parseFrom (Join (map renderPair pairs) " ") AtPair acc = Ok (acc ++ pairs).
Proof.
  intros H. revert acc. induction H as [|[k s v] pairs (sp & Hs & Hw) Hrest IH]; intros acc.
  - by rewrite app_nil_r.
  - simpl in Hs, Hw. subst s. unfold renderPair at 1. cbn [map key sep pvalue].
    rewrite sapp_cons, sapp_nil_l.
    destruct pairs as [|p pairs].
    + cbn [Join map]. rewrite <- (sapp_nil_r (String sp v)), parseFrom_pair by done.
      done.
    + cbn [map]. rewrite Join_cons, sapp_assoc, parseFrom_pair by done.
      rewrite sapp_cons, sapp_nil_l. cbn [parseFrom Ascii.eqb Bool.eqb].
      cbn [map] in IH. rewrite IH. by rewrite <- app_assoc.
Qed.

Lemma parse_Join pairs :
  Forall writtenInline pairs -> parse (Join (map renderPair pairs) " ") = Ok pairs.
Proof. intros H. unfold parse. by rewrite parseFrom_Join. Qed.

(** *** The pairs of a flat record *)

Definition inlineSep (v : value) : ascii :=
  match v with
  | VString _ => "="%char
  | _ => ":"%char
  end.

Definition inlineText (v : value) : string :=
  match v with
  | VBool true => "y"
  | VBool false => "n"
  | _ => serializeValue v
  end.

Definition pairOfField (fv : StructField * value) : inlinePair :=
  mkPair (exposedName (fst fv)) (String (inlineSep (snd fv)) EmptyString)
    (inlineText (snd fv)).

Lemma formatInlinePair_primitive k ty v :
  safeCell ty v ->
  formatInlinePair k v = k +:+ String (inlineSep v) EmptyString +:+ inlineText v.
Proof.
  intros [[]|n Hn|s Hs|e]; try reflexivity.
  unfold formatInlinePair, formatInlinePairWith. cbn [inlineSep inlineText serializeValue].
  fold (under s). do 2 f_equal. apply ReplaceAll_absent.
  destruct (under_safe s "s" Hs eq_refl) as ([_ Hg] & _).
  revert Hg. apply allBytes_impl. intros c Hc. rewrite negb_true_iff.
  by apply graphic_neq.
Qed.

Lemma pairOfField_written f ty v :
  safeName (exposedName f) = true -> safeCell ty v -> writtenInline (pairOfField (f, v)).
Proof.
  intros Hk Hs. exists (inlineSep v). split; [done|]. cbn [pairOfField key pvalue fst snd].
  destruct Hs as [[]|n Hn|s Hs|e]; split; try done; auto.
  - apply formatInt_graphic.
  - by apply formatInt_head.
  - by apply (under_safe s "s").
  - by apply (under_safe s "s").
Qed.

(** The value a pair hands to [setDeepField]. *)
Definition pairValue (p : inlinePair) : string :=
  if String.eqb (sep p) "=" then ReplaceAll (pvalue p) "_" " " else pvalue p.

Lemma setDeepField_null fs k typ i f fv :
  dotFree k -> findField fs k = Some i -> fs !! i = Some (f, fv) ->
  setDeepField (VStruct fs) k typ "~" =
    (VStruct (<[i := (f, zero (typeOf fv))]> fs), Done).
Proof.
  intros Hk Hf Hi. unfold setDeepField, setDeepFieldWith. rewrite (Split_no_sep k "." Hk).
  cbn [walk derefWith String.length setFieldFuel]. by rewrite Hf, Hi.
Qed.

Lemma pairOfField_assign fs i f fv ty v :
  dotFree (exposedName f) -> findField fs (exposedName f) = Some i ->
  fs !! i = Some (f, fv) -> typeOf fv = ty -> safeCell ty v ->
  setDeepField (VStruct fs) (key (pairOfField (f, v))) "auto" (pairValue (pairOfField (f, v))) =
    (VStruct (<[i := (f, v)]> fs), Done).
Proof.
  intros Hk Hf Hi Hty Hs. unfold pairValue. cbn [pairOfField key sep pvalue fst snd].
  destruct Hs as [b|n Hn|s Hs|e]; cbn [inlineSep inlineText String.eqb Ascii.eqb Bool.eqb].
  - apply setDeepField_reads with fv; try done. rewrite Hty.
    destruct b; [apply (reads_yn true)|apply (reads_yn false)].
  - apply setDeepField_reads with fv; try done. rewrite Hty. apply reads_int; auto.
  - change (serializeValue (VString s)) with (under s).
    destruct (safeString_inv s Hs) as (_ & Hb & _).
    rewrite under_restore by (revert Hb; apply allBytes_impl, textByte_underscore).
    apply setDeepField_reads with fv; try done. rewrite Hty.
    by apply (quoted_safe s "auto").
  - rewrite (setDeepField_null fs _ "auto" i f fv) by done. by rewrite Hty.
Qed.

Lemma insert_middle {A} (pre : list A) (x y : A) (suf : list A) :
  <[length pre := y]> (pre ++ x :: suf) = pre ++ y :: suf.
Proof. induction pre as [|a pre IH]; [done|]. simpl. by rewrite IH. Qed.

Lemma map_lookup {A B} (f : A -> B) (l : list A) (i : nat) :
  map f l !! i = f <$> (l !! i).
Proof. apply list_lookup_fmap. Qed.

Section InlineRecord.

Variable fields : list (StructField * type).
Hypothesis Hschema : flatSchema fields.

(** The fields of a target of the struct type, whatever they hold. *)
Definition typedAs (fvs : list (StructField * value)) : Prop :=
  map fst fvs = map fst fields /\ map (fun fv => typeOf (snd fv)) fvs = map snd fields.

Lemma inlinePairs_record pre sufV sufI :
  recordOf fields (pre ++ sufV) -> typedAs (pre ++ sufI) ->
  inlinePairs (map pairOfField sufV) (VStruct (pre ++ sufI)) =
    (VStruct (pre ++ sufV), Done).
Proof.
  revert pre sufI. induction sufV as [|[f v] sufV IH]; intros pre sufI Hr [Hfst Hty].
  - assert (length (pre ++ sufI) = length (pre ++ [])) as Hlen.
    { pose proof (Forall2_length _ _ _ Hr) as HL.
      by rewrite <- (length_map fst (pre ++ sufI)), Hfst, length_map. }
    rewrite !length_app in Hlen. destruct sufI; [done|simpl in Hlen; lia].
  - assert (length (pre ++ sufI) = length (pre ++ (f, v) :: sufV)) as Hlen.
    { pose proof (Forall2_length _ _ _ Hr) as HL.
      by rewrite <- (length_map fst (pre ++ sufI)), Hfst, length_map. }
    rewrite !length_app in Hlen. destruct sufI as [|[g w] sufI]; [simpl in Hlen; lia|].
    assert (exists ty, fields !! length pre = Some (f, ty) /\ safeCell ty v) as (ty & Hi & Hs).
    { assert ((pre ++ (f, v) :: sufV) !! length pre = Some (f, v)) as Hv
        by (by rewrite list_lookup_middle).
      destruct (Forall2_lookup_r _ _ _ _ _ Hr Hv) as ([f' ty] & Hi & E & Hs).
      simpl in E, Hs. subst f'. by exists ty. }
    assert (g = f /\ typeOf w = ty) as [-> Hw].
    { apply (f_equal (fun l => l !! length pre)) in Hfst, Hty.
      rewrite !map_lookup, list_lookup_middle, Hi in Hfst by done.
      rewrite !map_lookup, list_lookup_middle, Hi in Hty by done.
      simpl in Hfst, Hty. split; congruence. }
    pose proof (fieldAt_safe fields Hschema (length pre) f ty _ (conj Hi eq_refl)) as Hsafe.
    cbn [map inlinePairs]. fold (pairValue (pairOfField (f, v))).
    rewrite (pairOfField_assign (pre ++ (f, w) :: sufI) (length pre) f w ty v); try done.
    + rewrite insert_middle.
      replace (pre ++ (f, v) :: sufI) with ((pre ++ [(f, v)]) ++ sufI)
        by (by rewrite <- app_assoc).
      replace (pre ++ (f, v) :: sufV) with ((pre ++ [(f, v)]) ++ sufV)
        by (by rewrite <- app_assoc).
      apply IH.
      * by rewrite <- app_assoc.
      * destruct (safeCell_typeOf ty v Hs) as [Htv _].
        rewrite <- app_assoc. cbn [app]. split.
        -- rewrite <- Hfst. by rewrite !map_app.
        -- rewrite <- Hty. rewrite !map_app. cbn [map snd]. by rewrite Htv, Hw.
    + by apply safeName_dotFree.
    + rewrite (findField_fst _ fields _ Hfst). by apply (schema_found fields Hschema _ f ty).
    + by rewrite list_lookup_middle.
Qed.

Lemma encodeInline_record fvs :
  recordOf fields fvs ->
  encodeInline (VStruct fvs) = Join (map renderPair (map pairOfField fvs)) " " /\
  Forall writtenInline (map pairOfField fvs).
Proof.
  intros Hr. unfold encodeInline.
  pose proof (schema_names fields Hschema) as Hn. unfold recordOf in Hr. clear Hschema.
  assert (flat_map (fun fv => if excluded (fst fv) then []
                              else [formatInlinePair (exposedName (fst fv)) (snd fv)]) fvs
          = map renderPair (map pairOfField fvs) /\
          Forall writtenInline (map pairOfField fvs)) as [-> H]; [|done].
  induction Hr as [|[f ty] [g v] l l' [E Hs] _ IH]; [done|].
  simpl in E, Hs. subst g. apply Forall_cons in Hn as [Hf Hn]. simpl in Hf.
  destruct (IH Hn) as [IH1 IH2]. cbn [flat_map map fst snd].
  rewrite (safeName_not_excluded f Hf), IH1. split.
  - cbn [app]. f_equal. by apply (formatInlinePair_primitive _ ty).
  - constructor; [|done]. by apply (pairOfField_written f ty).
Qed.

End InlineRecord.

Lemma written_graphic p : writtenInline p -> graphic (renderPair p).
Proof.
  intros (sp & Hs & [Hk Hsp [Hne Hg] _]). unfold renderPair. rewrite Hs.
  destruct (safeName_graphic _ Hk) as [Hkne Hkg]. split.
  - destruct (key p); [done|]. by rewrite sapp_cons.
  - rewrite !allBytes_app, Hkg, Hg. by destruct Hsp as [-> | ->].
Qed.

Lemma written_head p :
  writtenInline p -> exists c r, renderPair p = String c r /\ isNameByte c = true.
Proof.
  intros (sp & Hs & [Hk _ _ _]). unfold renderPair.
  destruct (safeName_inv _ Hk) as (c & r & -> & Hc & _).
  rewrite sapp_cons. eauto.
Qed.

Lemma decodeTarget_inline data tgt :
  edged data -> (exists c r, data = String c r /\ isNameByte c = true) ->
  decodeTarget data tgt = decodeInline data tgt.
Proof.
  intros He (c & r & -> & Hc). unfold decodeTarget. rewrite (TrimSpace_edged _ He).
  cbn [String.length Nat.eqb].
  destruct c as [[] [] [] [] [] [] [] []]; try discriminate Hc; reflexivity.
Qed.



(** ** Further properties of the decoder and the encoder *)

(** *** The row tokenizer *)

(** X3.  A row made of tokens joined by single spaces is split back into
    these tokens: a word that opens neither with a double quote nor with a
    bracket is returned as it is, and a token between double quotes (holding
    no double quote and no backslash, but possibly spaces) is returned
    without its quotes. *)
Theorem tokenizeRow_written (ws ts : list string) :
  Forall2 wired ws ts -> tokenizeRow (Join ws " ") = Ok ts.
Proof. apply tokenizeRow_Join. Qed.

Lemma tokenizeRow_written_witness :
  tokenizeRow (Join ["1"; quote +:+ "a b" +:+ quote; "x_y"]%string " ") =
    Ok ["1"; "a b"; "x_y"]%string.
Proof.
  apply (tokenizeRow_written ["1"; quote +:+ "a b" +:+ quote; "x_y"]%string
           ["1"; "a b"; "x_y"]%string).
  repeat constructor; discriminate.
Defined.

Lemma tokenizeFrom_prefix ws ts x acc :
  Forall2 wired ws ts ->
  tokenizeFrom (Join (ws ++ [x]) " ") Between acc = tokenizeFrom x Between (acc ++ ts).
Proof.
  intros H. revert acc. induction H as [|w t ws ts Hw _ IH]; intros acc.
  - by rewrite app_nil_r.
  - cbn [app]. destruct (ws ++ [x]) as [|y l] eqn:E; [by destruct ws|].
    rewrite Join_cons, sapp_cons, sapp_nil_l, (wired_step w t) by done.
    rewrite IH. by rewrite <- app_assoc.
Qed.

Lemma tokenizeFrom_bracketed s cur acc :
  allBytes (fun a => negb (Ascii.eqb a "]")) s = true ->
  tokenizeFrom s (Bracketed cur) acc = Panic.
Proof.
  revert cur. induction s as [|c s IH]; intros cur H; [done|].
  rewrite allBytes_cons, andb_true_iff, negb_true_iff in H. destruct H as [Hc Hs].
  cbn [tokenizeFrom]. rewrite Hc. by apply IH.
Qed.

(** X4.  A row whose last token opens with a bracket that is never closed,
    or is a lone double quote, makes [tokenizeRow] panic (the slice
    expression of the token runs out of the line), whatever well-formed
    tokens come before. *)
Theorem tokenizeRow_unclosed (ws ts : list string) (s : string) :
  Forall2 wired ws ts ->
  allBytes (fun a => negb (Ascii.eqb a "]")) s = true ->
  tokenizeRow (Join (ws ++ ["[" +:+ s]) " ") = Panic /\
  tokenizeRow (Join (ws ++ [quote]) " ") = Panic.
Proof.
  intros Hw Hs. unfold tokenizeRow. rewrite !(tokenizeFrom_prefix ws ts) by done. split.
  - rewrite sapp_cons, sapp_nil_l. cbn [tokenizeFrom Ascii.eqb Bool.eqb].
    change (Ascii.eqb "[" dquote) with false. cbv iota.
    by apply tokenizeFrom_bracketed.
  - reflexivity.
Qed.

Lemma tokenizeRow_unclosed_witness :
  tokenizeRow (Join (["1"; "x"]%string ++ ["[" +:+ "a b"]) " ") = Panic /\
  tokenizeRow (Join (["1"; "x"]%string ++ [quote]) " ") = Panic.
Proof.
  apply (tokenizeRow_unclosed ["1"; "x"]%string ["1"; "x"]%string "a b").
  - repeat constructor; discriminate.
  - reflexivity.
Defined.

(** *** The header line *)

(** X5.  The header line is read back token by token: for constants and
    columns with safe names, written as [@name=value] or [@name:value] and as
    [name:type], [name=a|b] or [name!a|b], followed by at most one row count
    [+N], the decoder (without aliases) builds exactly one constant per
    constant token and one column per column token, in their order, and the
    row count [N], or -1 when there is none. *)
Theorem parseHeader_written (cs : list (string * cell)) (cols : list (string * string))
    (count : list Z) :
  Forall (fun kc => safeName (fst kc) = true) cs ->
  Forall (fun kc => safeName (fst kc) = true) cols ->
  Forall (fun n => minInt <= n <= maxInt) count ->
  (length count <= 1)%nat ->
  let tokens :=
    map (fun kc => constantSpec (fst kc) (snd kc)) cs
    ++ map (fun kc => columnSpec (fst kc) (snd kc)) cols
    ++ map (fun n => "+" +:+ formatInt n) count in
  Forall graphic tokens -> tokens <> [] ->
  parseHeader ∅ (Join (["#"%string] ++ tokens) " ") =
    Ok (mkHeader (map (fun kc => columnField (fst kc) (snd kc)) cols)
          (map (fun kc => constantField (fst kc) (snd kc)) cs)
          (hd (-1) count)).
Proof. apply parseHeader_line. Qed.

Lemma parseHeader_written_witness :
  parseHeader ∅ "# @status=ok id:i+ role!a|b|c +3" =
    Ok (mkHeader [mkHeaderField "id" "i+" "" false [];
                  mkHeaderField "role" "s" "" true ["a"; "b"; "c"]%string]
          [mkHeaderField "status" "s" "ok" false []] 3).
Proof.
  apply (parseHeader_written [("status"%string, Some (VString "ok"))]
           [("id", "i+"); ("role", "!a|b|c")]%string [3]).
  - repeat constructor.
  - repeat constructor.
  - repeat constructor; unfold minInt, maxInt; lia.
  - simpl. lia.
  - repeat constructor; discriminate.
  - discriminate.
Defined.

(** *** Map iteration *)

(** X6.  The output of [Marshal] on a slice does not depend on the order in
    which Go iterates over its maps (nor on the unstable sort of the alias
    candidates, nor on the address a pointer prints as) when no active key
    has a dot and every cell is nil, a boolean, an integer or a string. *)
Theorem Marshal_order_independent (σ : schedule) (et : type) (items : list value) :
  admissible σ ->
  Forall dotFree (activeKeys (analyse items)) ->
  plainRows (flattened (analyse items)) = true ->
  Marshal σ (ASlice et items) = Marshal defaultSchedule (ASlice et items).
Proof. intros Hσ Hk Hp. unfold Marshal, encode. by apply encodeTabular_schedule. Qed.

(** A schedule that meets every map from its last key to its first and
    prints every pointer the same way. *)
Definition reverseSchedule : schedule :=
  mkSchedule (fun m => reverse (map_to_list m)) (merge_sort scoreGe)
    (fun _ m => reverse (map_to_list m)) (fun _ => "0x0"%string).

Lemma reverseSchedule_admissible : admissible reverseSchedule.
Proof.
  assert (Total scoreGe) as Htot.
  { intros a b. unfold scoreGe. lia. }
  split; simpl.
  - intros m. apply reverse_Permutation.
  - intros l. apply merge_sort_Permutation.
  - intros l. apply (Sorted_merge_sort scoreGe).
  - intros _ m. apply reverse_Permutation.
Qed.

Lemma Marshal_order_independent_witness :
  Marshal reverseSchedule (ASlice userType users) =
    Marshal defaultSchedule (ASlice userType users).
Proof.
  apply (Marshal_order_independent reverseSchedule userType users).
  - apply reverseSchedule_admissible.
  - vm_compute. repeat constructor.
  - vm_compute. reflexivity.
Defined.

(** *** Primitive coercion *)

(** X7.  A string that [parsePrimitive] returns never holds an underscore:
    it is the token with every underscore replaced by a space. *)
Theorem parsePrimitive_no_underscore (s typ x : string) :
  parsePrimitive s typ = PString x ->
  x = ReplaceAll s "_" " " /\ allBytes (fun a => negb (Ascii.eqb a "_")) x = true.
Proof.
  unfold parsePrimitive. intros H.
  assert (x = ReplaceAll s "_" " ") as -> by (repeat case_match; congruence).
  split; [done|]. clear H. induction s as [|c s IH]; [done|].
  rewrite ReplaceAll_cons. destruct (Ascii.eqb c "_") eqn:E.
  - by rewrite sapp_cons, sapp_nil_l, allBytes_cons, IH.
  - by rewrite sapp_cons, sapp_nil_l, allBytes_cons, E, IH.
Qed.

Lemma parsePrimitive_no_underscore_witness :
  "a b"%string = ReplaceAll "a_b" "_" " " /\
  allBytes (fun a => negb (Ascii.eqb a "_")) "a b" = true.
Proof. apply (parsePrimitive_no_underscore "a_b" "s" "a b"). reflexivity. Defined.

(** *** Constants and active keys *)

Lemma list_to_map_graph {B} (g : string -> B) (L : list string) (k : string) (c : B) :
  NoDup L ->
  (list_to_map (map (fun x => (x, g x)) L) : gmap string B) !! k = Some c <->
  k ∈ L /\ c = g k.
Proof.
  intros Hnd. rewrite <- elem_of_list_to_map by (by rewrite fst_graph).
  rewrite list_elem_of_fmap. split.
  - intros (x & [= -> ->] & Hx). done.
  - intros [Hk ->]. by exists k.
Qed.

Lemma isConstKey_spec fl k :
  isConstKey fl k = true <->
  rowGet (default ∅ (head fl)) k <> None /\
  Forall (fun row => cell_eqb (rowGet row k) (rowGet (default ∅ (head fl)) k) = true) fl.
Proof.
  unfold isConstKey. rewrite andb_true_iff, forallb_forall, Forall_forall.
  setoid_rewrite list_elem_of_In.
  destruct (rowGet (default ∅ (head fl)) k); split; intros [? ?]; split; done.
Qed.

(** X8.  Identification of the constants.  A path is hoisted as a constant
    exactly when the slice has more than one element, the path is a key of
    some row, its value in the first row is not nil and every row holds a
    value equal to that one; the value hoisted is the one of the first row.
    The active keys are the keys that are not hoisted. *)
Theorem constants_spec (items : list value) (k : string) (c : cell) :
  let t := analyse items in
  (tconstants t !! k = Some c <->
   (1 < length items)%nat /\ k ∈ allKeysOf (flattened t) /\
   c = rowGet (default ∅ (head (flattened t))) k /\ c <> None /\
   Forall (fun row => cell_eqb (rowGet row k) c = true) (flattened t)) /\
  (k ∈ activeKeys t <-> k ∈ allKeysOf (flattened t) /\ tconstants t !! k = None).
Proof.
  intros t.
  assert (NoDup (allKeysOf (flattened t))) as Hnd
    by apply sortStrings_NoDup, NoDup_elements.
  assert (tconstants t =
          constantsOf (tlength t) (flattened t) (allKeysOf (flattened t))) as Hc by done.
  assert (activeKeys t =
          activeKeysOf (tlength t) (flattened t) (allKeysOf (flattened t))) as Ha by done.
  assert (tlength t = Z.of_nat (length items)) as Hl by done.
  rewrite Hc, Ha, Hl. unfold constantsOf, activeKeysOf.
  destruct (1 <? Z.of_nat (length items)) eqn:Hn.
  - apply Z.ltb_lt in Hn. split.
    + rewrite list_to_map_graph by (by apply NoDup_filter).
      rewrite list_elem_of_filter, Is_true_true, isConstKey_spec. split.
      * intros [[[H1 H2] H3] ->]. repeat split; try done. lia.
      * intros (_ & H1 & -> & H2 & H3). done.
    + rewrite list_elem_of_filter. split.
      * intros [H1 H2]. split; [done|].
        apply not_elem_of_list_to_map_1. rewrite fst_graph, list_elem_of_filter.
        intros [H3 _]. apply Is_true_true in H3. by rewrite H3 in H1.
      * intros [H1 H2]. split; [|done].
        destruct (isConstKey (flattened t) k) eqn:E; [|done]. exfalso.
        assert (is_Some ((list_to_map
                   (map (fun k0 => (k0, rowGet (default ∅ (head (flattened t))) k0))
                      (filter (fun k0 => Is_true (isConstKey (flattened t) k0))
                         (allKeysOf (flattened t)))) : gmap string cell) !! k)) as [x Hx].
        { eexists. apply list_to_map_graph; [by apply NoDup_filter|].
          split; [|done]. apply list_elem_of_filter. by rewrite E. }
        congruence.
  - apply Z.ltb_ge in Hn. split.
    + rewrite lookup_empty. split; [done|]. intros [H _]. lia.
    + rewrite lookup_empty. tauto.
Qed.

(** *** Assignment of a field *)



Fixpoint typeOf_zero (t : type) : typeOf (zero t) = t :=
  match t with
  | TStruct fs =>
      f_equal TStruct
        ((fix go (l : list (StructField * type))
            : map (fun fv : StructField * value => (fst fv, typeOf (snd fv)))
                (map (fun ft : StructField * type => (fst ft, zero (snd ft))) l) = l :=
            match l with
            | [] => eq_refl
            | (f, ty) :: r => f_equal2 cons (f_equal (pair f) (typeOf_zero ty)) (go r)
            end) fs)
  | _ => eq_refl
  end.

Lemma convert_typeOf p t x : convert p t = Some x -> typeOf x = t.
Proof. destruct p, t; simpl; intros H; try discriminate; by injection H as <-. Qed.

Lemma insert_same_type fs i f fv x :
  fs !! i = Some (f, fv) -> typeOf x = typeOf fv ->
  map fst (<[i := (f, x)]> fs) = map fst fs /\
  typeOf (VStruct (<[i := (f, x)]> fs)) = typeOf (VStruct fs).
Proof.
  intros Hi Hx. split.
  - change (map fst ?l) with (fst <$> l). rewrite list_fmap_insert. cbn [fst].
    apply list_insert_id. by rewrite list_lookup_fmap, Hi.
  - cbn [typeOf]. f_equal.
    change (map ?g ?l) with (g <$> l). rewrite list_fmap_insert. cbn [fst snd].
    apply list_insert_id. rewrite list_lookup_fmap, Hi. cbn. by rewrite Hx.
Qed.

(** X10.  The frame of an assignment into a record.  Through a path without
    a dot (the declared names of the record, or the path, being ASCII), a
    value that does not open with a brace is assigned into a struct without
    an error, whatever the name, the hint and the value: the record keeps the
    names and the types of its fields, and every field other than the one
    [findField] finds keeps its value (an unknown name, a value that does not
    convert and the nil token change nothing else either). *)
Theorem setDeepField_frame (fs : list (StructField * value)) (k typ valStr : string) :
  dotFree k -> asciiLookup fs k -> HasPrefix valStr "{" = false ->
  exists fs',
    setDeepField (VStruct fs) k typ valStr = (VStruct fs', Done) /\
    map fst fs' = map fst fs /\
    typeOf (VStruct fs') = typeOf (VStruct fs) /\
    forall j, findField fs k <> Some j -> fs' !! j = fs !! j.
Proof.
  intros Hk _ Hb.
  assert (setDeepField (VStruct fs) k typ valStr =
          match findField fs k with
          | None => (VStruct fs, Done)
          | Some i =>
              match fs !! i with
              | None => (VStruct fs, Done)
              | Some (f, fv) =>
                  match parsePrimitive valStr typ with
                  | PNil => (VStruct (<[i := (f, zero (typeOf fv))]> fs), Done)
                  | converted =>
                      match convert converted (typeOf fv) with
                      | Some x => (VStruct (<[i := (f, x)]> fs), Done)
                      | None => (VStruct fs, Done)
                      end
                  end
              end
          end) as ->.
  { unfold setDeepField, setDeepFieldWith. rewrite (Split_no_sep k "." Hk).
    cbn [walk derefWith].
    destruct (String.length valStr); cbn [setFieldFuel derefWith];
      destruct (findField fs k) as [i|]; try done;
      destruct (fs !! i) as [[f fv]|]; try done; by rewrite Hb. }
  destruct (findField fs k) as [i|]; [|by exists fs].
  destruct (fs !! i) as [[f fv]|] eqn:Hi; [|by exists fs].
  assert (forall x, typeOf x = typeOf fv ->
            exists fs', (VStruct (<[i := (f, x)]> fs), Done) = (VStruct fs', Done) /\
              map fst fs' = map fst fs /\
              typeOf (VStruct fs') = typeOf (VStruct fs) /\
              forall j, Some i <> Some j -> fs' !! j = fs !! j) as Hset.
  { intros x Hx. exists (<[i := (f, x)]> fs).
    destruct (insert_same_type fs i f fv x Hi Hx) as [H1 H2].
    repeat split; try done. intros j Hj. apply list_lookup_insert_ne. congruence. }
  destruct (parsePrimitive valStr typ) as [|n|b|s] eqn:Hp.
  - apply Hset, typeOf_zero.
  - destruct (convert (PInt n) (typeOf fv)) as [x|] eqn:Hc; [|by exists fs].
    by apply Hset, (convert_typeOf (PInt n)).
  - destruct (convert (PBool b) (typeOf fv)) as [x|] eqn:Hc; [|by exists fs].
    by apply Hset, (convert_typeOf (PBool b)).
  - destruct (convert (PString s) (typeOf fv)) as [x|] eqn:Hc; [|by exists fs].
    by apply Hset, (convert_typeOf (PString s)).
Qed.

Lemma setDeepField_frame_witness :
  exists fs',
    setDeepField (user 1 "Ann" "Admin" true) "ROLE" "s" "~" = (VStruct fs', Done) /\
    map fst fs' = userFields /\
    typeOf (VStruct fs') = userType /\
    forall j, Some 2%nat <> Some j ->
              fs' !! j = zip userFields [VInt 1; VString "Ann"; VString "Admin"; VBool true] !! j.
Proof.
  apply (setDeepField_frame
           (zip userFields [VInt 1; VString "Ann"; VString "Admin"; VBool true])
           "ROLE" "s" "~"); [reflexivity|left; reflexivity|reflexivity].
Defined.



(** *** Rows and header tokens out of the ordinary *)

(** X12.  A row that has no token left leaves the remaining columns alone:
    when none of them is sequence-generated, the element and the counter are
    returned as they are (a missing token counts as [~]). *)
Theorem applyColumns_short (hs : list headerField) (c : Z) (e : value) :
  Forall (fun h => htyp h <> "i+"%string) hs ->
  applyColumns hs [] c e = (e, c, Done).
Proof.
  induction 1 as [|h hs Hh _ IH]; [done|].
  cbn [applyColumns]. apply String.eqb_neq in Hh. rewrite Hh.
  cbn [String.eqb Ascii.eqb Bool.eqb]. exact IH.
Qed.

Lemma applyColumns_short_witness :
  applyColumns [mkHeaderField "name" "s" "" false []; mkHeaderField "active" "b" "" false []]
    [] 5 (user 1 "Ann" "Admin" true) = (user 1 "Ann" "Admin" true, 5, Done).
Proof.
  apply (applyColumns_short
           [mkHeaderField "name" "s" "" false []; mkHeaderField "active" "b" "" false []]).
  repeat constructor; discriminate.
Defined.

(** X13.  Header tokens that are passed over: a row count [+N] whose [N] is
    no integer of the 64-bit range, and a token (with or without [@]) that
    has none of the separators [:], [=] and [!], leave the header as it is. *)
Theorem headerPart_ignored (al : gmap string string) (s : string) (h : header) :
  (snd (Atoi s) = false -> headerPart al ("+" +:+ s) h = Ok h) /\
  (HasPrefix s "+" = false -> HasPrefix s "@" = false ->
   IndexAny s [":"; "="; "!"]%char = None ->
   headerPart al s h = Ok h /\ headerPart al ("@" +:+ s) h = Ok h).
Proof.
  split.
  - intros Hn. unfold headerPart. rewrite sapp_cons, sapp_nil_l.
    assert (HasPrefix (String "+" s) "+" = true) as ->
      by (by rewrite HasPrefix_cons, HasPrefix_nil).
    assert (sliceFrom (String "+" s) 1 = Some s) as -> by (by destruct s).
    cbn [orPanic mbind outcome_bind]. destruct (Atoi s) as [n ok]. simpl in Hn. subst ok.
    by destruct h.
  - intros Hp Ha Hi. split.
    + unfold headerPart. rewrite Hp, Ha. cbn [mbind outcome_bind]. by rewrite Hi.
    + unfold headerPart. rewrite sapp_cons, sapp_nil_l.
      change (HasPrefix (String "@" s) "+") with false.
      assert (HasPrefix (String "@" s) "@" = true) as ->
        by (by rewrite HasPrefix_cons, HasPrefix_nil).
      assert (sliceFrom (String "@" s) 1 = Some s) as -> by (by destruct s).
      cbn [orPanic mbind outcome_bind]. by rewrite Hi.
Qed.

(** *** Indexed enums *)

(** X14.  The index written for an enum value is read back as the value:
    for distinct keys and a key among them, the option the decoder looks up
    for the token [enumIndex] writes is the key itself. *)
Theorem indexOption_enumIndex (name : string) (keys : list string) (k : string) :
  NoDup keys -> k ∈ keys -> Z.of_nat (length keys) <= maxInt ->
  indexOption (mkHeaderField name "s" "" true keys) (enumIndex 0 keys k) = k.
Proof.
  intros Hnd Hk Hmax. apply list_elem_of_lookup_1 in Hk as [j Hj].
  rewrite (enumIndex_nth keys j k 0 Hnd Hj). rewrite Z.add_0_l.
  unfold indexOption. cbn [hindexed hoptions].
  pose proof (lookup_lt_Some _ _ _ Hj) as Hlt.
  assert ((0 <? Z.of_nat (length keys)) = true) as -> by (apply Z.ltb_lt; lia).
  cbn [andb]. rewrite Atoi_formatInt by (unfold minInt; lia).
  assert ((0 <=? Z.of_nat j) = true) as -> by (apply Z.leb_le; lia).
  assert ((Z.of_nat j <? Z.of_nat (length keys)) = true) as -> by (apply Z.ltb_lt; lia).
  cbn [andb]. rewrite Nat2Z.id. by apply nth_lookup_Some.
Qed.

Lemma indexOption_enumIndex_witness :
  indexOption (mkHeaderField "role" "s" "" true ["Admin"; "Guest"; "User"]%string)
    (enumIndex 0 ["Admin"; "Guest"; "User"]%string "Guest") = "Guest"%string.
Proof.
  apply (indexOption_enumIndex "role" ["Admin"; "Guest"; "User"]%string "Guest").
  - repeat constructor; set_solver.
  - set_solver.
  - unfold maxInt. simpl. lia.
Defined.

(** *** The type of a column *)

(** X15.  A column in which every row holds a boolean has the type code [b],
    is never sequence-generated, and its tokens are [1] and [0]. *)
Theorem bool_column (σ : schedule) (fl : list (gmap string cell)) (k : string) :
  fl <> [] ->
  Forall (fun row => exists b, rowGet row k = Some (VBool b)) fl ->
  let d := decideColumn (Z.of_nat (length fl)) (statsOf fl k) in
  colCode d = "b"%string /\ colSeq d = false /\
  forall b, rowToken σ (colStats d) (Some (VBool b)) = if b then "1"%string else "0"%string.
Proof.
  intros Hne Hall.
  rewrite (statsOf_primitive fl k Bool); [| |done].
  - unfold decideColumn. cbn [isSeq ckind canBeInt Kind_eqb isBoolKind].
    rewrite andb_false_r. cbn [colCode colSeq colStats fst snd].
    split; [done|]. split; [done|]. by intros [].
  - eapply Forall_impl; [exact Hall|]. by intros row [b ->].
Qed.

Lemma bool_column_witness :
  let fl := map (fun item => flattenValue EmptyString item ∅) users in
  let d := decideColumn (Z.of_nat (length fl)) (statsOf fl "active") in
  colCode d = "b"%string /\ colSeq d = false /\
  forall b, rowToken defaultSchedule (colStats d) (Some (VBool b)) =
            if b then "1"%string else "0"%string.
Proof.
  apply (bool_column defaultSchedule
           (map (fun item => flattenValue EmptyString item ∅) users) "active").
  - discriminate.
  - repeat constructor; eexists; vm_compute; reflexivity.
Defined.

Lemma countsFrom_complete idx values :
  (forall r v, values !! r = Some v -> v = formatInt (idx + Z.of_nat r + 1)) ->
  countsFrom idx values = true.
Proof.
  revert idx. induction values as [|x values IH]; intros idx H; [done|].
  cbn [countsFrom]. rewrite (H O x eq_refl).
  replace (idx + Z.of_nat 0 + 1) with (idx + 1) by lia. rewrite String.eqb_refl.
  apply IH. intros r v Hr. rewrite (H (S r) v Hr). f_equal. lia.
Qed.

(** X16.  A column in which every row holds an integer is sequence-generated
    (type code [i+], no token in the rows) exactly when its key is [id] and
    the rows hold 1, 2, 3, ... in this order; otherwise its type code is
    [i]. *)
Theorem int_column (fl : list (gmap string cell)) (k : string) (ns : list Z) :
  fl <> [] -> Z.of_nat (length fl) <= maxInt ->
  Forall2 (fun row n => rowGet row k = Some (VInt n) /\ minInt <= n <= maxInt) fl ns ->
  let d := decideColumn (Z.of_nat (length fl)) (statsOf fl k) in
  (colSeq d = true <->
   k = "id"%string /\ forall r n, ns !! r = Some n -> n = Z.of_nat r + 1) /\
  colCode d = (if colSeq d then "i+" else "i")%string.
Proof.
  intros Hne Hlen Hcol.
  assert (forall r n, ns !! r = Some n ->
            minInt <= n <= maxInt /\ columnValues fl k !! r = Some (formatInt n)) as Hval.
  { intros r n Hn. destruct (Forall2_lookup_r _ _ _ _ _ Hcol Hn) as (row & Hrow & Hc & Hr).
    split; [done|]. unfold columnValues. rewrite map_lookup, Hrow. cbn. by rewrite Hc. }
  assert (forall r v, columnValues fl k !! r = Some v ->
            exists n, ns !! r = Some n /\ v = formatInt n) as Hval'.
  { intros r v Hv. unfold columnValues in Hv. rewrite map_lookup in Hv.
    destruct (fl !! r) as [row|] eqn:Hrow; [|done]. cbn in Hv. injection Hv as <-.
    destruct (Forall2_lookup_l _ _ _ _ _ Hcol Hrow) as (n & Hn & Hc & _).
    exists n. by rewrite Hc. }
  rewrite (statsOf_primitive fl k Int); [| |done].
  2:{ apply Forall_lookup_2. intros i row Hrow.
      destruct (Forall2_lookup_l _ _ _ _ _ Hcol Hrow) as (n & _ & Hc & _). by rewrite Hc. }
  unfold decideColumn. cbn [isSeq ckind cvalues]. change (canBeInt Int) with true.
  rewrite andb_true_r.
  destruct (String.eqb_spec k "id") as [->|Hk].
  - destruct (countsFrom 0 (columnValues fl "id")) eqn:Hc;
      cbn [colSeq colCode fst snd]; (split; [|done]).
    + split; [|done]. intros _. split; [done|]. intros r n Hn.
      destruct (Hval r n Hn) as [Hr Hx].
      pose proof (countsFrom_spec 0 _ r _ Hc Hx) as E.
      apply lookup_lt_Some in Hn. rewrite <- (Forall2_length _ _ _ Hcol) in Hn.
      apply formatInt_inj in E; [lia|done|]. unfold minInt. lia.
    + split; [done|]. intros [_ Hseq]. rewrite countsFrom_complete in Hc; [done|].
      intros r v Hv. destruct (Hval' r v Hv) as (n & Hn & ->).
      rewrite (Hseq r n Hn). f_equal; lia.
  - cbn [isBoolKind isIntKind canBeInt Kind_eqb colSeq colCode fst snd].
    split; [|done]. split; [done|]. by intros [? _].
Qed.

Lemma int_column_witness :
  let fl := map (fun item => flattenValue EmptyString item ∅) users in
  let d := decideColumn (Z.of_nat (length fl)) (statsOf fl "id") in
  (colSeq d = true <->
   "id"%string = "id"%string /\ forall r n, [1; 2; 3] !! r = Some n -> n = Z.of_nat r + 1) /\
  colCode d = (if colSeq d then "i+" else "i")%string.
Proof.
  apply (int_column (map (fun item => flattenValue EmptyString item ∅) users) "id" [1; 2; 3]).
  - discriminate.
  - unfold maxInt. simpl. lia.
  - repeat constructor; try (vm_compute; reflexivity); unfold minInt, maxInt; lia.
Defined.

(** *** Inline text that ends inside a key *)

Lemma parseFrom_dangling pairs k acc :
  Forall writtenInline pairs -> safeName k = true ->
  parseFrom (Join (map renderPair pairs ++ [k]) " ") AtPair acc =
    Err ("unexpected end after key " +:+ k).
Proof.
  intros H Hk. revert acc. induction H as [|[q s v] pairs (sp & Hs & Hw) Hrest IH]; intros acc.
  - cbn [map app Join]. destruct (safeName_inv k Hk) as (c & r & -> & Hc & Hall).
    rewrite allBytes_cons, andb_true_iff in Hall. destruct Hall as [_ Hr].
    destruct (nameByte_key c Hc) as (_ & H2 & H3).
    cbn [parseFrom]. rewrite H2, H3.
    rewrite <- (sapp_nil_r r) at 1. rewrite parseFrom_key by done.
    cbn [parseFrom]. by rewrite (sapp_cons c EmptyString r), sapp_nil_l.
  - simpl in Hs, Hw. subst s. cbn [map app].
    destruct (map renderPair pairs ++ [k]) as [|y l] eqn:E; [by destruct (map renderPair pairs)|].
    rewrite Join_cons. unfold renderPair at 1. cbn [key sep pvalue].
    rewrite sapp_cons, sapp_nil_l, sapp_assoc.
    rewrite (sapp_cons sp v), <- sapp_cons. rewrite parseFrom_pair by done.
    rewrite sapp_cons, sapp_nil_l. cbn [parseFrom Ascii.eqb Bool.eqb]. apply IH.
Qed.

(** X17.  Inline text whose last word is a bare key (no [:] or [=] after it)
    is an error, and nothing is assigned: [Unmarshal] returns
    [unexpected end after key <key>] and leaves the struct as it was, also
    when well-formed pairs come before the key. *)
Theorem Unmarshal_dangling_key (pairs : list inlinePair) (k : string)
    (fs : list (StructField * value)) :
  Forall writtenInline pairs -> safeName k = true ->
  Unmarshal (Join (map renderPair pairs ++ [k]) " ") (AValue (VPtr (VStruct fs))) =
    (AValue (VPtr (VStruct fs)), Failed ("unexpected end after key " +:+ k)).
Proof.
  intros H Hk. unfold Unmarshal, decode.
  rewrite decodeTarget_inline.
  - unfold decodeInline, parse. cbn [derefWith]. by rewrite parseFrom_dangling.
  - apply edged_Join; [by destruct (map renderPair pairs)|].
    apply Forall_app. split.
    + change (map renderPair pairs) with (renderPair <$> pairs). apply Forall_fmap.
      eapply Forall_impl; [exact H|]. intros p Hp. by apply graphic_edged, written_graphic.
    + constructor; [|constructor]. by apply graphic_edged, safeName_graphic.
  - destruct pairs as [|p pairs].
    + cbn [map app Join]. destruct (safeName_inv k Hk) as (c & r & -> & Hc & _). eauto.
    + apply Forall_cons in H as [Hp _]. destruct (written_head p Hp) as (c & r & E & Hc).
      cbn [map app]. destruct (map renderPair pairs ++ [k]) as [|y l].
      * cbn [Join]. eauto.
      * rewrite Join_cons, E, sapp_cons. eauto.
Qed.

Lemma Unmarshal_dangling_key_witness :
  Unmarshal "name=Ann age" (AValue (VPtr (user 1 "Bob" "User" true))) =
    (AValue (VPtr (user 1 "Bob" "User" true)), Failed "unexpected end after key age").
Proof.
  apply (Unmarshal_dangling_key [mkPair "name" "=" "Ann"] "age").
  - constructor; [|constructor]. exists "="%char. split; [reflexivity|].
    split; [reflexivity|by right|by split|reflexivity].
  - reflexivity.
Defined.

(** *** Dotted paths *)

Lemma Split_path a rest :
  dotFree a -> Split (a +:+ "." +:+ rest) "." = a :: Split rest ".".
Proof.
  intros Ha. rewrite sapp_cons, sapp_nil_l, Split_app. by rewrite (Split_no_sep a "." Ha).
Qed.

Lemma walk_descend assign a parts fs i f fv typ valStr :
  parts <> [] -> findField fs a = Some i -> fs !! i = Some (f, fv) ->
  walk assign (a :: parts) (VStruct fs) typ valStr =
    (VStruct (<[i := (f, fst (walk assign parts fv typ valStr))]> fs),
     snd (walk assign parts fv typ valStr)).
Proof.
  intros Hne Hf Hi.
  assert (walk assign (a :: parts) (VStruct fs) typ valStr =
          match findField fs a with
          | None => (VStruct fs, Done)
          | Some i =>
              match fs !! i with
              | Some (f, fv) =>
                  let '(fv', r) := walk assign parts fv typ valStr in
                  (VStruct (<[i := (f, fv')]> fs), r)
              | None => (VStruct fs, Done)
              end
          end) as -> by (by destruct parts).
  rewrite Hf, Hi. by destruct (walk assign parts fv typ valStr).
Qed.





(** ** Aliases: what the encoder abbreviates, the decoder expands *)

Lemma Index_sep a c r :
  Index a c = None -> Index (a +:+ String c r) c = Some (String.length a).
Proof.
  unfold Index. induction a as [|x a IH]; intros H.
  - rewrite sapp_nil_l. cbn [IndexAny existsb]. by rewrite Ascii.eqb_refl.
  - rewrite sapp_cons. cbn [IndexAny existsb String.length] in *.
    destruct (Ascii.eqb x c); [done|]. cbn [orb] in *.
    destruct (IndexAny a [c]); [done|]. by rewrite IH.
Qed.

Lemma length_sapp a b : String.length (a +:+ b) = (String.length a + String.length b)%nat.
Proof. induction a as [|x a IH]; [done|]. rewrite sapp_cons. simpl. by rewrite IH. Qed.

(** The three cuts both decoders of aliases make in [%alias<c>rest]. *)
Lemma cut_word a c r :
  Index a c = None -> c <> "%"%char ->
  Index ("%" +:+ a +:+ String c r) c = Some (S (String.length a)) /\
  slice ("%" +:+ a +:+ String c r) 1 (Z.of_nat (S (String.length a))) = Some a /\
  sliceFrom ("%" +:+ a +:+ String c r) (S (S (String.length a))) = Some r.
Proof.
  intros Ha Hc. rewrite sapp_cons, sapp_nil_l. split; [|split].
  - unfold Index. cbn [IndexAny existsb]. apply Ascii.eqb_neq in Hc.
    rewrite Ascii.eqb_sym, Hc. cbn [orb].
    fold (Index (a +:+ String c r) c). by rewrite Index_sep.
  - unfold slice, len. cbn [String.length]. rewrite length_sapp. cbn [String.length].
    assert ((0 <=? 1) && (1 <=? Z.of_nat (S (String.length a)))
            && (Z.of_nat (S (String.length a))
                <=? Z.of_nat (S (String.length a + S (String.length r)))) = true) as ->.
    { rewrite !andb_true_iff, !Z.leb_le. lia. }
    rewrite Nat2Z.id. cbn [sliceTo]. rewrite sliceTo_app. cbn [option_map].
    change (Z.to_nat 1) with 1%nat. by destruct a.
  - cbn [sliceFrom].
    replace (a +:+ String c r) with ((a +:+ String c EmptyString) +:+ r)
      by (by rewrite sapp_assoc).
    replace (S (String.length a)) with (String.length (a +:+ String c EmptyString))
      by (rewrite length_sapp; simpl; lia).
    apply sliceFrom_app.
Qed.

Definition aliasWord (pa : string * string) : string := "%" +:+ snd pa +:+ "=" +:+ fst pa.

Lemma aliasPart_written p a tbl :
  Index a "=" = None -> HasPrefix a "%" = false ->
  aliasPart (aliasWord (p, a)) tbl = Ok (<[a := p]> tbl).
Proof.
  intros Ha Hp. unfold aliasPart, aliasWord. cbn [fst snd].
  change ("=" +:+ p) with (String "=" p).
  destruct (cut_word a "=" p Ha) as (-> & H2 & H3); [done|].
  rewrite H2, H3. cbn [orPanic mbind outcome_bind]. by rewrite Hp.
Qed.

Definition declare (tbl : gmap string string) (pa : string * string)
  : gmap string string := <[snd pa := fst pa]> tbl.

Lemma aliasParts_written es tbl :
  Forall (fun pa => Index (snd pa) "=" = None /\ HasPrefix (snd pa) "%" = false) es ->
  aliasParts (map aliasWord es) tbl = Ok (fold_left declare es tbl).
Proof.
  intros H. revert tbl. induction H as [|[p a] es [H1 H2] _ IH]; intros tbl; [done|].
  cbn [map aliasParts fold_left]. rewrite aliasPart_written by done.
  cbn [mbind outcome_bind]. apply IH.
Qed.

Lemma declare_other es tbl a :
  a ∉ map snd es -> fold_left declare es tbl !! a = tbl !! a.
Proof.
  revert tbl. induction es as [|[p b] es IH]; intros tbl Ha; [done|].
  cbn [map snd] in Ha. apply not_elem_of_cons in Ha as [Hab Ha].
  cbn [fold_left]. rewrite IH by done. unfold declare. cbn [fst snd].
  by apply lookup_insert_ne.
Qed.

Lemma declare_lookup es tbl a p :
  (forall p', (p', a) ∈ es -> p' = p) -> (p, a) ∈ es ->
  fold_left declare es tbl !! a = Some p.
Proof.
  revert tbl. induction es as [|[q b] es IH]; intros tbl Hu Hin; [by apply elem_of_nil in Hin|].
  cbn [fold_left]. destruct (decide ((p, a) ∈ es)) as [Hes|Hes].
  - apply IH; [|done]. intros p' Hp'. apply Hu. by right.
  - apply elem_of_cons in Hin as [E|Hin]; [|done]. injection E as <- <-.
    rewrite declare_other.
    + unfold declare. cbn [fst snd]. by rewrite lookup_insert_eq.
    + intros Ha. change (map snd es) with (snd <$> es) in Ha.
      apply list_elem_of_fmap in Ha as ([p' a'] & E & Hp'). simpl in E. subst a'.
      assert (p' = p) as -> by (apply Hu; by right). done.
Qed.

Lemma declare_inv es tbl a p :
  fold_left declare es tbl !! a = Some p -> (p, a) ∈ es \/ tbl !! a = Some p.
Proof.
  revert tbl. induction es as [|[q b] es IH]; intros tbl H; [by right|].
  cbn [fold_left] in H. apply IH in H as [H|H]; [left; by right|].
  unfold declare in H. cbn [fst snd] in H.
  destruct (decide (b = a)) as [->|Hne].
  - rewrite lookup_insert_eq in H. injection H as ->. left. by left.
  - rewrite lookup_insert_ne in H by done. by right.
Qed.

Lemma substring_all r : String.substring 0 (String.length r) r = r.
Proof. induction r as [|c r IH]; [done|]. simpl. by rewrite IH. Qed.

Lemma dropPrefix_app p r : dropPrefix (p +:+ r) p = r.
Proof.
  unfold dropPrefix. rewrite length_sapp.
  replace (String.length p + String.length r - String.length p)%nat
    with (String.length r) by lia.
  induction p as [|c p IH]; [rewrite sapp_nil_l; apply substring_all|].
  rewrite sapp_cons. exact IH.
Qed.

Lemma unalias_dotted tbl a p r :
  dotFree a -> tbl !! a = Some p ->
  unalias tbl ("%" +:+ a +:+ "." +:+ r) = Ok (p +:+ "." +:+ r).
Proof.
  intros Ha Hl. unfold unalias. change ("." +:+ r) with (String "." r).
  destruct (cut_word a "." r Ha) as (-> & H2 & H3); [done|].
  rewrite H2, H3. rewrite sapp_cons, HasPrefix_cons, HasPrefix_nil.
  cbn [Ascii.eqb Bool.eqb andb orPanic mbind outcome_bind]. by rewrite Hl.
Qed.

Lemma unalias_whole tbl a p :
  dotFree a -> tbl !! a = Some p -> unalias tbl ("%" +:+ a) = Ok p.
Proof.
  intros Ha Hl. unfold unalias. rewrite sapp_cons, sapp_nil_l.
  rewrite HasPrefix_cons, HasPrefix_nil. cbn [Ascii.eqb Bool.eqb andb].
  assert (Index (String "%" a) "." = None) as ->.
  { unfold Index, dotFree, Index in *. cbn [IndexAny existsb Ascii.eqb Bool.eqb orb].
    by rewrite Ha. }
  assert (sliceFrom (String "%" a) 1 = Some a) as -> by (by destruct a).
  cbn [orPanic mbind outcome_bind]. by rewrite Hl.
Qed.

Lemma unalias_applyAliasIn entries tbl name :
  Forall (fun pa => dotFree (snd pa) /\ tbl !! snd pa = Some (fst pa)) entries ->
  HasPrefix name "%" = false ->
  unalias tbl (applyAliasIn entries name) = Ok name.
Proof.
  intros H Hn. induction H as [|[p a] entries [Ha Hl] _ IH].
  - cbn [applyAliasIn]. unfold unalias. by rewrite Hn.
  - cbn [applyAliasIn fst snd] in *.
    destruct (HasPrefix name (p +:+ ".")) eqn:E.
    + apply HasPrefix_spec in E as [r ->]. rewrite sapp_assoc, dropPrefix_app.
      by apply unalias_dotted.
    + destruct (String.eqb_spec name p) as [->|_]; [by apply unalias_whole|exact IH].
Qed.

(** X20.  Round trip of the aliases.  Take an alias table of the encoder
    (prefix to alias) that is not empty, whose prefixes and aliases are words
    of graphic bytes, whose aliases hold no dot and no [=] and do not open
    with [%], and that gives no alias to two prefixes.  Then the encoder
    writes one alias line; the decoder reads from this line a table in which
    an alias leads to a prefix exactly when the encoder gave the alias to the
    prefix; and with this table every name that does not open with [%] is
    expanded back from its aliased form. *)
Theorem alias_round_trip (σ : schedule) (aliases : gmap string string) :
  admissible σ -> aliases <> ∅ ->
  (forall p a, aliases !! p = Some a ->
     graphic p /\ graphic a /\ dotFree a /\ Index a "=" = None /\ HasPrefix a "%" = false) ->
  (forall p p' a, aliases !! p = Some a -> aliases !! p' = Some a -> p = p') ->
  exists line tbl,
    aliasLines aliases = [line] /\
    (forall rest, scanHeader (line :: rest) ∅ = scanHeader rest tbl) /\
    (forall a p, tbl !! a = Some p <-> aliases !! p = Some a) /\
    (forall name, HasPrefix name "%" = false ->
       unalias tbl (applyAlias σ name aliases) = Ok name).
Proof.
  intros Hσ Hne Hok Hinj.
  set (words := sortStrings (map aliasWord (map_to_list aliases))).
  assert (exists es, words = map aliasWord es /\ map_to_list aliases ≡ₚ es) as (es & Ew & Hperm).
  { apply Permutation_map_inv. unfold words, sortStrings. by rewrite merge_sort_Permutation. }
  assert (forall p a, (p, a) ∈ es <-> aliases !! p = Some a) as Hes.
  { intros p a. rewrite <- Hperm. apply elem_of_map_to_list. }
  assert (es <> []) as Hes_ne.
  { intros ->. apply Permutation_nil_r in Hperm. by apply map_to_list_empty_iff in Hperm. }
  exists (Join words " "), (fold_left declare es ∅).
  assert (forall a p, fold_left declare es ∅ !! a = Some p <-> aliases !! p = Some a) as Htbl.
  { intros a p. rewrite <- Hes. split.
    - intros H. by apply declare_inv in H as [H|H].
    - intros H. apply declare_lookup; [|done]. intros p' Hp'.
      apply Hes in Hp', H. by apply (Hinj p' p a). }
  split; [|split; [|split]].
  - unfold aliasLines. fold words.
    assert ((0 <? Z.of_nat (size aliases)) = true) as ->; [|done].
    apply Z.ltb_lt. assert (size aliases <> 0%nat); [|lia].
    intros H. by apply map_size_empty_iff in H.
  - assert (Forall graphic words) as Hg.
    { rewrite Ew. change (map aliasWord es) with (aliasWord <$> es). apply Forall_fmap.
      apply Forall_forall. intros [p a] Hpa. apply Hes, Hok in Hpa.
      destruct Hpa as ([_ Hp] & [_ Ha] & _). unfold aliasWord. cbn [compose fst snd]. split.
      - by rewrite sapp_cons.
      - by rewrite !allBytes_app, Ha, Hp. }
    assert (edged (Join words " ")) as He.
    { apply edged_Join.
      - rewrite Ew. by destruct es.
      - eapply Forall_impl; [exact Hg|]. apply graphic_edged. }
    intros rest. cbn [scanHeader]. rewrite (TrimSpace_edged _ He).
    assert (String.eqb (Join words " ") "" = false) as ->
      by (apply String.eqb_neq, edged_nonempty, He).
    assert (HasPrefix (Join words " ") "%" = true) as ->.
    { rewrite Ew. destruct es as [|[p a] es]; [done|]. cbn [map].
      destruct (map aliasWord es); [done|by rewrite Join_cons]. }
    rewrite (Fields_Join _ Hg), Ew, aliasParts_written; [done|].
    apply Forall_forall. intros [p a] Hpa. apply Hes, Hok in Hpa. tauto.
  - exact Htbl.
  - intros name Hn. unfold applyAlias. apply unalias_applyAliasIn; [|done].
    apply Forall_forall. intros [p a] Hpa.
    rewrite (rangeAliases_perm σ Hσ name aliases) in Hpa.
    apply elem_of_map_to_list in Hpa. cbn [fst snd]. split.
    + apply Hok in Hpa. tauto.
    + by apply Htbl.
Qed.

Lemma alias_round_trip_witness :
  exists line tbl,
    aliasLines {["server" := "s"]} = [line] /\
    (forall rest, scanHeader (line :: rest) ∅ = scanHeader rest tbl) /\
    (forall a p, tbl !! a = Some p <->
                 ({["server" := "s"]} : gmap string string) !! p = Some a) /\
    (forall name, HasPrefix name "%" = false ->
       unalias tbl (applyAlias defaultSchedule name {["server" := "s"]}) = Ok name).
Proof.
  apply (alias_round_trip defaultSchedule {["server" := "s"]}).
  - apply defaultSchedule_admissible.
  - apply insert_non_empty.
  - intros p a H. apply lookup_singleton_Some in H as [<- <-].
    repeat split; (reflexivity || discriminate).
  - intros p p' a H H'. apply lookup_singleton_Some in H as [<- _].
    by apply lookup_singleton_Some in H' as [<- _].
Defined.
